(** * sync.py: frequency synchronisation between wfview and rigctl

    A shallow embedding of [src/sync.py] and the properties of its
    environment-file loader, protocol codec, change tracker and polling
    loop.

    Conventions of the embedding.
    - A Python [str] is a list of Unicode code points ([N]); [bytes] is a
      list of [Byte.byte].
    - A Python [int] is a [Z]; a Python [float] is an IEEE-754 binary64
      value, represented by [spec_float].
    - The classification of the code points above U+007F (which of them
      are white space, digits, decimal digits) belongs to the Unicode
      database of the interpreter, not to the program: it is the class
      [UnicodeData], and every statement holds for every instance.
    - Socket I/O, the clock and [time.sleep] are effects of a state and
      exception monad whose state carries the scripted behaviour of the
      two endpoints, the two durations the loop sleeps and the trace of
      the operations performed.
    - The interpreter is CPython 3.11 or later on POSIX, with its default
      settings: [int] converts at most 4300 digits, and [time.sleep]
      raises for a duration that is negative, not a number, or beyond the
      range of its nanosecond counter.
    - The process environment and the files that [_load_env_file] reads
      are inputs of the loader: an association list, and for each path
      what reading the file yields.
    - The [logging] calls are not modelled. *)

From Stdlib Require Import ZArith NArith List Bool String Ascii Lia.
From Stdlib Require Import Strings.Byte.
From Stdlib Require Import SpecFloat DecimalString DecimalPos Permutation.
Import ListNotations.

Local Open Scope Z_scope.

(** ** Exceptions and results *)

Inductive exn : Type :=
| socket_timeout
| ConnectionResetError
| BrokenPipeError
| ValueError
| OverflowError
| OtherException.

Inductive result (A : Type) : Type :=
| Ok (a : A)
| Raise (e : exn).
Arguments Ok {A} a.
Arguments Raise {A} e.

(** ** Python strings *)

Definition char := N.
Definition str := list char.

Definition of_string (s : string) : str :=
  map N_of_ascii (list_ascii_of_string s).

Definition LF : str := [10%N].

(** What the interpreter's Unicode database says about a code point above
    U+007F. *)
Class UnicodeData : Type := {
  ucd_isspace : char -> bool;
  ucd_decimal : char -> option Z;
  ucd_isdigit : char -> bool
}.

(** Pure ASCII: no code point above U+007F is white space or a digit. *)
Definition ascii_only : UnicodeData :=
  {| ucd_isspace := fun _ => false;
     ucd_decimal := fun _ => None;
     ucd_isdigit := fun _ => false |}.

Section Text.
Context {U : UnicodeData}.

Definition is_ascii (c : char) : bool := (c <? 128)%N.

(** [str.isspace] on one character. *)
Definition isspace (c : char) : bool :=
  if is_ascii c
  then ((9 <=? c) && (c <=? 13) || (28 <=? c) && (c <=? 32))%N
  else ucd_isspace c.

(** The decimal value of a character ([Py_UNICODE_TODECIMAL]). *)
Definition decimal_value (c : char) : option Z :=
  if is_ascii c
  then if ((48 <=? c) && (c <=? 57))%N then Some (Z.of_N c - 48) else None
  else ucd_decimal c.

(** [str.isdigit] on one character: decimal digits and the other
    characters with a digit value. *)
Definition isdigit (c : char) : bool :=
  match decimal_value c with
  | Some _ => true
  | None => if is_ascii c then false else ucd_isdigit c
  end.

Definition colon : char := 58%N.
Definition space : char := 32%N.
Definition dot : char := 46%N.
Definition dash : char := 45%N.

Fixpoint lstrip (s : str) : str :=
  match s with
  | c :: s' => if isspace c then lstrip s' else s
  | [] => []
  end.

Definition rstrip (s : str) : str := rev (lstrip (rev s)).

(** [s.strip()] *)
Definition strip (s : str) : str := rstrip (lstrip s).

(** [s.replace(":", " ")] *)
Definition replace_colon (s : str) : str :=
  map (fun c => if (c =? colon)%N then space else c) s.

Definition push_char (c : char) (ts : list str) : list str :=
  match ts with
  | t :: ts' => (c :: t) :: ts'
  | [] => [[c]]
  end.

(** [s.split()]: the maximal runs of characters that are not white
    space. *)
Fixpoint split (s : str) : list str :=
  match s with
  | [] => []
  | c :: s' =>
      if isspace c then split s'
      else match s' with
           | [] => [[c]]
           | c' :: _ => if isspace c' then [c] :: split s'
                        else push_char c (split s')
           end
  end.

(** [s.isdigit()] *)
Definition str_isdigit (s : str) : bool :=
  match s with
  | [] => false
  | _ => forallb isdigit s
  end.

Fixpoint starts_with (p s : str) : bool :=
  match p, s with
  | [], _ => true
  | a :: p', b :: s' => (a =? b)%N && starts_with p' s'
  | _ :: _, [] => false
  end.

(** [p in s] *)
Fixpoint contains (p s : str) : bool :=
  starts_with p s
  || match s with
     | [] => false
     | _ :: s' => contains p s'
     end.

End Text.

(** ** Python numbers *)

(** Round-half-to-even of the quotient [n / d], for [0 <= n] and [0 < d]. *)
Definition rne_div (n d : Z) : Z :=
  let q := n / d in
  match 2 * (n mod d) ?= d with
  | Lt => q
  | Gt => q + 1
  | Eq => if Z.even q then q else q + 1
  end.

(** The binary64 value nearest to [n / d] (ties to even), with sign [s];
    [0 <= n] and [0 < d].  The mantissa of a finite result has 53 bits,
    or fewer at the least exponent [-1074]; past the greatest exponent
    [971] the result is an infinity. *)
Definition binary64_of_ratio (s : bool) (n d : Z) : spec_float :=
  if n =? 0 then S754_zero s
  else
    let l := Z.log2 n - Z.log2 d in
    let below := if 0 <=? l then n <? d * 2 ^ l else n * 2 ^ (- l) <? d in
    let e := if below then l - 1 else l in
    let q := Z.max (e - 52) (-1074) in
    let m := if 0 <=? q then rne_div n (d * 2 ^ q) else rne_div (n * 2 ^ (- q)) d in
    let '(m, q) := if m =? 2 ^ 53 then (2 ^ 52, q + 1) else (m, q) in
    match m with
    | Zpos p => if 971 <? q then S754_infinity s else S754_finite s p q
    | _ => S754_zero s
    end.

(** [round(x)] of a float: the nearest integer, ties to even; an infinity
    raises [OverflowError] and a NaN raises [ValueError]. *)
Definition py_round (x : spec_float) : result Z :=
  match x with
  | S754_zero _ => Ok 0
  | S754_infinity _ => Raise OverflowError
  | S754_nan => Raise ValueError
  | S754_finite s m e =>
      let a := if 0 <=? e then Zpos m * 2 ^ e else rne_div (Zpos m) (2 ^ (- e)) in
      Ok (if s then - a else a)
  end.

Section Numbers.
Context {U : UnicodeData}.

(** The value of a run of decimal digits read after [acc], or [None] when
    a character is no decimal digit. *)
Fixpoint digits_value (acc : Z) (s : str) : option Z :=
  match s with
  | [] => Some acc
  | c :: s' =>
      match decimal_value c with
      | Some d => digits_value (10 * acc + d) s'
      | None => None
      end
  end.

(** A leading minus sign, and what follows it. *)
Definition split_sign (tok : str) : bool * str :=
  match tok with
  | c :: body => if (c =? dash)%N then (true, body) else (false, tok)
  | [] => (false, [])
  end.

(** The text before the first ['.'] and, when there is one, the text after
    it. *)
Fixpoint split_dot (s : str) : str * option str :=
  match s with
  | [] => ([], None)
  | c :: s' =>
      if (c =? dot)%N then ([], Some s')
      else let '(a, b) := split_dot s' in (c :: a, b)
  end.

(** A decimal literal made of digits, ['.'] and ['-']: sign, numerator and
    the number of digits after the point.  [-?D+], [-?D+.D*] and [-?.D+]
    are literals, nothing else is. *)
Definition decimal_literal (tok : str) : option (bool * Z * nat) :=
  let '(neg, body) := split_sign tok in
  match split_dot body with
  | ([], None) | ([], Some []) => None
  | (ip, None) =>
      match digits_value 0 ip with
      | Some n => Some (neg, n, O)
      | None => None
      end
  | (ip, Some fp) =>
      match digits_value 0 (ip ++ fp) with
      | Some n => Some (neg, n, List.length fp)
      | None => None
      end
  end.

(** An integer literal made of digits and ['-']: [-?D+] and nothing
    else. *)
Definition integer_literal (tok : str) : option Z :=
  let '(neg, body) := split_sign tok in
  match body with
  | [] => None
  | _ :: _ =>
      match digits_value 0 body with
      | Some n => Some (if neg then - n else n)
      | None => None
      end
  end.

(** The interpreter's bound on the number of digits [int] converts from a
    string, [sys.get_int_max_str_digits()]: 4300 in CPython 3.11 and later
    (and in 3.10 from 3.10.7 on) unless the interpreter is started
    otherwise; sync.py does not change it. *)
Definition int_max_str_digits : Z := 4300.

(** The digits of a literal: what follows its sign. *)
Definition digits_of (tok : str) : str := snd (split_sign tok).

(** The integer literals [int] takes: those of no more digits than the
    bound, leading zeros counted. *)
Definition accepted_integer (tok : str) : option Z :=
  if int_max_str_digits <? Z.of_nat (List.length (digits_of tok))
  then None
  else integer_literal tok.

(** [int(tok)] for a [tok] made of digit characters, ['.'] and ['-'], the
    only ones [parse_freq_from_text] lets through: the value of an integer
    literal of no more digits than the bound, or [ValueError]. *)
Definition py_int (tok : str) : result Z :=
  match accepted_integer tok with
  | Some v => Ok v
  | None => Raise ValueError
  end.

(** [float(tok)] for such a [tok]: the binary64 value nearest to the
    decimal literal, or [ValueError]. *)
Definition py_float (tok : str) : result spec_float :=
  match decimal_literal tok with
  | Some (neg, n, k) => Ok (binary64_of_ratio neg n (10 ^ Z.of_nat k))
  | None => Raise ValueError
  end.

End Numbers.

(** ** Protocol codec *)

(** [try: body except ValueError: handler]; any other exception goes
    through. *)
Definition except_ValueError {A : Type} (body handler : result A) : result A :=
  match body with
  | Raise ValueError => handler
  | _ => body
  end.

Definition result_bind {A B : Type} (r : result A) (f : A -> result B) : result B :=
  match r with
  | Ok a => f a
  | Raise e => Raise e
  end.

Section Codec.
Context {U : UnicodeData}.

(** The characters of [token] that are digits, ['.'] or ['-'], joined. *)
Definition keep_numeric (token : str) : str :=
  filter (fun ch => isdigit ch || ((ch =? dot) || (ch =? dash))%N) token.

(** The [for] loop of [parse_freq_from_text] over the tokens left. *)
Fixpoint parse_tokens (tokens : list str) : result (option Z) :=
  match tokens with
  | [] => Ok None
  | token :: rest =>
      let tok := keep_numeric token in
      match tok with
      | [] => parse_tokens rest
      | _ :: _ =>
          except_ValueError
            (result_bind (py_int tok) (fun v => Ok (Some v)))
            (except_ValueError
               (result_bind (py_float tok) (fun fval =>
                result_bind (py_round fval) (fun ival =>
                Ok (Some ival))))
               (parse_tokens rest))
      end
  end.

Definition parse_freq_from_text (text : str) : result (option Z) :=
  let clean := strip text in
  parse_tokens (split (replace_colon clean)).

(** The acknowledgement test of [rigctl_set_freq]:
    [("RPRT 0" in reply) or reply.strip().isdigit()]. *)
Definition set_acknowledged (reply : str) : bool :=
  contains (of_string "RPRT 0") reply || str_isdigit (strip reply).

End Codec.

(** [str(n)] of an integer. *)
Definition str_of_Z (n : Z) : str :=
  of_string (DecimalString.NilZero.string_of_int (Z.to_int n)).

(** ** Bytes and text *)

Inductive error_handler : Type := errors_strict | errors_ignore | errors_replace.

(** What the handler does with a malformed range, given the decoding of
    what follows it. *)
Definition on_error (h : error_handler) (rest : result str) : result str :=
  match h with
  | errors_strict => Raise ValueError      (* UnicodeDecodeError is a ValueError *)
  | errors_ignore => rest
  | errors_replace => result_bind rest (fun s => Ok (65533%N :: s))
  end.

Definition emit (c : char) (rest : result str) : result str :=
  result_bind rest (fun s => Ok (c :: s)).

Definition is_continuation (b : N) : bool := ((128 <=? b) && (b <=? 191))%N.

(** [data.decode("utf-8", errors=h)].  A malformed range is a start byte
    that cannot start a sequence, a start byte with the continuation
    bytes that follow it up to the first byte that cannot continue it, or
    a sequence cut short by the end of the data. *)
Fixpoint utf8_decode (h : error_handler) (data : list byte) : result str :=
  match data with
  | [] => Ok []
  | b0 :: r0 =>
      let c0 := Byte.to_N b0 in
      if (c0 <? 128)%N then emit c0 (utf8_decode h r0)
      else if (c0 <? 194)%N then on_error h (utf8_decode h r0)
      else if (c0 <? 224)%N then
        match r0 with
        | [] => on_error h (Ok [])
        | b1 :: r1 =>
            let c1 := Byte.to_N b1 in
            if is_continuation c1
            then emit ((c0 - 192) * 64 + (c1 - 128))%N (utf8_decode h r1)
            else on_error h (utf8_decode h r0)
        end
      else if (c0 <? 240)%N then
        match r0 with
        | [] => on_error h (Ok [])
        | b1 :: r1 =>
            let c1 := Byte.to_N b1 in
            if negb (is_continuation c1)
               || ((c0 =? 224) && (c1 <? 160))%N
               || ((c0 =? 237) && (160 <=? c1))%N
            then on_error h (utf8_decode h r0)
            else
              match r1 with
              | [] => on_error h (Ok [])
              | b2 :: r2 =>
                  let c2 := Byte.to_N b2 in
                  if is_continuation c2
                  then emit ((c0 - 224) * 4096 + (c1 - 128) * 64 + (c2 - 128))%N
                            (utf8_decode h r2)
                  else on_error h (utf8_decode h r1)
              end
        end
      else if (c0 <? 245)%N then
        match r0 with
        | [] => on_error h (Ok [])
        | b1 :: r1 =>
            let c1 := Byte.to_N b1 in
            if negb (is_continuation c1)
               || ((c0 =? 240) && (c1 <? 144))%N
               || ((c0 =? 244) && (144 <=? c1))%N
            then on_error h (utf8_decode h r0)
            else
              match r1 with
              | [] => on_error h (Ok [])
              | b2 :: r2 =>
                  let c2 := Byte.to_N b2 in
                  if negb (is_continuation c2)
                  then on_error h (utf8_decode h r1)
                  else
                    match r2 with
                    | [] => on_error h (Ok [])
                    | b3 :: r3 =>
                        let c3 := Byte.to_N b3 in
                        if is_continuation c3
                        then emit ((c0 - 240) * 262144 + (c1 - 128) * 4096
                                   + (c2 - 128) * 64 + (c3 - 128))%N
                                  (utf8_decode h r3)
                        else on_error h (utf8_decode h r2)
                    end
              end
        end
      else on_error h (utf8_decode h r0)
  end.

(** [line.encode("ascii", errors="ignore")] *)
Definition encode_ascii_ignore (line : str) : list byte :=
  flat_map (fun c => if (c <? 128)%N
                     then match Byte.of_N c with Some b => [b] | None => [] end
                     else []) line.

(** ** The change tracker's data *)

(** The two keys ["wf"] and ["sdr"] of the tracker's dictionaries, and the
    two connections of the loop. *)
Inductive side : Type := wf | sdr.

Definition other (k : side) : side :=
  match k with wf => sdr | sdr => wf end.

(** A dictionary with exactly the keys ["wf"] and ["sdr"]. *)
Record per_side (A : Type) : Type := { at_wf : A; at_sdr : A }.
Arguments at_wf {A} _.
Arguments at_sdr {A} _.

Definition lookup {A : Type} (d : per_side A) (k : side) : A :=
  match k with wf => at_wf d | sdr => at_sdr d end.

Definition store {A : Type} (d : per_side A) (k : side) (v : A) : per_side A :=
  match k with
  | wf => {| at_wf := v; at_sdr := at_sdr d |}
  | sdr => {| at_wf := at_wf d; at_sdr := v |}
  end.

Definition float_zero : spec_float := S754_zero false.

Record Tracker : Type := {
  th : Z;
  last : per_side (option Z);
  last_change_time : per_side spec_float
}.

(** [Tracker.__init__] *)
Definition Tracker_init (threshold_hz : Z) : Tracker :=
  {| th := threshold_hz;
     last := {| at_wf := None; at_sdr := None |};
     last_change_time := {| at_wf := float_zero; at_sdr := float_zero |} |}.

(** [Tracker.last_changed_side] *)
Definition last_changed_side (tr : Tracker) : option side :=
  let wf_t := lookup (last_change_time tr) wf in
  let sdr_t := lookup (last_change_time tr) sdr in
  if SFeqb wf_t float_zero && SFeqb sdr_t float_zero then None
  else Some (if SFleb sdr_t wf_t then wf else sdr).

(** ** Sockets, clock and sleep *)

Record socket : Type := { peer : side; fd : nat }.

Inductive duration : Type :=
| poll_sec          (* max(0.02, POLL_MS / 1000.0) *)
| RECONNECT_WAIT.

Inductive event : Type :=
| EvConnect (k : side)
| EvSend (s : socket) (data : list byte)
| EvRecv (s : socket) (max_bytes : nat)
| EvClose (s : socket)
| EvSleep (d : duration).

(** What one endpoint does: the outcome of each successive [connect],
    [sendall] and [recv] on it.  When a list is used up, [connect] and
    [sendall] succeed and [recv], with nothing to read, times out. *)
Record endpoint : Type := {
  connects : list (option exn);
  sends : list (option exn);
  recvs : list (result (list byte))
}.

Record state : Type := {
  remote : per_side endpoint;
  closes : list (option exn);       (* outcomes of successive [close] *)
  clock : nat -> spec_float;        (* the n-th reading of [time.time()] *)
  clock_reads : nat;
  next_fd : nat;
  tr : Tracker;                     (* the tracker object *)
  conn : per_side (option socket);  (* the variables [wf] and [sdr] of [main] *)
  seconds : duration -> spec_float  (* the values of [poll_sec] and
                                       [RECONNECT_WAIT], fixed at start-up *)
}.

Definition with_remote (st : state) (r : per_side endpoint) : state :=
  {| remote := r; closes := closes st; clock := clock st;
     clock_reads := clock_reads st; next_fd := next_fd st; tr := tr st;
     conn := conn st;
     seconds := seconds st |}.

Definition with_closes (st : state) (c : list (option exn)) : state :=
  {| remote := remote st; closes := c; clock := clock st;
     clock_reads := clock_reads st; next_fd := next_fd st; tr := tr st;
     conn := conn st;
     seconds := seconds st |}.

Definition with_clock_reads (st : state) (n : nat) : state :=
  {| remote := remote st; closes := closes st; clock := clock st;
     clock_reads := n; next_fd := next_fd st; tr := tr st; conn := conn st;
     seconds := seconds st |}.

Definition with_next_fd (st : state) (n : nat) : state :=
  {| remote := remote st; closes := closes st; clock := clock st;
     clock_reads := clock_reads st; next_fd := n; tr := tr st; conn := conn st;
     seconds := seconds st |}.

Definition with_tr (st : state) (t : Tracker) : state :=
  {| remote := remote st; closes := closes st; clock := clock st;
     clock_reads := clock_reads st; next_fd := next_fd st; tr := t;
     conn := conn st;
     seconds := seconds st |}.

Definition with_conn (st : state) (c : per_side (option socket)) : state :=
  {| remote := remote st; closes := closes st; clock := clock st;
     clock_reads := clock_reads st; next_fd := next_fd st; tr := tr st;
     conn := c;
     seconds := seconds st |}.

Definition with_seconds (st : state) (secs : duration -> spec_float) : state :=
  {| remote := remote st; closes := closes st; clock := clock st;
     clock_reads := clock_reads st; next_fd := next_fd st; tr := tr st;
     conn := conn st; seconds := secs |}.

(** A computation: the result or the exception raised, the state left
    behind and the operations performed, in order. *)
Definition M (A : Type) : Type := state -> result A * state * list event.

Definition ret {A : Type} (a : A) : M A := fun st => (Ok a, st, []).

Definition bind {A B : Type} (m : M A) (f : A -> M B) : M B :=
  fun st =>
    let '(r, st1, ev1) := m st in
    match r with
    | Ok a => let '(r2, st2, ev2) := f a st1 in (r2, st2, ev1 ++ ev2)
    | Raise e => (Raise e, st1, ev1)
    end.

Definition raise {A : Type} (e : exn) : M A := fun st => (Raise e, st, []).

(** [try: m except ...]: the outcome of [m] as a value. *)
Definition attempt {A : Type} (m : M A) : M (result A) :=
  fun st => let '(r, st1, ev1) := m st in (Ok r, st1, ev1).

Definition lift {A : Type} (r : result A) : M A := fun st => (r, st, []).
Definition get_state : M state := fun st => (Ok st, st, []).
Definition put_state (st' : state) : M unit := fun _ => (Ok tt, st', []).
Definition log_event (e : event) : M unit := fun st => (Ok tt, st, [e]).
Definition of_outcome (o : option exn) : M unit :=
  match o with
  | Some e => raise e
  | None => ret tt
  end.

Declare Scope io_scope.
Delimit Scope io_scope with io.
Notation "x <- m ;; k" := (bind m (fun x => k))
  (at level 100, m at next level, right associativity) : io_scope.
Notation "m ;; k" := (bind m (fun _ => k))
  (at level 100, right associativity) : io_scope.
Local Open Scope io_scope.

Definition result_of (A : Type) (x : result A * state * list event) : result A :=
  fst (fst x).
Arguments result_of {A} x.
Definition state_of (A : Type) (x : result A * state * list event) : state :=
  snd (fst x).
Arguments state_of {A} x.
Definition events_of (A : Type) (x : result A * state * list event) : list event :=
  snd x.
Arguments events_of {A} x.

(** [time.time()] *)
Definition time_time : M spec_float :=
  st <- get_state;;
  put_state (with_clock_reads st (S (clock_reads st)));;
  ret (clock st (clock_reads st)).

(** The floats [1e9] and [2.0 ** 63]. *)
Definition float_1e9 : spec_float := binary64_of_ratio false (10 ^ 9) 1.
Definition float_2_63 : spec_float := binary64_of_ratio false (2 ^ 63) 1.

(** What [time.sleep(x)] raises instead of sleeping, if anything, for a
    float [x] (CPython 3.11 and later, on POSIX): [ValueError] for a NaN;
    [OverflowError] when [x * 1e9], the nanoseconds, is not in the range
    of a signed 64-bit integer, which the infinities are not; [ValueError]
    for a negative [x].  The nanoseconds are rounded to a whole number
    before the range is checked, which moves no float across either
    bound; negative zero is zero. *)
Definition time_sleep_error (x : spec_float) : option exn :=
  match x with
  | S754_nan => Some ValueError
  | _ =>
      let ns := SFmul 53 1024 x float_1e9 in
      if SFleb (SFopp float_2_63) ns && SFltb ns float_2_63
      then if SFltb x float_zero then Some ValueError else None
      else Some OverflowError
  end.

(** [time.sleep(d)], [d] one of the two durations of [main]. *)
Definition sleep (d : duration) : M unit :=
  log_event (EvSleep d);;
  st <- get_state;;
  of_outcome (time_sleep_error (seconds st d)).

(** [socket.socket(...)], [settimeout], [connect((host, port))] *)
Definition connect (k : side) : M socket :=
  log_event (EvConnect k);;
  st <- get_state;;
  let ep := lookup (remote st) k in
  match connects ep with
  | o :: rest =>
      put_state (with_remote st (store (remote st) k
        {| connects := rest; sends := sends ep; recvs := recvs ep |}));;
      of_outcome o
  | [] => ret tt
  end;;
  st <- get_state;;
  put_state (with_next_fd st (S (next_fd st)));;
  ret {| peer := k; fd := next_fd st |}.

(** [sock.sendall(data)] *)
Definition sendall (s : socket) (data : list byte) : M unit :=
  log_event (EvSend s data);;
  st <- get_state;;
  let ep := lookup (remote st) (peer s) in
  match sends ep with
  | o :: rest =>
      put_state (with_remote st (store (remote st) (peer s)
        {| connects := connects ep; sends := rest; recvs := recvs ep |}));;
      of_outcome o
  | [] => ret tt
  end.

(** [sock.recv(max_bytes)]: at most [max_bytes] of what has arrived; the
    rest stays to be read. *)
Definition recv (s : socket) (max_bytes : nat) : M (list byte) :=
  log_event (EvRecv s max_bytes);;
  st <- get_state;;
  let ep := lookup (remote st) (peer s) in
  match recvs ep with
  | Ok data :: rest =>
      let later := match skipn max_bytes data with
                   | [] => rest
                   | more => Ok more :: rest
                   end in
      put_state (with_remote st (store (remote st) (peer s)
        {| connects := connects ep; sends := sends ep; recvs := later |}));;
      ret (firstn max_bytes data)
  | Raise e :: rest =>
      put_state (with_remote st (store (remote st) (peer s)
        {| connects := connects ep; sends := sends ep; recvs := rest |}));;
      raise e
  | [] => raise socket_timeout
  end.

(** [sock.close()] *)
Definition close (s : socket) : M unit :=
  log_event (EvClose s);;
  st <- get_state;;
  match closes st with
  | o :: rest => put_state (with_closes st rest);; of_outcome o
  | [] => ret tt
  end.

(** ** Socket helpers of sync.py *)

Definition send_line (sock : socket) (line : str) : M unit :=
  let line := if starts_with (rev LF) (rev line) then line else line ++ LF in
  sendall sock (encode_ascii_ignore line).

Definition recv_text (sock : socket) (max_bytes : nat) : M str :=
  data <- recv sock max_bytes;;
  text <- lift (utf8_decode errors_ignore data);;
  ret text.

Section Engine.
Context {U : UnicodeData}.
Variable CHANGE_THRESHOLD_HZ : Z.

(** ** RigCTL helpers *)

Definition rigctl_get_freq (sock : socket) : M (option Z) :=
  send_line sock (of_string "f");;
  reply <- recv_text sock 1024;;
  freq <- lift (parse_freq_from_text reply);;
  ret freq.

Definition rigctl_set_freq (sock : socket) (freq : Z) : M bool :=
  send_line sock (of_string "F " ++ str_of_Z freq);;
  reply <- recv_text sock 1024;;
  let ok := set_acknowledged reply in
  ret ok.

(** ** Change tracking *)

(** The test of [Tracker.update]:
    [old is None or abs(new_val - old) >= self.th]. *)
Definition changed (t : Tracker) (k : side) (new_val : Z) : bool :=
  match lookup (last t) k with
  | None => true
  | Some old => th t <=? Z.abs (new_val - old)
  end.

(** [Tracker.update], on the tracker of the state. *)
Definition update (k : side) (new_val : Z) : M unit :=
  st <- get_state;;
  (if changed (tr st) k new_val
   then
     now <- time_time;;
     st <- get_state;;
     put_state (with_tr st
       {| th := th (tr st); last := last (tr st);
          last_change_time := store (last_change_time (tr st)) k now |})
   else ret tt);;
  st <- get_state;;
  put_state (with_tr st
    {| th := th (tr st); last := store (last (tr st)) k (Some new_val);
       last_change_time := last_change_time (tr st) |}).

(** ** Main loop *)

(** Lines 188-191 of [main]: the readings obtained go to the tracker. *)
Definition track (wf_freq sdr_freq : option Z) : M unit :=
  match wf_freq with
  | Some v => update wf v
  | None => ret tt
  end;;
  match sdr_freq with
  | Some v => update sdr v
  | None => ret tt
  end.

(** Lines 193-208 of [main]: the correction. *)
Definition correct (wf_sock sdr_sock : socket) (wf_freq sdr_freq : option Z) : M unit :=
  match wf_freq, sdr_freq with
  | Some wf_freq, Some sdr_freq =>
      let delta := Z.abs (wf_freq - sdr_freq) in
      if CHANGE_THRESHOLD_HZ <=? delta then
        st <- get_state;;
        let source := last_changed_side (tr st) in
        match source with
        | Some wf => rigctl_set_freq sdr_sock wf_freq;; ret tt
        | Some sdr => rigctl_set_freq wf_sock sdr_freq;; ret tt
        | None =>
            (* tie-breaker: prefer wfview as source *)
            rigctl_set_freq sdr_sock wf_freq;; ret tt
        end
      else ret tt
  | _, _ => ret tt
  end.

(** Lines 185-210 of [main]: the body of the second [try]. *)
Definition poll (wf_sock sdr_sock : socket) : M unit :=
  wf_freq <- rigctl_get_freq wf_sock;;
  sdr_freq <- rigctl_get_freq sdr_sock;;
  track wf_freq sdr_freq;;
  correct wf_sock sdr_sock wf_freq sdr_freq;;
  sleep poll_sec.

(** Lines 169-172 of [main]: the body of the first [try]. *)
Definition ensure_connections : M unit :=
  st <- get_state;;
  match lookup (conn st) wf with
  | None =>
      s <- connect wf;;
      st <- get_state;;
      put_state (with_conn st (store (conn st) wf (Some s)))
  | Some _ => ret tt
  end;;
  st <- get_state;;
  match lookup (conn st) sdr with
  | None =>
      s <- connect sdr;;
      st <- get_state;;
      put_state (with_conn st (store (conn st) sdr (Some s)))
  | Some _ => ret tt
  end.

(** [try: if so: so.close() except Exception: pass] *)
Definition close_quietly (so : option socket) : M unit :=
  match so with
  | Some s => attempt (close s);; ret tt
  | None => ret tt
  end.

(** [for so in (wf, sdr): ...; wf = sdr = None] *)
Definition drop_connections : M unit :=
  st <- get_state;;
  close_quietly (lookup (conn st) wf);;
  close_quietly (lookup (conn st) sdr);;
  st <- get_state;;
  put_state (with_conn st {| at_wf := None; at_sdr := None |}).

(** The exceptions of the first [except] clause of the polling [try]. *)
Definition is_io_error (e : exn) : bool :=
  match e with
  | socket_timeout | ConnectionResetError | BrokenPipeError => true
  | _ => false
  end.

(** The handlers of the polling [try], lines 212-223. *)
Definition poll_handler (e : exn) : M unit :=
  if is_io_error e
  then drop_connections;; sleep RECONNECT_WAIT
  else sleep poll_sec.

(** One turn of the [while] loop of [main]. *)
Definition iteration : M unit :=
  connected <- attempt ensure_connections;;
  match connected with
  | Raise _ => drop_connections;; sleep RECONNECT_WAIT
  | Ok _ =>
      st <- get_state;;
      match lookup (conn st) wf, lookup (conn st) sdr with
      | Some wf_sock, Some sdr_sock =>
          polled <- attempt (poll wf_sock sdr_sock);;
          match polled with
          | Ok _ => ret tt
          | Raise e => poll_handler e
          end
      | _, _ => ret tt
      end
  end.

(** The [while not stop] loop and the clean-up after it, when the
    interrupt arrives in the course of turn number [turns]: that many
    tests find [stop] false, the next one finds it true. *)
Fixpoint main_loop (turns : nat) : M unit :=
  match turns with
  | S turns' => iteration;; main_loop turns'
  | O =>
      st <- get_state;;
      close_quietly (lookup (conn st) wf);;
      close_quietly (lookup (conn st) sdr)
  end.

End Engine.

(** The state [main] starts from: a new tracker, no connection. *)
Definition initial_state (threshold_hz : Z) (net : per_side endpoint)
    (close_outcomes : list (option exn)) (clk : nat -> spec_float)
    (secs : duration -> spec_float) : state :=
  {| remote := net; closes := close_outcomes; clock := clk; clock_reads := O;
     next_fd := 3%nat; tr := Tracker_init threshold_hz;
     conn := {| at_wf := None; at_sdr := None |}; seconds := secs |}.

(** ** The environment file *)

(** [os.environ], names compared as they are written (as on POSIX): the
    binding found first is the one in force. *)
Definition environ := list (str * str).

Fixpoint environ_get (env : environ) (k : str) : option str :=
  match env with
  | [] => None
  | (k', v) :: env' =>
      if list_eq_dec N.eq_dec k' k then Some v else environ_get env' k
  end.

(** [k in os.environ] *)
Definition environ_has (env : environ) (k : str) : bool :=
  match environ_get env k with
  | Some _ => true
  | None => false
  end.

Fixpoint lstrip_char (c : char) (s : str) : str :=
  match s with
  | x :: s' => if (x =? c)%N then lstrip_char c s' else s
  | [] => []
  end.

(** [s.strip(c)] for a one-character string [c] *)
Definition strip_char (c : char) (s : str) : str :=
  rev (lstrip_char c (rev (lstrip_char c s))).

(** [s.split(sep, 1)] for a one-character [sep] that occurs in [s]: what is
    before its first occurrence and what is after it. *)
Fixpoint split_once (sep : char) (s : str) : str * str :=
  match s with
  | [] => ([], [])
  | c :: s' =>
      if (c =? sep)%N then ([], s')
      else let '(a, b) := split_once sep s' in (c :: a, b)
  end.

Definition hash : char := 35%N.
Definition equals : char := 61%N.
Definition double_quote : char := 34%N.
Definition single_quote : char := 39%N.

Definition non_empty (s : str) : bool :=
  match s with
  | [] => false
  | _ :: _ => true
  end.

Section EnvFile.
Context {U : UnicodeData}.

(** The exception that the test [k not in os.environ] or the assignment
    [os.environ[k] = v] raises, if any, for a name that is not set: the
    platform refuses some names and values (a NUL character, a character
    its encoding lacks). *)
Variable setenv_error : str -> str -> option exn.

(** The files of the machine: nothing for a path that is no regular file,
    otherwise what opening and reading it line by line yields, each line or
    the exception raised instead. *)
Variable files : str -> option (list (result str)).

(** The body of [with open(path) as f: for raw in f: ...], from the lines
    left: the environment it leaves and the exception that ended it, if
    any. *)
Fixpoint read_lines (env : environ) (lines : list (result str))
    : environ * option exn :=
  match lines with
  | [] => (env, None)
  | Raise e :: _ => (env, Some e)
  | Ok raw :: rest =>
      let line := strip raw in
      if negb (non_empty line) || starts_with [hash] line
      then read_lines env rest
      else if negb (contains [equals] line)
      then read_lines env rest
      else
        let '(k, v) := split_once equals line in
        let k := strip k in
        let v := strip_char single_quote (strip_char double_quote (strip v)) in
        if non_empty k && negb (environ_has env k)
        then match setenv_error k v with
             | Some e => (env, Some e)
             | None => read_lines ((k, v) :: env) rest
             end
        else read_lines env rest
  end.

(** The [for path in candidates] loop. *)
Fixpoint load_candidates (env : environ) (candidates : list str) : environ :=
  match candidates with
  | [] => env
  | path :: rest =>
      match (if non_empty path then files path else None) with
      | Some lines =>
          match read_lines env lines with
          | (env', None) => env'                      (* break *)
          | (env', Some _) => load_candidates env' rest   (* continue *)
          end
      | None => load_candidates env rest
      end
  end.

(** [_load_env_file], on the environment [env]; [repo_env] and [local_env]
    are the absolute paths of [.env] beside the script's directory and in
    it. *)
Definition _load_env_file (repo_env local_env : str) (env : environ) : environ :=
  let candidates :=
    match environ_get env (of_string "SDRSYNC_ENV_FILE") with
    | Some path => if non_empty path then [path] else []
    | None => []
    end
    ++ [repo_env; local_env; of_string "/etc/sdrsync/sdrsync.env"] in
  load_candidates env candidates.

End EnvFile.

(** ** Parts of the main loop *)

(** What the first [try] of [main] does for one side: connect when the
    variable is empty. *)
Definition connect_side (k : side) : M unit :=
  (st <- get_state;;
   match lookup (conn st) k with
   | None =>
       s <- connect k;;
       st <- get_state;;
       put_state (with_conn st (store (conn st) k (Some s)))
   | Some _ => ret tt
   end)%io.

(** ** The polling period *)

(** [float(n)] of an integer: the nearest binary64 value, or
    [OverflowError] when the integer is too large for a float. *)
Definition float_of_int (n : Z) : result spec_float :=
  match binary64_of_ratio (n <? 0) (Z.abs n) 1 with
  | S754_infinity _ => Raise OverflowError
  | x => Ok x
  end.

(** The literals [0.02] and [1000.0]. *)
Definition float_0_02 : spec_float := binary64_of_ratio false 2 100.
Definition float_1000 : spec_float := binary64_of_ratio false 1000 1.

(** [max(a, b)]: the first argument unless the second is greater. *)
Definition py_max (a b : spec_float) : spec_float :=
  if SFltb a b then b else a.

(** [poll_sec = max(0.02, POLL_MS / 1000.0)] in [main]. *)
Definition poll_sec_value (POLL_MS : Z) : result spec_float :=
  result_bind (float_of_int POLL_MS) (fun x =>
  Ok (py_max float_0_02 (SFdiv 53 1024 x float_1000))).

(** ** Vocabulary of the statements *)

(** The lines of the protocol, as they go on the wire. *)
Definition get_line : list byte := encode_ascii_ignore (of_string "f" ++ LF).
Definition set_line (freq : Z) : list byte :=
  encode_ascii_ignore (of_string "F " ++ str_of_Z freq ++ LF).

(** What was sent in a trace, and on which socket. *)
Fixpoint sent (evs : list event) : list (socket * list byte) :=
  match evs with
  | [] => []
  | EvSend s data :: evs' => (s, data) :: sent evs'
  | _ :: evs' => sent evs'
  end.

Definition pick {A : Type} (k : side) (x_wf x_sdr : A) : A :=
  match k with wf => x_wf | sdr => x_sdr end.

(** [kept] is [data] with some bytes taken out. *)
Inductive subsequence {A : Type} : list A -> list A -> Prop :=
| sub_nil : subsequence [] []
| sub_keep x kept data : subsequence kept data -> subsequence (x :: kept) (x :: data)
| sub_drop x kept data : subsequence kept data -> subsequence kept (x :: data).

Fixpoint first_some {A B : Type} (f : A -> option B) (l : list A) : option B :=
  match l with
  | [] => None
  | x :: l' => match f x with
               | Some b => Some b
               | None => first_some f l'
               end
  end.

Section CodecSpec.
Context {U : UnicodeData}.

(** The tokens of a reply: split on white space, [':'] being a separator
    too, each one stripped down to digits, ['.'] and ['-']. *)
Definition numeric_tokens (text : str) : list str :=
  map keep_numeric (split (replace_colon (strip text))).

(** The integer a stripped token stands for, as sync.py computes it: the
    integer literal itself when [int] takes it, or else the decimal literal
    converted to the nearest binary64 float and that float rounded to the
    nearest integer, ties to even. *)
Definition token_number (tok : str) : option Z :=
  match accepted_integer tok with
  | Some v => Some v
  | None =>
      match decimal_literal tok with
      | Some (neg, n, k) =>
          match py_round (binary64_of_ratio neg n (10 ^ Z.of_nat k)) with
          | Ok z => Some z
          | Raise _ => None
          end
      | None => None
      end
  end.

(** A numeral that [int] does not take and that is too large for a finite
    binary64 float: [round] raises [OverflowError] on it. *)
Definition too_large (tok : str) : bool :=
  match accepted_integer tok, decimal_literal tok with
  | None, Some (neg, n, k) =>
      match binary64_of_ratio neg n (10 ^ Z.of_nat k) with
      | S754_infinity _ => true
      | _ => false
      end
  | _, _ => false
  end.

(** The integer a stripped token stands for, in the words of the
    specification: the integer literal itself, or the decimal literal
    rounded to the nearest integer. *)
Definition spec_token_number (tok : str) : option Z :=
  match integer_literal tok with
  | Some v => Some v
  | None =>
      match decimal_literal tok with
      | Some (neg, n, k) =>
          let r := rne_div n (10 ^ Z.of_nat k) in
          Some (if neg then - r else r)
      | None => None
      end
  end.

(** [parse_frequency] in the words of the specification. *)
Definition spec_parse_frequency (text : str) : option Z :=
  first_some spec_token_number
    (map keep_numeric (split (replace_colon text))).

End CodecSpec.

(** [receive_line]'s decoding in the words of the specification:
    undecodable bytes are substituted. *)
Definition spec_decode (data : list byte) : result str :=
  utf8_decode errors_replace data.

(** The result a scripted outcome stands for. *)
Definition outcome_result (o : option exn) : result unit :=
  match o with
  | Some e => Raise e
  | None => Ok tt
  end.

(** What the operations on sockets leave alone: the tracker, the
    variables of [main] and the clock. *)
Definition untouched (st st' : state) : Prop :=
  tr st' = tr st /\ conn st' = conn st
  /\ clock st' = clock st /\ clock_reads st' = clock_reads st.

(** ** Scenarios

    Concrete runs: the two sockets of a connected loop, endpoints that
    answer with given lines, and a few instants. *)

Definition wfview_socket : socket := {| peer := wf; fd := 3 |}.
Definition rigctl_socket : socket := {| peer := sdr; fd := 4 |}.

Definition line (s : string) : list byte :=
  encode_ascii_ignore (of_string s ++ LF).

Definition answers (replies : list (result (list byte))) : endpoint :=
  {| connects := []; sends := []; recvs := replies |}.

(** The durations of the default configuration: a poll interval of 0.2 s
    ([POLL_MS] is 200) and a reconnect wait of 2.0 s. *)
Definition default_seconds (d : duration) : spec_float :=
  match d with
  | poll_sec => binary64_of_ratio false 200 1000
  | RECONNECT_WAIT => binary64_of_ratio false 2 1
  end.

(** The loop with both connections up, a given tracker and clock,
    endpoints that answer as scripted, and the default durations. *)
Definition connected (t : Tracker) (clk : nat -> spec_float)
    (wf_replies sdr_replies : list (result (list byte))) : state :=
  {| remote := {| at_wf := answers wf_replies; at_sdr := answers sdr_replies |};
     closes := []; clock := clk; clock_reads := O; next_fd := 5%nat; tr := t;
     conn := {| at_wf := Some wfview_socket; at_sdr := Some rigctl_socket |};
     seconds := default_seconds |}.

(** Durations that [time.sleep] refuses: a reconnect wait of -1.0, and a
    poll interval of 1e10 s. *)
Definition negative_wait (d : duration) : spec_float :=
  match d with
  | poll_sec => default_seconds poll_sec
  | RECONNECT_WAIT => binary64_of_ratio true 1 1
  end.

Definition long_poll (d : duration) : spec_float :=
  match d with
  | poll_sec => binary64_of_ratio false (10 ^ 10) 1
  | RECONNECT_WAIT => default_seconds RECONNECT_WAIT
  end.

(** The instants 1.0 and 2.0. *)
Definition instant_1 : spec_float := S754_finite false 4503599627370496 (-52).
Definition instant_2 : spec_float := S754_finite false 4503599627370496 (-51).

(** A tracker that saw both sides at 14250000 Hz at the instant 1.0. *)
Definition steady_tracker : Tracker :=
  {| th := 50;
     last := {| at_wf := Some 14250000; at_sdr := Some 14250000 |};
     last_change_time := {| at_wf := instant_1; at_sdr := instant_1 |} |}.

(** A decimal of 310 digits: a one, 309 zeros, then [.0]. *)
Definition huge_decimal : str :=
  of_string "1" ++ repeat 48%N 309 ++ of_string ".0".

(** ** Vocabulary of further statements *)

(** The sockets closed in a trace, in order. *)
Fixpoint closed (evs : list event) : list socket :=
  match evs with
  | [] => []
  | EvClose s :: evs' => s :: closed evs'
  | _ :: evs' => closed evs'
  end.

(** The descriptors of the sockets the variables [wf] and [sdr] hold. *)
Definition open_fds (st : state) : list nat :=
  match lookup (conn st) wf with Some s => [fd s] | None => [] end
  ++ match lookup (conn st) sdr with Some s => [fd s] | None => [] end.

(** A step that opens and closes nothing and leaves the variables [wf]
    and [sdr] alone. *)
Definition quiet (st st' : state) (ev : list event) : Prop :=
  conn st' = conn st /\ next_fd st' = next_fd st /\ closed ev = [].

(** The account of sockets over a step: what it closed and what is still
    held afterwards is what was held before and what it opened, the
    descriptors from [next_fd] on. *)
Definition balanced (st st' : state) (ev : list event) : Prop :=
  (next_fd st <= next_fd st')%nat
  /\ Permutation (map fd (closed ev) ++ open_fds st')
                 (open_fds st ++ seq (next_fd st) (next_fd st' - next_fd st)).

(** Both connections or none. *)
Definition both_or_neither (c : per_side (option socket)) : Prop :=
  c = {| at_wf := None; at_sdr := None |}
  \/ exists w s, c = {| at_wf := Some w; at_sdr := Some s |}.


(** Successive calls of [Tracker.update] for one side, as the loop makes
    them tick after tick. *)
Fixpoint updates (k : side) (values : list Z) : M unit :=
  match values with
  | [] => ret tt
  | v :: values' => (update k v;; updates k values')%io
  end.

(** Each value is less than [threshold] away from the one before it,
    [previous] being the one before the first. *)
Fixpoint drifting (threshold previous : Z) (values : list Z) : Prop :=
  match values with
  | [] => True
  | v :: values' =>
      Z.abs (v - previous) < threshold /\ drifting threshold v values'
  end.

(** The sockets written to or read from in a trace, in order. *)
Fixpoint used (evs : list event) : list socket :=
  match evs with
  | [] => []
  | EvSend s _ :: evs' => s :: used evs'
  | EvRecv s _ :: evs' => s :: used evs'
  | _ :: evs' => used evs'
  end.

(** No socket is written to or read from once it has been closed. *)
Fixpoint no_use_after_close (evs : list event) : Prop :=
  match evs with
  | [] => True
  | EvClose s :: evs' =>
      ~ In (fd s) (map fd (used evs')) /\ no_use_after_close evs'
  | _ :: evs' => no_use_after_close evs'
  end.

(** The sockets held are distinct and were numbered by [connect]. *)
Definition tidy (st : state) : Prop :=
  NoDup (open_fds st) /\ Forall (fun x => (x < next_fd st)%nat) (open_fds st).

(** A descriptor held in [st] or not handed out yet. *)
Definition in_reach (st : state) (x : nat) : Prop :=
  In x (open_fds st) \/ (next_fd st <= x)%nat.

(** The events of a step are on sockets that satisfy [P]. *)
Definition touching (P : socket -> Prop) (_ _ : state) (ev : list event) : Prop :=
  Forall P (used ev).

Section TextShapes.
Context {U : UnicodeData}.

(** A text that neither starts nor ends with white space. *)
Definition trimmed (s : str) : Prop :=
  lstrip s = s /\ lstrip (rev s) = rev s.

End TextShapes.

(** What loading adds to an environment: new names only, each once,
    none empty. *)
Definition extends (env env' : environ) : Prop :=
  exists added,
    env' = added ++ env
    /\ NoDup (map fst added)
    /\ Forall (fun kv => fst kv <> [] /\ environ_get env (fst kv) = None) added.

(** The three ways a value is written in the file: bare, or between two
    double quotes, or between two single quotes. *)
Inductive written (v : str) : str -> Prop :=
  | written_bare : written v v
  | written_double : written v (double_quote :: v ++ [double_quote])
  | written_single : written v (single_quote :: v ++ [single_quote]).

(** ** Further scenarios *)

(** An endpoint that refuses the next connection. *)
Definition refusing : endpoint :=
  {| connects := [Some OtherException]; sends := []; recvs := [] |}.

(** A machine whose only environment file is the system one, and one
    where the file named by the environment breaks off after its first
    line. *)
Definition system_env : str := of_string "/etc/sdrsync/sdrsync.env".
Definition repo_env : str := of_string "/opt/sdrsync/.env".
Definition local_env : str := of_string "/opt/sdrsync/src/.env".
Definition own_env : str := of_string "/home/op/sdrsync.env".

Definition system_only (path : str) : option (list (result str)) :=
  if list_eq_dec N.eq_dec path system_env
  then Some [Ok (of_string "# polling" ++ LF);
             Ok (of_string "POLL_MS=100" ++ LF);
             Ok (of_string "POLL_MS=500" ++ LF)]
  else None.

Definition broken_own (path : str) : option (list (result str)) :=
  if list_eq_dec N.eq_dec path own_env
  then Some [Ok (of_string "WF_PORT=4540" ++ LF); Raise ValueError]
  else if list_eq_dec N.eq_dec path system_env
  then Some [Ok (of_string "WF_PORT=4533" ++ LF);
             Ok (of_string "SDR_PORT=4532" ++ LF)]
  else None.

(** A platform that takes every name and value. *)
Definition setenv_always : str -> str -> option exn := fun _ _ => None.

(** * Properties *)

(** ** Strings *)

Lemma starts_with_app (p suf : str) : starts_with p (p ++ suf) = true.
Proof.
  induction p as [|a p IH]; simpl; [reflexivity|].
  now rewrite N.eqb_refl, IH.
Qed.

Lemma starts_with_inv (p s : str) :
  starts_with p s = true -> exists suf, s = p ++ suf.
Proof.
  revert s; induction p as [|a p IH]; intros s H.
  - now exists s.
  - destruct s as [|b s]; simpl in H; [discriminate|].
    apply andb_true_iff in H as [Hab Hps].
    apply N.eqb_eq in Hab; subst b.
    destruct (IH _ Hps) as [suf ->].
    now exists suf.
Qed.

(** [p in s] holds exactly when [p] occurs in [s]. *)
Lemma contains_spec (p s : str) :
  contains p s = true <-> exists pre suf, s = pre ++ p ++ suf.
Proof.
  split.
  - induction s as [|c s IH]; simpl; intros H.
    + rewrite orb_false_r in H.
      destruct (starts_with_inv _ _ H) as [suf E].
      now exists [], suf.
    + apply orb_true_iff in H as [H|H].
      * destruct (starts_with_inv _ _ H) as [suf E].
        now exists [], suf.
      * destruct (IH H) as (pre & suf & ->).
        now exists (c :: pre), suf.
  - intros (pre & suf & ->).
    induction pre as [|c pre IH].
    + simpl app. destruct (p ++ suf) eqn:E.
      * simpl. rewrite <- E at 1. now rewrite starts_with_app.
      * simpl. rewrite <- E at 1. now rewrite starts_with_app.
    + simpl. now rewrite IH, orb_true_r.
Qed.

Section TextFacts.
Context {U : UnicodeData}.

Lemma str_isdigit_spec (s : str) :
  str_isdigit s = true <-> s <> [] /\ Forall (fun c => isdigit c = true) s.
Proof.
  destruct s as [|c s].
  - simpl. split; [discriminate | intros [H _]; now elim H].
  - unfold str_isdigit. rewrite forallb_forall, Forall_forall.
    split; [intros H; split; [discriminate | exact H] | intros [_ H]; exact H].
Qed.

Lemma lstrip_no_space (s : str) :
  match lstrip s with
  | c :: _ => isspace c = false
  | [] => True
  end.
Proof.
  induction s as [|c s IH]; simpl; [exact I|].
  destruct (isspace c) eqn:E; [exact IH | exact E].
Qed.

Lemma lstrip_suffix (s : str) : exists pre, s = pre ++ lstrip s
  /\ Forall (fun c => isspace c = true) pre.
Proof.
  induction s as [|c s (pre & E & F)]; simpl.
  - now exists [].
  - destruct (isspace c) eqn:Hc.
    + exists (c :: pre). split; [simpl; now f_equal | now constructor].
    + now exists [].
Qed.

(** [strip] takes a run of white space off each end and nothing else. *)
Lemma strip_spec (s : str) :
  exists pre suf, s = pre ++ strip s ++ suf
    /\ Forall (fun c => isspace c = true) pre
    /\ Forall (fun c => isspace c = true) suf.
Proof.
  unfold strip, rstrip.
  destruct (lstrip_suffix s) as (pre & E & F).
  destruct (lstrip_suffix (rev (lstrip s))) as (suf & E' & F').
  exists pre, (rev suf). repeat split; trivial.
  - rewrite E at 1. f_equal.
    rewrite <- (rev_involutive (lstrip s)) at 1.
    rewrite E' at 1. now rewrite rev_app_distr.
  - apply Forall_forall. intros c Hc. apply in_rev in Hc.
    now apply (proj1 (Forall_forall _ _) F').
Qed.

(** Every token of [split] is a non-empty run without white space. *)
Lemma split_tokens (s : str) :
  Forall (fun t => t <> [] /\ Forall (fun c => isspace c = false) t) (split s).
Proof.
  induction s as [|c s IH]; simpl; [constructor|].
  destruct (isspace c) eqn:Hc; [exact IH|].
  destruct s as [|c' s'].
  - repeat constructor; [discriminate | exact Hc].
  - destruct (isspace c') eqn:Hc'.
    + constructor; [|exact IH]. split; [discriminate | now repeat constructor].
    + destruct (split (c' :: s')) as [|t ts]; simpl.
      * repeat constructor; [discriminate | exact Hc].
      * inversion IH as [|? ? [Ht Ft] Fts]; subst.
        constructor; [|exact Fts]. split; [discriminate | now constructor].
Qed.

(** The characters [keep_numeric] lets through. *)
Lemma keep_numeric_alphabet (token : str) :
  Forall (fun ch => isdigit ch = true \/ ch = dot \/ ch = dash) (keep_numeric token).
Proof.
  apply Forall_forall. intros ch Hin.
  apply filter_In in Hin as [_ H].
  apply orb_true_iff in H as [H|H]; [now left|right].
  apply orb_true_iff in H as [H|H]; apply N.eqb_eq in H; auto.
Qed.

End TextFacts.

(** ** Protocol codec *)

Section CodecFacts.
Context {U : UnicodeData}.

Lemma token_number_nil : token_number [] = None.
Proof. reflexivity. Qed.

(** One turn of the loop of [parse_freq_from_text]: a token with a number
    ends it with that number, a decimal too large for a float ends it
    with [OverflowError], which the [except] clauses do not name, and any
    other token is passed over. *)
Lemma parse_tokens_step (token : str) (rest : list str) :
  parse_tokens (token :: rest) =
  match token_number (keep_numeric token) with
  | Some z => Ok (Some z)
  | None =>
      if too_large (keep_numeric token) then Raise OverflowError
      else parse_tokens rest
  end.
Proof.
  cbn [parse_tokens]. unfold too_large, token_number, py_int, py_float.
  destruct (keep_numeric token) as [|c tok']; [reflexivity|].
  destruct (accepted_integer (c :: tok')) as [v|]; [reflexivity|].
  destruct (decimal_literal (c :: tok')) as [[[neg n] k]|]; [|reflexivity].
  simpl. destruct (binary64_of_ratio neg n (10 ^ Z.of_nat k)); reflexivity.
Qed.

(** A token with a number is not too large. *)
Lemma token_number_fits (tok : str) (z : Z) :
  token_number tok = Some z -> too_large tok = false.
Proof.
  unfold token_number, too_large.
  destruct (accepted_integer tok); [reflexivity|].
  destruct (decimal_literal tok) as [[[neg n] k]|]; [|reflexivity].
  now destruct (binary64_of_ratio neg n (10 ^ Z.of_nat k)).
Qed.

(** The loop returns a number exactly when the first token that is not
    passed over has that number. *)
Lemma parse_tokens_number (tokens : list str) (z : Z) :
  parse_tokens tokens = Ok (Some z) <->
  exists before tok after,
    map keep_numeric tokens = before ++ tok :: after
    /\ Forall (fun t => token_number t = None /\ too_large t = false) before
    /\ token_number tok = Some z.
Proof.
  induction tokens as [|token rest IH].
  - split; [discriminate|]. intros (before & tok & after & E & _).
    now destruct before.
  - rewrite parse_tokens_step. cbn [map].
    destruct (token_number (keep_numeric token)) as [v|] eqn:Ev.
    + split.
      * intros [= ->]. exists [], (keep_numeric token), (map keep_numeric rest).
        repeat split; trivial.
      * intros ([|t0 before] & tok & after & E & F & Hz); cbn [app] in E;
          injection E as E1 E2; subst.
        -- congruence.
        -- inversion F as [|? ? [Hn _] _]; subst. congruence.
    + destruct (too_large (keep_numeric token)) eqn:El.
      * split; [discriminate|].
        intros ([|t0 before] & tok & after & E & F & Hz); cbn [app] in E;
          injection E as E1 E2; subst.
        -- congruence.
        -- inversion F as [|? ? [_ Hl] _]; subst. congruence.
      * rewrite IH. split.
        -- intros (before & tok & after & E & F & Hz).
           exists (keep_numeric token :: before), tok, after.
           cbn [app]. rewrite E. repeat split; trivial. now constructor.
        -- intros ([|t0 before] & tok & after & E & F & Hz); cbn [app] in E;
             injection E as E1 E2; subst.
           ++ congruence.
           ++ exists before, tok, after. repeat split; trivial.
              now inversion F.
Qed.

(** The loop returns no value exactly when every token is passed over. *)
Lemma parse_tokens_none (tokens : list str) :
  parse_tokens tokens = Ok None <->
  Forall (fun t => token_number t = None /\ too_large t = false)
         (map keep_numeric tokens).
Proof.
  induction tokens as [|token rest IH].
  - split; [constructor | reflexivity].
  - rewrite parse_tokens_step. cbn [map].
    destruct (token_number (keep_numeric token)) as [v|] eqn:Ev.
    + split; [discriminate|]. intros F.
      inversion F as [|? ? [Hn _] _]; subst. congruence.
    + destruct (too_large (keep_numeric token)) eqn:El.
      * split; [discriminate|]. intros F.
        inversion F as [|? ? [_ Hl] _]; subst. congruence.
      * rewrite IH. split; [now constructor | intros F; now inversion F].
Qed.

(** A token too large for a float before any number makes the function
    raise [OverflowError]: the [except] clauses name [ValueError] only. *)
Lemma parse_tokens_overflow (token : str) (rest : list str) :
  too_large (keep_numeric token) = true ->
  parse_tokens (token :: rest) = Raise OverflowError.
Proof.
  intros Hl. rewrite parse_tokens_step, Hl.
  destruct (token_number (keep_numeric token)) as [z|] eqn:E; [|reflexivity].
  apply token_number_fits in E. congruence.
Qed.

Lemma first_some_none {A B : Type} (f : A -> option B) (l : list A) :
  first_some f l = None <-> Forall (fun x => f x = None) l.
Proof.
  induction l as [|x l IH]; simpl.
  - split; [constructor | reflexivity].
  - destruct (f x) eqn:E.
    + split; [discriminate|]. intros H; inversion H; congruence.
    + rewrite IH. split; [now constructor | intros H; now inversion H].
Qed.

Lemma first_some_some {A B : Type} (f : A -> option B) (l : list A) (b : B) :
  first_some f l = Some b <->
  exists before x after, l = before ++ x :: after
    /\ Forall (fun y => f y = None) before /\ f x = Some b.
Proof.
  induction l as [|x l IH]; simpl.
  - split; [discriminate|].
    intros (before & y & after & E & _). now destruct before.
  - destruct (f x) eqn:E.
    + split.
      * intros [= ->]. now exists [], x, l.
      * intros ([|y before] & z & after & El & F & Hz); simpl in El.
        -- injection El as -> ->. congruence.
        -- injection El as -> ->. inversion F; congruence.
    + rewrite IH. split.
      * intros (before & z & after & -> & F & Hz).
        exists (x :: before), z, after. repeat split; trivial. now constructor.
      * intros ([|y before] & z & after & El & F & Hz); simpl in El.
        -- injection El as -> ->. congruence.
        -- injection El as -> ->. exists before, z, after.
           repeat split; trivial. now inversion F.
Qed.

End CodecFacts.

Section ParseFacts.
Context {U : UnicodeData}.

Lemma split_cons (c : char) (s : str) :
  split (c :: s) =
  if isspace c then split s
  else match s with
       | [] => [[c]]
       | c' :: _ => if isspace c' then [c] :: split s
                    else push_char c (split s)
       end.
Proof. destruct s; reflexivity. Qed.

Lemma concat_push_char (c : char) (ts : list str) :
  List.concat (push_char c ts) = c :: List.concat ts.
Proof. destruct ts; reflexivity. Qed.

(** The tokens, put end to end, are the text without its white space. *)
Lemma split_concat (s : str) :
  List.concat (split s) = filter (fun c => negb (isspace c)) s.
Proof.
  induction s as [|c s IH]; [reflexivity|].
  rewrite split_cons. cbn [filter].
  destruct (isspace c) eqn:Hc; cbn [negb]; [exact IH|].
  destruct s as [|c' s']; [reflexivity|].
  destruct (isspace c') eqn:Hc'.
  - cbn [List.concat app]. now rewrite IH.
  - now rewrite concat_push_char, IH.
Qed.

Lemma replace_colon_no_colon (s : str) :
  Forall (fun c => c <> colon) (replace_colon s).
Proof.
  apply Forall_forall. intros c Hin.
  apply in_map_iff in Hin as (c0 & E & _).
  destruct (N.eqb_spec c0 colon); subst; [discriminate | assumption].
Qed.

(** The tokens [parse_freq_from_text] looks at hold neither white space nor
    a colon. *)
Lemma token_separators (text : str) :
  Forall (fun t => t <> []
                   /\ Forall (fun c => isspace c = false /\ c <> colon) t)
         (split (replace_colon (strip text))).
Proof.
  set (s := replace_colon (strip text)).
  pose proof (split_tokens s) as Htok.
  pose proof (split_concat s) as Hcat.
  pose proof (replace_colon_no_colon (strip text)) as Hcol. fold s in Hcol.
  rewrite Forall_forall in *. intros t Ht.
  destruct (Htok t Ht) as [Hne Hsp]. split; [exact Hne|].
  rewrite Forall_forall in *. intros c Hc. split; [now apply Hsp|].
  apply Hcol.
  assert (Hin : In c (List.concat (split s))) by (apply in_concat; eauto).
  rewrite Hcat in Hin. now apply filter_In in Hin.
Qed.

End ParseFacts.

(** ** Sockets *)

Lemma sendall_run (s : socket) (data : list byte) (st : state) :
  sendall s data st =
  match sends (lookup (remote st) (peer s)) with
  | [] => (Ok tt, st, [EvSend s data])
  | o :: rest =>
      (outcome_result o,
       with_remote st (store (remote st) (peer s)
         {| connects := connects (lookup (remote st) (peer s));
            sends := rest;
            recvs := recvs (lookup (remote st) (peer s)) |}),
       [EvSend s data])
  end.
Proof.
  unfold sendall, bind, log_event, get_state, put_state, of_outcome, raise, ret.
  destruct (sends (lookup (remote st) (peer s))) as [|[e|] rest]; reflexivity.
Qed.

Lemma recv_run (s : socket) (max_bytes : nat) (st : state) :
  recv s max_bytes st =
  let ep := lookup (remote st) (peer s) in
  match recvs ep with
  | [] => (Raise socket_timeout, st, [EvRecv s max_bytes])
  | Ok data :: rest =>
      (Ok (firstn max_bytes data),
       with_remote st (store (remote st) (peer s)
         {| connects := connects ep; sends := sends ep;
            recvs := match skipn max_bytes data with
                     | [] => rest
                     | more => Ok more :: rest
                     end |}),
       [EvRecv s max_bytes])
  | Raise e :: rest =>
      (Raise e,
       with_remote st (store (remote st) (peer s)
         {| connects := connects ep; sends := sends ep; recvs := rest |}),
       [EvRecv s max_bytes])
  end.
Proof.
  unfold recv, bind, log_event, get_state, put_state, raise, ret.
  destruct (recvs (lookup (remote st) (peer s))) as [|[data|e] rest]; reflexivity.
Qed.

Lemma close_run (s : socket) (st : state) :
  close s st =
  match closes st with
  | [] => (Ok tt, st, [EvClose s])
  | o :: rest => (outcome_result o, with_closes st rest, [EvClose s])
  end.
Proof.
  unfold close, bind, log_event, get_state, put_state, of_outcome, raise, ret.
  destruct (closes st) as [|[e|] rest]; reflexivity.
Qed.

Lemma untouched_refl (st : state) : untouched st st.
Proof. repeat split. Qed.

Lemma untouched_trans (st1 st2 st3 : state) :
  untouched st1 st2 -> untouched st2 st3 -> untouched st1 st3.
Proof.
  unfold untouched. intros (A1 & B1 & C1 & D1) (A2 & B2 & C2 & D2).
  repeat split; congruence.
Qed.

Lemma sendall_spec (s : socket) (data : list byte) (st : state) :
  events_of (sendall s data st) = [EvSend s data]
  /\ untouched st (state_of (sendall s data st)).
Proof.
  rewrite sendall_run.
  destruct (sends (lookup (remote st) (peer s))); split;
    try reflexivity; repeat split.
Qed.

Lemma recv_spec (s : socket) (max_bytes : nat) (st : state) :
  events_of (recv s max_bytes st) = [EvRecv s max_bytes]
  /\ untouched st (state_of (recv s max_bytes st))
  /\ forall data, result_of (recv s max_bytes st) = Ok data ->
       (List.length data <= max_bytes)%nat.
Proof.
  rewrite recv_run. cbv zeta.
  destruct (recvs (lookup (remote st) (peer s))) as [|[data|e] rest];
    (split; [reflexivity|]); (split; [repeat split|]);
    unfold result_of; simpl; intros d [= <-] || intros d [=].
  apply firstn_le_length.
Qed.

(** The decoder of [recv_text] never fails. *)
Lemma utf8_decode_ignore_total (data : list byte) :
  exists text, utf8_decode errors_ignore data = Ok text.
Proof.
  remember (List.length data) as n eqn:Hn.
  revert data Hn. induction n as [n IH] using lt_wf_ind. intros data Hn.
  assert (R : forall r, (List.length r < n)%nat ->
                        exists t, utf8_decode errors_ignore r = Ok t)
    by (intros r Hr; now apply (IH _ Hr)).
  assert (E : forall c r, (List.length r < n)%nat ->
                          exists t, emit c (utf8_decode errors_ignore r) = Ok t).
  { intros c r Hr. destruct (R r Hr) as [t ->]. now exists (c :: t). }
  destruct data as [|b0 r0]; [now exists []|].
  simpl in Hn. cbn [utf8_decode on_error].
  repeat match goal with
         | |- context [if ?b then _ else _] => destruct b
         | |- context [match ?l with [] => _ | _ :: _ => _ end] =>
             is_var l; destruct l; simpl in Hn
         | |- exists t, Ok ?x = Ok t => now exists x
         | |- exists t, emit _ _ = Ok t => apply E; subst n; simpl; lia
         | |- exists t, utf8_decode _ _ = Ok t => apply R; subst n; simpl; lia
         end.
Qed.

Lemma subsequence_nil {A : Type} (data : list A) : subsequence [] data.
Proof. induction data; now constructor. Qed.

Lemma subsequence_length {A : Type} (kept data : list A) :
  subsequence kept data -> (List.length kept <= List.length data)%nat.
Proof. induction 1; simpl; lia. Qed.

(** Decoding with [errors="ignore"] is strict decoding of the data with
    some of its bytes taken out: nothing is put in their place. *)
Lemma utf8_decode_ignore_drops (data : list byte) :
  exists kept text,
    subsequence kept data
    /\ utf8_decode errors_ignore data = Ok text
    /\ utf8_decode errors_strict kept = Ok text.
Proof.
  remember (List.length data) as n eqn:Hn.
  revert data Hn. induction n as [n IH] using lt_wf_ind. intros data Hn.
  assert (R : forall r, (List.length r < n)%nat ->
            exists kept text, subsequence kept r
              /\ utf8_decode errors_ignore r = Ok text
              /\ utf8_decode errors_strict kept = Ok text)
    by (intros r Hr; now apply (IH _ Hr)).
  clear IH.
  destruct data as [|b0 r0].
  { exists [], []. repeat split. constructor. }
  simpl in Hn. cbn [utf8_decode on_error].
  repeat match goal with
         | |- context [if ?b then _ else _] => destruct b eqn:?
         | |- context [match ?l with [] => _ | _ :: _ => _ end] =>
             is_var l; destruct l; simpl in Hn
         end;
  lazymatch goal with
  | |- exists kept text, _ /\ Ok [] = Ok text /\ _ =>
      exists [], []; split; [apply subsequence_nil | split; reflexivity]
  | |- exists kept text, _ /\ emit ?c (utf8_decode errors_ignore ?r) = Ok text /\ _ =>
      let k := fresh "k" in let t := fresh "t" in
      let S := fresh "S" in let E1 := fresh "E" in let E2 := fresh "E" in
      destruct (R r ltac:(subst n; simpl; lia)) as (k & t & S & E1 & E2);
      eexists; exists (c :: t);
      split; [repeat apply sub_keep; exact S|];
      split; [now rewrite E1|];
      cbn [utf8_decode];
      repeat match goal with
             | H : ?b = _ |- context [if ?b then _ else _] => rewrite H
             end;
      now rewrite E2
  | |- exists kept text, _ /\ utf8_decode errors_ignore ?r = Ok text /\ _ =>
      let k := fresh "k" in let t := fresh "t" in
      let S := fresh "S" in let E1 := fresh "E" in let E2 := fresh "E" in
      destruct (R r ltac:(subst n; simpl; lia)) as (k & t & S & E1 & E2);
      exists k, t;
      split; [repeat (first [exact S | apply sub_drop])|];
      split; assumption
  end.
Qed.

Lemma recv_text_run (s : socket) (max_bytes : nat) (st : state) :
  recv_text s max_bytes st =
  match recv s max_bytes st with
  | (Ok data, st1, ev) => (utf8_decode errors_ignore data, st1, ev)
  | (Raise e, st1, ev) => (Raise e, st1, ev)
  end.
Proof.
  unfold recv_text, bind, lift, ret. rewrite recv_run. cbv zeta.
  destruct (recvs (lookup (remote st) (peer s))) as [|[data|e] rest];
    try reflexivity.
  destruct (utf8_decode_ignore_total (firstn max_bytes data)) as [t ->].
  reflexivity.
Qed.

(** ** Lines on the wire *)

Lemma string_of_uint_digits (d : Decimal.uint) :
  Forall (fun c => (48 <= c <= 57)%N) (of_string (NilEmpty.string_of_uint d)).
Proof.
  induction d as [|d IH|d IH|d IH|d IH|d IH|d IH|d IH|d IH|d IH|d IH];
    [constructor|..];
    (change (NilEmpty.string_of_uint _) with (String "0" (NilEmpty.string_of_uint d))
     || idtac);
    cbn [NilEmpty.string_of_uint of_string list_ascii_of_string map];
    (constructor; [split; discriminate | exact IH]).
Qed.

(** [str(n)] is made of digits, after a minus sign when [n] is negative. *)
Lemma str_of_Z_chars (n : Z) :
  Forall (fun c => c = dash \/ (48 <= c <= 57)%N) (str_of_Z n).
Proof.
  assert (D : forall d, Forall (fun c => c = dash \/ (48 <= c <= 57)%N)
                          (of_string (NilZero.string_of_uint d))).
  { intros d. unfold NilZero.string_of_uint.
    assert (H := string_of_uint_digits d).
    destruct d; try (eapply Forall_impl; [|exact H]; simpl; tauto).
    constructor; [right; split; discriminate | constructor]. }
  unfold str_of_Z, NilZero.string_of_int.
  destruct (Z.to_int n) as [d|d]; [apply D|].
  change (of_string (String "-" (NilZero.string_of_uint d)))
    with (dash :: of_string (NilZero.string_of_uint d)).
  constructor; [now left | apply D].
Qed.

Lemma no_newline_terminated (line : str) :
  Forall (fun c => c <> 10%N) line ->
  starts_with (rev LF) (rev line) = false.
Proof.
  intros F.
  assert (F' : Forall (fun c => c <> 10%N) (rev line)).
  { apply Forall_forall. intros c Hc. apply in_rev in Hc.
    now apply (proj1 (Forall_forall _ _) F). }
  destruct (rev line) as [|c l]; [reflexivity|].
  inversion F' as [|? ? Hc _]; subst.
  cbn [rev LF app starts_with].
  destruct (N.eqb_spec 10 c); [congruence | reflexivity].
Qed.

Lemma send_line_get (s : socket) :
  send_line s (of_string "f") = sendall s get_line.
Proof. reflexivity. Qed.

Lemma send_line_set (s : socket) (freq : Z) :
  send_line s (of_string "F " ++ str_of_Z freq) = sendall s (set_line freq).
Proof.
  unfold send_line, set_line.
  rewrite no_newline_terminated.
  - now rewrite <- app_assoc.
  - apply Forall_app. split; [repeat constructor; discriminate|].
    eapply Forall_impl; [|apply str_of_Z_chars].
    intros c [->|[H1 H2]]; [discriminate|]. intros ->. now apply H1.
Qed.

(** The set command is ["F "], the decimal digits of the frequency (after
    a minus sign when it is negative) and a newline. *)
Lemma set_line_format (freq : Z) :
  set_line freq =
  encode_ascii_ignore (of_string "F ") ++ encode_ascii_ignore (str_of_Z freq)
  ++ encode_ascii_ignore LF.
Proof.
  unfold set_line, encode_ascii_ignore. now rewrite !flat_map_app.
Qed.

(** ** RigCTL helpers *)

Lemma sent_app (ev1 ev2 : list event) : sent (ev1 ++ ev2) = sent ev1 ++ sent ev2.
Proof.
  induction ev1 as [|e ev1 IH]; [reflexivity|].
  destruct e; simpl; now rewrite IH.
Qed.

Section HelperFacts.
Context {U : UnicodeData}.

Lemma rigctl_get_freq_run (s : socket) (st : state) :
  rigctl_get_freq s st =
  match sendall s get_line st with
  | (Raise e, st1, ev1) => (Raise e, st1, ev1)
  | (Ok _, st1, ev1) =>
      match recv s 1024 st1 with
      | (Raise e, st2, ev2) => (Raise e, st2, ev1 ++ ev2)
      | (Ok data, st2, ev2) =>
          (result_bind (utf8_decode errors_ignore data) parse_freq_from_text,
           st2, ev1 ++ ev2)
      end
  end.
Proof.
  unfold rigctl_get_freq. rewrite send_line_get. unfold bind at 1.
  destruct (sendall s get_line st) as [[[[]|e] st1] ev1]; [|reflexivity].
  unfold bind, lift, ret. rewrite recv_text_run.
  destruct (recv s 1024 st1) as [[[data|e] st2] ev2]; [|reflexivity].
  destruct (utf8_decode errors_ignore data) as [reply|e]; simpl.
  - destruct (parse_freq_from_text reply); now rewrite !app_nil_r.
  - reflexivity.
Qed.

Lemma rigctl_set_freq_run (s : socket) (freq : Z) (st : state) :
  rigctl_set_freq s freq st =
  match sendall s (set_line freq) st with
  | (Raise e, st1, ev1) => (Raise e, st1, ev1)
  | (Ok _, st1, ev1) =>
      match recv s 1024 st1 with
      | (Raise e, st2, ev2) => (Raise e, st2, ev1 ++ ev2)
      | (Ok data, st2, ev2) =>
          (result_bind (utf8_decode errors_ignore data)
             (fun reply => Ok (set_acknowledged reply)),
           st2, ev1 ++ ev2)
      end
  end.
Proof.
  unfold rigctl_set_freq. rewrite send_line_set. unfold bind at 1.
  destruct (sendall s (set_line freq) st) as [[[[]|e] st1] ev1]; [|reflexivity].
  unfold bind, lift, ret. rewrite recv_text_run.
  destruct (recv s 1024 st1) as [[[data|e] st2] ev2]; [|reflexivity].
  destruct (utf8_decode errors_ignore data) as [reply|e]; simpl.
  - now rewrite !app_nil_r.
  - reflexivity.
Qed.

(** A query sends the line [f] and nothing else, reads at most once, and
    leaves the tracker and the connections as they are. *)
Lemma rigctl_get_freq_spec (s : socket) (st : state) :
  let out := rigctl_get_freq s st in
  untouched st (state_of out)
  /\ sent (events_of out) = [(s, get_line)]
  /\ (forall freq, result_of out = Ok freq ->
        events_of out = [EvSend s get_line; EvRecv s 1024]).
Proof.
  cbv zeta. rewrite rigctl_get_freq_run.
  destruct (sendall_spec s get_line st) as [Ev1 U1].
  destruct (sendall s get_line st) as [[[[]|e] st1] ev1];
    unfold events_of, state_of, result_of in *; simpl in *; subst ev1.
  - destruct (recv_spec s 1024 st1) as (Ev2 & U2 & _).
    destruct (recv s 1024 st1) as [[[data|e] st2] ev2];
      unfold events_of, state_of, result_of in *; simpl in *; subst ev2;
      (split; [eapply untouched_trans; eassumption|]);
      (split; [reflexivity|]); intros f H; (reflexivity || discriminate).
  - split; [assumption|]. split; [reflexivity|]. discriminate.
Qed.

(** A set command sends the line [F <freq>] and nothing else, reads at
    most once, and leaves the tracker and the connections as they are. *)
Lemma rigctl_set_freq_spec (s : socket) (freq : Z) (st : state) :
  let out := rigctl_set_freq s freq st in
  untouched st (state_of out)
  /\ sent (events_of out) = [(s, set_line freq)]
  /\ (events_of out = [EvSend s (set_line freq)]
      \/ events_of out = [EvSend s (set_line freq); EvRecv s 1024]).
Proof.
  cbv zeta. rewrite rigctl_set_freq_run.
  destruct (sendall_spec s (set_line freq) st) as [Ev1 U1].
  destruct (sendall s (set_line freq) st) as [[[[]|e] st1] ev1];
    unfold events_of, state_of, result_of in *; simpl in *; subst ev1.
  - destruct (recv_spec s 1024 st1) as (Ev2 & U2 & _).
    destruct (recv s 1024 st1) as [[[data|e] st2] ev2];
      unfold events_of, state_of, result_of in *; simpl in *; subst ev2;
      (split; [eapply untouched_trans; eassumption|]);
      (split; [reflexivity|]); now right.
  - split; [assumption|]. split; [reflexivity|]. now left.
Qed.

End HelperFacts.

(** ** Change tracker *)

Lemma lookup_store_same {A : Type} (d : per_side A) (k : side) (v : A) :
  lookup (store d k v) k = v.
Proof. now destruct k. Qed.

Lemma lookup_store_other {A : Type} (d : per_side A) (k : side) (v : A) :
  lookup (store d k v) (other k) = lookup d (other k).
Proof. now destruct k. Qed.

Lemma changed_spec (t : Tracker) (k : side) (new_val : Z) :
  changed t k new_val = true <->
  lookup (last t) k = None
  \/ exists old, lookup (last t) k = Some old /\ th t <= Z.abs (new_val - old).
Proof.
  unfold changed. destruct (lookup (last t) k) as [old|].
  - rewrite Z.leb_le. split.
    + intros H. right. now exists old.
    + intros [H|(old' & [= <-] & H)]; [discriminate | exact H].
  - split; [now left | reflexivity].
Qed.

Lemma changed_first (t : Tracker) (k : side) (new_val : Z) :
  lookup (last t) k = None -> changed t k new_val = true.
Proof. unfold changed. now intros ->. Qed.

(** [Tracker.update] in closed form: it reads the clock only when the
    value counts as a change. *)
Lemma update_run (k : side) (new_val : Z) (st : state) :
  update k new_val st =
  (Ok tt,
   (if changed (tr st) k new_val
    then with_tr (with_clock_reads st (S (clock_reads st)))
           {| th := th (tr st);
              last := store (last (tr st)) k (Some new_val);
              last_change_time :=
                store (last_change_time (tr st)) k (clock st (clock_reads st)) |}
    else with_tr st
           {| th := th (tr st);
              last := store (last (tr st)) k (Some new_val);
              last_change_time := last_change_time (tr st) |}),
   []).
Proof.
  unfold update, bind, get_state, put_state, time_time, ret.
  destruct (changed (tr st) k new_val); reflexivity.
Qed.

(** Feeding the tracker neither fails nor touches a socket. *)
Lemma track_spec (wf_freq sdr_freq : option Z) (st : state) :
  let out := track wf_freq sdr_freq st in
  result_of out = Ok tt /\ events_of out = []
  /\ conn (state_of out) = conn st /\ remote (state_of out) = remote st
  /\ clock (state_of out) = clock st /\ th (tr (state_of out)) = th (tr st).
Proof.
  unfold track, bind, ret.
  destruct wf_freq as [a|], sdr_freq as [b|]; rewrite ?update_run; cbv zeta;
    repeat match goal with
           | |- context [changed ?t ?k ?v] => destruct (changed t k v)
           end; repeat split.
Qed.

Lemma track_run (wf_freq sdr_freq : option Z) (st : state) :
  track wf_freq sdr_freq st = (Ok tt, state_of (track wf_freq sdr_freq st), []).
Proof.
  destruct (track_spec wf_freq sdr_freq st) as (R & E & _).
  destruct (track wf_freq sdr_freq st) as [[r st'] ev].
  unfold result_of, events_of, state_of in *; simpl in *. now subst.
Qed.

(** C5: a call [update(side, new_val)] always stores [new_val] as the
    side's last value; it sets the side's last-change instant to the
    current reading of the clock when the side had no value or the new
    value is at least the threshold away from the old one (a distance equal
    to the threshold counts), and leaves the instant as it was otherwise;
    the other side and the threshold are not touched. *)
Theorem update_records_change (k : side) (new_val : Z) (st : state) :
  let out := update k new_val st in
  let t := tr st in
  let t' := tr (state_of out) in
  result_of out = Ok tt
  /\ (changed t k new_val = true <->
        lookup (last t) k = None
        \/ exists old, lookup (last t) k = Some old
                       /\ Z.abs (new_val - old) >= th t)
  /\ (changed t k new_val = true ->
        lookup (last_change_time t') k = clock st (clock_reads st))
  /\ (changed t k new_val = false ->
        lookup (last_change_time t') k = lookup (last_change_time t) k)
  /\ lookup (last t') k = Some new_val
  /\ lookup (last t') (other k) = lookup (last t) (other k)
  /\ lookup (last_change_time t') (other k)
     = lookup (last_change_time t) (other k)
  /\ th t' = th t.
Proof.
  cbv zeta. rewrite update_run. unfold result_of, state_of. cbn [fst snd].
  split; [reflexivity|]. split.
  { rewrite changed_spec. split.
    - intros [H|(old & H1 & H2)]; [now left | right; exists old; split; [exact H1 | lia]].
    - intros [H|(old & H1 & H2)]; [now left | right; exists old; split; [exact H1 | lia]]. }
  destruct (changed (tr st) k new_val); cbn [tr with_tr with_clock_reads
    last last_change_time th];
    rewrite ?lookup_store_same, ?lookup_store_other;
    repeat split; trivial; discriminate.
Qed.

(** ** The durations stay what they are *)

(** A property of steps that composes goes through [bind]. *)
Lemma bind_step (R : state -> state -> list event -> Prop)
    {A B : Type} (m : M A) (f : A -> M B) (st : state) :
  (forall s0 s1 s2 e1 e2, R s0 s1 e1 -> R s1 s2 e2 -> R s0 s2 (e1 ++ e2)) ->
  R st (state_of (m st)) (events_of (m st)) ->
  (forall a st1, R st1 (state_of (f a st1)) (events_of (f a st1))) ->
  R st (state_of (bind m f st)) (events_of (bind m f st)).
Proof.
  intros Htrans Hm Hf. unfold bind, state_of, events_of in *.
  destruct (m st) as [[[a|e] st1] ev1]; simpl in *; [|exact Hm].
  specialize (Hf a st1). destruct (f a st1) as [[r2 st2] ev2]. simpl in *.
  eapply Htrans; eassumption.
Qed.

Lemma bind_get_state {B : Type} (f : state -> M B) (st : state) :
  bind get_state f st = f st st.
Proof. unfold bind, get_state. now destruct (f st st) as [[r st1] ev1]. Qed.

Lemma sleep_run (d : duration) (st : state) :
  sleep d st
  = (outcome_result (time_sleep_error (seconds st d)), st, [EvSleep d]).
Proof.
  unfold sleep, bind, log_event, get_state, of_outcome, raise, ret.
  now destruct (time_sleep_error (seconds st d)).
Qed.

Ltac seconds_step :=
  apply (bind_step (fun s s' _ => seconds s' = seconds s));
  [intros; congruence | | intros].

Lemma sendall_seconds (s : socket) (data : list byte) (st : state) :
  seconds (state_of (sendall s data st)) = seconds st.
Proof.
  rewrite sendall_run. now destruct (sends (lookup (remote st) (peer s))).
Qed.

Lemma recv_seconds (s : socket) (n : nat) (st : state) :
  seconds (state_of (recv s n st)) = seconds st.
Proof.
  rewrite recv_run. cbv zeta.
  now destruct (recvs (lookup (remote st) (peer s))) as [|[data|e] rest].
Qed.

Lemma update_seconds (k : side) (v : Z) (st : state) :
  seconds (state_of (update k v st)) = seconds st.
Proof. rewrite update_run. now destruct (changed (tr st) k v). Qed.

Lemma track_seconds (wf_freq sdr_freq : option Z) (st : state) :
  seconds (state_of (track wf_freq sdr_freq st)) = seconds st.
Proof.
  unfold track. seconds_step.
  - destruct wf_freq; [apply update_seconds | reflexivity].
  - destruct sdr_freq; [apply update_seconds | reflexivity].
Qed.

Section DurationFacts.
Context {U : UnicodeData}.

Lemma rigctl_get_freq_seconds (s : socket) (st : state) :
  seconds (state_of (rigctl_get_freq s st)) = seconds st.
Proof.
  rewrite rigctl_get_freq_run.
  pose proof (sendall_seconds s get_line st) as H1.
  destruct (sendall s get_line st) as [[[[]|e] st1] ev1];
    unfold state_of in *; cbn [fst snd] in *; [|exact H1].
  pose proof (recv_seconds s 1024 st1) as H2.
  destruct (recv s 1024 st1) as [[[data|e] st2] ev2];
    unfold state_of in *; cbn [fst snd] in *; congruence.
Qed.

Lemma rigctl_set_freq_seconds (s : socket) (freq : Z) (st : state) :
  seconds (state_of (rigctl_set_freq s freq st)) = seconds st.
Proof.
  rewrite rigctl_set_freq_run.
  pose proof (sendall_seconds s (set_line freq) st) as H1.
  destruct (sendall s (set_line freq) st) as [[[[]|e] st1] ev1];
    unfold state_of in *; cbn [fst snd] in *; [|exact H1].
  pose proof (recv_seconds s 1024 st1) as H2.
  destruct (recv s 1024 st1) as [[[data|e] st2] ev2];
    unfold state_of in *; cbn [fst snd] in *; congruence.
Qed.

End DurationFacts.

(** ** One tick of the loop *)

Lemma get_line_not_set_line (freq : Z) : get_line <> set_line freq.
Proof. rewrite set_line_format. discriminate. Qed.

Section EngineFacts.
Context {U : UnicodeData}.
Variable CHANGE_THRESHOLD_HZ : Z.

(** Without two readings at least the threshold apart the correction
    block does nothing. *)
Lemma correct_idle (ws ss : socket) (wf_freq sdr_freq : option Z) (st : state) :
  (forall a b, wf_freq = Some a -> sdr_freq = Some b ->
               Z.abs (a - b) < CHANGE_THRESHOLD_HZ) ->
  correct CHANGE_THRESHOLD_HZ ws ss wf_freq sdr_freq st = (Ok tt, st, []).
Proof.
  intros H. unfold correct.
  destruct wf_freq as [a|], sdr_freq as [b|]; try reflexivity.
  specialize (H a b eq_refl eq_refl).
  destruct (Z.leb_spec CHANGE_THRESHOLD_HZ (Z.abs (a - b))); [lia | reflexivity].
Qed.

(** With two readings at least the threshold apart it sets one side to
    the value of the other: wfview's value goes to rigctl unless rigctl is
    the side that changed last. *)
Lemma correct_diverged (ws ss : socket) (a b : Z) (st : state) :
  CHANGE_THRESHOLD_HZ <= Z.abs (a - b) ->
  correct CHANGE_THRESHOLD_HZ ws ss (Some a) (Some b) st =
  match last_changed_side (tr st) with
  | Some sdr => (rigctl_set_freq ws b;; ret tt)%io st
  | _ => (rigctl_set_freq ss a;; ret tt)%io st
  end.
Proof.
  intros H. unfold correct.
  destruct (Z.leb_spec CHANGE_THRESHOLD_HZ (Z.abs (a - b))); [|lia].
  unfold bind at 1, get_state. cbn beta iota.
  destruct (last_changed_side (tr st)) as [[|]|];
    match goal with
    | |- context [bind ?m ?f st] => destruct (bind m f st) as [[? ?] ?]
    end; reflexivity.
Qed.

Lemma set_then_ret_spec (s : socket) (freq : Z) (st : state) :
  let out := (rigctl_set_freq s freq;; ret tt)%io st in
  untouched st (state_of out)
  /\ sent (events_of out) = [(s, set_line freq)].
Proof.
  cbv zeta. destruct (rigctl_set_freq_spec s freq st) as (Hu & Hs & _).
  unfold bind, ret.
  destruct (rigctl_set_freq s freq st) as [[[ok|e] st1] ev1];
    unfold events_of, state_of in *; simpl in *; rewrite ?app_nil_r; now split.
Qed.

Lemma correct_seconds (ws ss : socket) (wf_freq sdr_freq : option Z)
    (st : state) :
  seconds (state_of (correct CHANGE_THRESHOLD_HZ ws ss wf_freq sdr_freq st))
  = seconds st.
Proof.
  unfold correct.
  destruct wf_freq as [a|], sdr_freq as [b|]; try reflexivity.
  destruct (CHANGE_THRESHOLD_HZ <=? Z.abs (a - b)); [|reflexivity].
  rewrite bind_get_state.
  destruct (last_changed_side (tr st)) as [[|]|];
    (seconds_step; [apply rigctl_set_freq_seconds | reflexivity]).
Qed.

(** The tick, once both queries have been answered: it ends as the sleep
    of one poll interval ends. *)
Lemma poll_run (ws ss : socket) (st st1 st2 : state) (ev1 ev2 : list event)
    (wf_freq sdr_freq : option Z) :
  rigctl_get_freq ws st = (Ok wf_freq, st1, ev1) ->
  rigctl_get_freq ss st1 = (Ok sdr_freq, st2, ev2) ->
  poll CHANGE_THRESHOLD_HZ ws ss st =
  match correct CHANGE_THRESHOLD_HZ ws ss wf_freq sdr_freq (state_of (track wf_freq sdr_freq st2)) with
  | (Ok _, st4, ev4) =>
      (outcome_result (time_sleep_error (seconds st poll_sec)), st4,
       ev1 ++ ev2 ++ ev4 ++ [EvSleep poll_sec])
  | (Raise e, st4, ev4) => (Raise e, st4, ev1 ++ ev2 ++ ev4)
  end.
Proof.
  intros H1 H2. unfold poll.
  unfold bind at 1. rewrite H1.
  unfold bind at 1. rewrite H2.
  unfold bind at 1. rewrite track_run.
  unfold bind at 1.
  pose proof (rigctl_get_freq_seconds ws st) as S1. rewrite H1 in S1.
  pose proof (rigctl_get_freq_seconds ss st1) as S2. rewrite H2 in S2.
  pose proof (track_seconds wf_freq sdr_freq st2) as S3.
  pose proof (correct_seconds ws ss wf_freq sdr_freq
                (state_of (track wf_freq sdr_freq st2))) as S4.
  unfold state_of in S1, S2. cbn [fst snd] in S1, S2.
  destruct (correct CHANGE_THRESHOLD_HZ ws ss wf_freq sdr_freq _)
    as [[[[]|e] st4] ev4]; cbn [app]; [|reflexivity].
  change (seconds st4 = seconds (state_of (track wf_freq sdr_freq st2))) in S4.
  now rewrite sleep_run, S4, S3, S2, S1.
Qed.

(** The events of two answered queries. *)
Lemma queries_events (ws ss : socket) (st st1 st2 : state)
    (ev1 ev2 : list event) (wf_freq sdr_freq : option Z) :
  rigctl_get_freq ws st = (Ok wf_freq, st1, ev1) ->
  rigctl_get_freq ss st1 = (Ok sdr_freq, st2, ev2) ->
  ev1 = [EvSend ws get_line; EvRecv ws 1024]
  /\ ev2 = [EvSend ss get_line; EvRecv ss 1024]
  /\ untouched st st2.
Proof.
  intros H1 H2.
  destruct (rigctl_get_freq_spec ws st) as (U1 & _ & E1).
  destruct (rigctl_get_freq_spec ss st1) as (U2 & _ & E2).
  rewrite H1 in U1, E1. rewrite H2 in U2, E2.
  unfold events_of, state_of, result_of in *; simpl in *.
  split; [now apply (E1 wf_freq)|]. split; [now apply (E2 sdr_freq)|].
  eapply untouched_trans; eassumption.
Qed.

End EngineFacts.

Section TickFacts.
Context {U : UnicodeData}.
Variable CHANGE_THRESHOLD_HZ : Z.

(** A tick whose readings are missing or less than the threshold apart:
    two queries, then the sleep, which decides how the tick ends. *)
Lemma poll_idle (ws ss : socket) (st st1 st2 : state) (ev1 ev2 : list event)
    (wf_freq sdr_freq : option Z) :
  rigctl_get_freq ws st = (Ok wf_freq, st1, ev1) ->
  rigctl_get_freq ss st1 = (Ok sdr_freq, st2, ev2) ->
  (forall a b, wf_freq = Some a -> sdr_freq = Some b ->
               Z.abs (a - b) < CHANGE_THRESHOLD_HZ) ->
  poll CHANGE_THRESHOLD_HZ ws ss st =
  (outcome_result (time_sleep_error (seconds st poll_sec)),
   state_of (track wf_freq sdr_freq st2),
   [EvSend ws get_line; EvRecv ws 1024; EvSend ss get_line; EvRecv ss 1024;
    EvSleep poll_sec]).
Proof.
  intros H1 H2 Hth.
  destruct (queries_events _ _ _ _ _ _ _ _ _ H1 H2) as (-> & -> & _).
  rewrite (poll_run _ _ _ _ _ _ _ _ _ _ H1 H2).
  now rewrite correct_idle.
Qed.

(** A tick whose readings are at least the threshold apart: two queries
    and one set command, which takes wfview's value to rigctl unless
    rigctl is the side that changed last. *)
Lemma poll_diverged (ws ss : socket) (st st1 st2 : state) (ev1 ev2 : list event)
    (a b : Z) :
  rigctl_get_freq ws st = (Ok (Some a), st1, ev1) ->
  rigctl_get_freq ss st1 = (Ok (Some b), st2, ev2) ->
  CHANGE_THRESHOLD_HZ <= Z.abs (a - b) ->
  let st3 := state_of (track (Some a) (Some b) st2) in
  let out := poll CHANGE_THRESHOLD_HZ ws ss st in
  sent (events_of out) =
    [(ws, get_line); (ss, get_line);
     match last_changed_side (tr st3) with
     | Some sdr => (ws, set_line b)
     | _ => (ss, set_line a)
     end]
  /\ untouched st3 (state_of out).
Proof.
  intros H1 H2 Hth st3 out. subst out.
  destruct (queries_events _ _ _ _ _ _ _ _ _ H1 H2) as (-> & -> & _).
  rewrite (poll_run _ _ _ _ _ _ _ _ _ _ H1 H2).
  fold st3. rewrite (correct_diverged _ _ _ _ _ _ Hth).
  assert (G : forall s freq,
    let m := (rigctl_set_freq s freq;; ret tt)%io st3 in
    sent (events_of
      match m with
      | (Ok _, st4, ev4) =>
          (outcome_result (time_sleep_error (seconds st poll_sec)), st4,
           [EvSend ws get_line; EvRecv ws 1024] ++
           [EvSend ss get_line; EvRecv ss 1024] ++ ev4 ++ [EvSleep poll_sec])
      | (Raise e, st4, ev4) =>
          (Raise e, st4,
           [EvSend ws get_line; EvRecv ws 1024] ++
           [EvSend ss get_line; EvRecv ss 1024] ++ ev4)
      end) = [(ws, get_line); (ss, get_line); (s, set_line freq)]
    /\ untouched st3 (state_of
      match m with
      | (Ok _, st4, ev4) =>
          (outcome_result (time_sleep_error (seconds st poll_sec)), st4,
           [EvSend ws get_line; EvRecv ws 1024] ++
           [EvSend ss get_line; EvRecv ss 1024] ++ ev4 ++ [EvSleep poll_sec])
      | (Raise e, st4, ev4) =>
          (Raise e, st4,
           [EvSend ws get_line; EvRecv ws 1024] ++
           [EvSend ss get_line; EvRecv ss 1024] ++ ev4)
      end)).
  { intros s freq. cbv zeta.
    destruct (set_then_ret_spec s freq st3) as [Hu Hs].
    destruct ((rigctl_set_freq s freq;; ret tt)%io st3) as [[[[]|e] st4] ev4];
      unfold events_of, state_of in *; cbn [fst snd] in *;
      (split; [|exact Hu]); cbn [app sent]; rewrite ?sent_app, Hs; reflexivity. }
  destruct (last_changed_side (tr st3)) as [[|]|]; apply G.
Qed.

(** A side's first sample makes the tracker record a change, at a reading
    of the clock made while the readings are fed to it. *)
Lemma track_first_sample (k : side) (v : Z) (wf_freq sdr_freq : option Z)
    (st : state) :
  lookup (last (tr st)) k = None ->
  pick k wf_freq sdr_freq = Some v ->
  let st' := state_of (track wf_freq sdr_freq st) in
  lookup (last (tr st')) k = Some v
  /\ exists n, (n <= 1)%nat
       /\ lookup (last_change_time (tr st')) k = clock st (clock_reads st + n)
       /\ (clock_reads st + n < clock_reads st')%nat.
Proof.
  intros Hnone Hpick. unfold track, bind, ret.
  destruct k; simpl in Hpick; subst.
  - rewrite update_run, (changed_first _ _ _ Hnone).
    destruct sdr_freq as [b|];
      [rewrite update_run;
       match goal with
       | |- context [changed ?t ?k ?x] => destruct (changed t k x)
       end|];
      cbn -[Nat.add]; (split; [reflexivity|]); exists 0%nat;
      rewrite Nat.add_0_r; repeat split; lia.
  - destruct wf_freq as [a|].
    + rewrite update_run. destruct (changed (tr st) wf a);
        rewrite update_run, changed_first by exact Hnone;
        cbn -[Nat.add]; (split; [reflexivity|]);
        [exists 1%nat; rewrite Nat.add_1_r | exists 0%nat; rewrite Nat.add_0_r];
        repeat split; lia.
    + rewrite update_run, changed_first by exact Hnone.
      cbn -[Nat.add]. split; [reflexivity|]. exists 0%nat.
      rewrite Nat.add_0_r. repeat split; lia.
Qed.

End TickFacts.

(** ** The direction of a correction *)

Section TickClaims.
Context {U : UnicodeData}.
Variable CHANGE_THRESHOLD_HZ : Z.

(** C2: in a tick where both queries are answered with frequencies at
    least the threshold apart and the tracker knows which side changed
    last, the one set command of the tick goes to the other side and
    carries the frequency of the side that changed. *)
Theorem correction_follows_changed_side (ws ss : socket) (st st1 st2 : state)
    (ev1 ev2 : list event) (a b : Z) (source : side) :
  rigctl_get_freq ws st = (Ok (Some a), st1, ev1) ->
  rigctl_get_freq ss st1 = (Ok (Some b), st2, ev2) ->
  Z.abs (a - b) >= CHANGE_THRESHOLD_HZ ->
  last_changed_side (tr (state_of (track (Some a) (Some b) st2))) = Some source ->
  sent (events_of (poll CHANGE_THRESHOLD_HZ ws ss st))
  = [(ws, get_line); (ss, get_line);
     (pick (other source) ws ss, set_line (pick source a b))].
Proof.
  intros H1 H2 Hth Hsrc.
  destruct (poll_diverged CHANGE_THRESHOLD_HZ _ _ _ _ _ _ _ _ _ H1 H2
              ltac:(lia)) as [Hs _].
  rewrite Hsrc in Hs. rewrite Hs. now destruct source.
Qed.

(** C3: in a tick where both queries are answered with frequencies less
    than the threshold apart, nothing is sent but the two queries: no set
    command goes to either side, and the tick ends with the sleep of one
    poll interval, normally unless [time.sleep] refuses that interval. *)
Theorem in_sync_no_correction (ws ss : socket) (st st1 st2 : state)
    (ev1 ev2 : list event) (a b : Z) :
  rigctl_get_freq ws st = (Ok (Some a), st1, ev1) ->
  rigctl_get_freq ss st1 = (Ok (Some b), st2, ev2) ->
  Z.abs (a - b) < CHANGE_THRESHOLD_HZ ->
  let out := poll CHANGE_THRESHOLD_HZ ws ss st in
  result_of out = outcome_result (time_sleep_error (seconds st poll_sec))
  /\ events_of out
     = [EvSend ws get_line; EvRecv ws 1024; EvSend ss get_line; EvRecv ss 1024;
        EvSleep poll_sec]
  /\ sent (events_of out) = [(ws, get_line); (ss, get_line)]
  /\ forall s freq, ~ In (s, set_line freq) (sent (events_of out)).
Proof.
  intros H1 H2 Hth out. subst out.
  rewrite (poll_idle CHANGE_THRESHOLD_HZ _ _ _ _ _ _ _ _ _ H1 H2).
  - repeat split. intros s freq [H|[H|[]]]; injection H as _ H;
      now apply (get_line_not_set_line freq).
  - intros a' b' [= <-] [= <-]. exact Hth.
Qed.

(** C4: in a tick where both queries return, a side's first sample is
    recorded as a change (its last-change instant becomes a reading of the
    clock made in this tick), yet that alone sends no set command: when the
    other side has no reading only the two queries are sent, and a set
    command is sent only when both readings are there and at least the
    threshold apart. *)
Theorem first_sample_counts_as_change (ws ss : socket) (st st1 st2 : state)
    (ev1 ev2 : list event) (wf_freq sdr_freq : option Z) (k : side) (v : Z) :
  rigctl_get_freq ws st = (Ok wf_freq, st1, ev1) ->
  rigctl_get_freq ss st1 = (Ok sdr_freq, st2, ev2) ->
  lookup (last (tr st)) k = None ->
  pick k wf_freq sdr_freq = Some v ->
  let out := poll CHANGE_THRESHOLD_HZ ws ss st in
  lookup (last (tr (state_of out))) k = Some v
  /\ (exists n, (n <= 1)%nat
        /\ lookup (last_change_time (tr (state_of out))) k
           = clock st (clock_reads st + n)
        /\ (clock_reads st + n < clock_reads (state_of out))%nat)
  /\ (pick (other k) wf_freq sdr_freq = None ->
        sent (events_of out) = [(ws, get_line); (ss, get_line)])
  /\ (forall s freq, In (s, set_line freq) (sent (events_of out)) ->
        exists a b, wf_freq = Some a /\ sdr_freq = Some b
                    /\ Z.abs (a - b) >= CHANGE_THRESHOLD_HZ).
Proof.
  intros H1 H2 Hnone Hpick out.
  destruct (queries_events _ _ _ _ _ _ _ _ _ H1 H2) as (_ & _ & Hu).
  destruct Hu as (Htr & _ & Hclk & Hreads).
  assert (Hnone2 : lookup (last (tr st2)) k = None) by now rewrite Htr.
  destruct (track_first_sample k v wf_freq sdr_freq st2 Hnone2 Hpick)
    as (Hlast & n & Hn & Hinst & Hlt).
  rewrite Hclk, Hreads in Hinst. rewrite Hreads in Hlt.
  assert (Hcases :
    (forall x y, wf_freq = Some x -> sdr_freq = Some y ->
                 Z.abs (x - y) < CHANGE_THRESHOLD_HZ)
    \/ exists x y, wf_freq = Some x /\ sdr_freq = Some y
                   /\ CHANGE_THRESHOLD_HZ <= Z.abs (x - y)).
  { destruct wf_freq as [x|], sdr_freq as [y|];
      try (left; intros; discriminate).
    destruct (Z.lt_ge_cases (Z.abs (x - y)) CHANGE_THRESHOLD_HZ).
    - left. now intros ? ? [= <-] [= <-].
    - right. now exists x, y. }
  destruct Hcases as [Hidle|(x & y & -> & -> & Hth)].
  - subst out.
    rewrite (poll_idle CHANGE_THRESHOLD_HZ _ _ _ _ _ _ _ _ _ H1 H2 Hidle).
    unfold state_of, events_of. cbn [fst snd sent].
    split; [exact Hlast|]. split; [now exists n|]. split; [reflexivity|].
    intros s freq [H|[H|[]]]; injection H as _ H;
      now elim (get_line_not_set_line freq).
  - destruct (poll_diverged CHANGE_THRESHOLD_HZ _ _ _ _ _ _ _ _ _ H1 H2 Hth)
      as [Hs (Htr' & _ & _ & Hreads')].
    fold out in Hs, Htr', Hreads'. rewrite Htr', Hreads'.
    split; [exact Hlast|]. split; [now exists n|]. split.
    + destruct k; discriminate.
    + intros _ _ _. exists x, y. repeat split. lia.
Qed.

End TickClaims.

(** ** Failures in the loop *)

Lemma bind_events {A B : Type} (m : M A) (f : A -> M B) (st : state) :
  exists rest, events_of (bind m f st) = events_of (m st) ++ rest.
Proof.
  unfold bind, events_of. destruct (m st) as [[[a|e] st1] ev1]; simpl.
  - destruct (f a st1) as [[r2 st2] ev2]. now exists ev2.
  - exists []. now rewrite app_nil_r.
Qed.

Lemma bind_conn {A B : Type} (m : M A) (f : A -> M B) (st : state) :
  conn (state_of (m st)) = conn st ->
  (forall a st1, conn (state_of (f a st1)) = conn st1) ->
  conn (state_of (bind m f st)) = conn st.
Proof.
  unfold bind, state_of. intros Hm Hf.
  destruct (m st) as [[[a|e] st1] ev1]; simpl in *; [|exact Hm].
  specialize (Hf a st1). destruct (f a st1) as [[r2 st2] ev2]. simpl in *.
  congruence.
Qed.

Lemma attempt_events {A : Type} (m : M A) (st : state) :
  events_of (attempt m st) = events_of (m st).
Proof. unfold attempt, events_of. now destruct (m st) as [[r st1] ev1]. Qed.

Lemma close_quietly_run (s : socket) (st : state) :
  close_quietly (Some s) st =
  (Ok tt, match closes st with [] => st | _ :: rest => with_closes st rest end,
   [EvClose s]).
Proof.
  unfold close_quietly, bind, attempt, ret. rewrite close_run.
  destruct (closes st) as [|[e|] rest]; reflexivity.
Qed.

(** Both sockets are closed, whatever [close] does, and both variables
    are cleared. *)
Lemma drop_connections_run (ws ss : socket) (st : state) :
  lookup (conn st) wf = Some ws ->
  lookup (conn st) sdr = Some ss ->
  exists st',
    drop_connections st = (Ok tt, st', [EvClose ws; EvClose ss])
    /\ conn st' = {| at_wf := None; at_sdr := None |}
    /\ tr st' = tr st /\ remote st' = remote st
    /\ seconds st' = seconds st.
Proof.
  intros Hw Hs. unfold drop_connections.
  unfold bind at 1, get_state. cbn beta iota. rewrite Hw, Hs.
  unfold bind at 1. rewrite close_quietly_run.
  unfold bind at 1. rewrite close_quietly_run.
  unfold bind, get_state, put_state.
  destruct (closes st) as [|o [|o' rest]] eqn:Hc; cbn [closes with_closes];
    rewrite ?Hc; (eexists; split; [reflexivity|]); repeat split.
Qed.

Section LoopFacts.
Context {U : UnicodeData}.
Variable CHANGE_THRESHOLD_HZ : Z.

Lemma correct_conn (ws ss : socket) (wf_freq sdr_freq : option Z) (st : state) :
  conn (state_of (correct CHANGE_THRESHOLD_HZ ws ss wf_freq sdr_freq st)) = conn st.
Proof.
  destruct wf_freq as [a|], sdr_freq as [b|]; try reflexivity.
  destruct (Z.lt_ge_cases (Z.abs (a - b)) CHANGE_THRESHOLD_HZ) as [H|H].
  - rewrite correct_idle; [reflexivity|]. now intros ? ? [= <-] [= <-].
  - rewrite (correct_diverged _ _ _ _ _ _ H).
    destruct (last_changed_side (tr st)) as [[|]|];
      match goal with
      | |- context [bind (rigctl_set_freq ?s ?x) _ st] =>
          destruct (set_then_ret_spec s x st) as [(_ & Hc & _) _]; exact Hc
      end.
Qed.

(** The tick leaves the variables [wf] and [sdr] of [main] alone, also
    when it fails. *)
Lemma poll_conn (ws ss : socket) (st : state) :
  conn (state_of (poll CHANGE_THRESHOLD_HZ ws ss st)) = conn st.
Proof.
  unfold poll.
  apply bind_conn; [apply (rigctl_get_freq_spec ws st)|]. intros fa sa.
  apply bind_conn; [apply (rigctl_get_freq_spec ss sa)|]. intros fb sb.
  apply bind_conn; [apply (track_spec fa fb sb)|]. intros _ sc.
  apply bind_conn; [apply correct_conn|]. intros _ sd. now rewrite sleep_run.
Qed.

(** Nor does it touch the durations. *)
Lemma poll_seconds (ws ss : socket) (st : state) :
  seconds (state_of (poll CHANGE_THRESHOLD_HZ ws ss st)) = seconds st.
Proof.
  unfold poll.
  seconds_step; [apply rigctl_get_freq_seconds|].
  seconds_step; [apply rigctl_get_freq_seconds|].
  seconds_step; [apply track_seconds|].
  seconds_step; [apply correct_seconds|].
  now rewrite sleep_run.
Qed.

(** The tick starts with the query to wfview. *)
Lemma poll_first_event (ws ss : socket) (st : state) :
  exists rest,
    events_of (poll CHANGE_THRESHOLD_HZ ws ss st) = EvSend ws get_line :: rest.
Proof.
  unfold poll.
  destruct (bind_events (rigctl_get_freq ws)
    (fun wf_freq =>
       (sdr_freq <- rigctl_get_freq ss;;
        track wf_freq sdr_freq;;
        correct CHANGE_THRESHOLD_HZ ws ss wf_freq sdr_freq;;
        sleep poll_sec)%io) st) as [rest ->].
  rewrite rigctl_get_freq_run.
  destruct (sendall_spec ws get_line st) as [Ev _].
  destruct (sendall ws get_line st) as [[[[]|e] st1] ev1];
    unfold events_of in *; simpl in *; subst ev1.
  - destruct (recv ws 1024 st1) as [[[data|e] st2] ev2]; simpl; eauto.
  - simpl. eauto.
Qed.

Lemma ensure_connections_connected (ws ss : socket) (st : state) :
  lookup (conn st) wf = Some ws ->
  lookup (conn st) sdr = Some ss ->
  ensure_connections st = (Ok tt, st, []).
Proof.
  intros Hw Hs. unfold ensure_connections, bind, get_state, ret.
  now rewrite Hw, Hs.
Qed.

(** A turn of the loop with both connections up: the tick, and its
    handler when the tick fails. *)
Lemma iteration_run (ws ss : socket) (st : state) :
  lookup (conn st) wf = Some ws ->
  lookup (conn st) sdr = Some ss ->
  iteration CHANGE_THRESHOLD_HZ st =
  match poll CHANGE_THRESHOLD_HZ ws ss st with
  | (Ok _, st1, ev1) => (Ok tt, st1, ev1)
  | (Raise e, st1, ev1) =>
      let '(r, st2, ev2) := poll_handler e st1 in (r, st2, ev1 ++ ev2)
  end.
Proof.
  intros Hw Hs. unfold iteration, bind at 1, attempt.
  rewrite (ensure_connections_connected ws ss st Hw Hs).
  cbn beta iota. unfold bind at 1, get_state. cbn beta iota.
  rewrite Hw, Hs. unfold bind, ret.
  destruct (poll CHANGE_THRESHOLD_HZ ws ss st) as [[[[]|e] st1] ev1]; cbn [app].
  - now rewrite app_nil_r.
  - now destruct (poll_handler e st1) as [[r st2] ev2].
Qed.

(** A turn of the loop without a connection to wfview starts by
    connecting to it. *)
Lemma iteration_reconnects (st : state) :
  lookup (conn st) wf = None ->
  exists rest, events_of (iteration CHANGE_THRESHOLD_HZ st) = EvConnect wf :: rest.
Proof.
  intros Hw. unfold iteration.
  match goal with
  | |- context [events_of (bind ?m ?f st)] =>
      destruct (bind_events m f st) as [r0 ->]
  end.
  rewrite attempt_events. unfold ensure_connections.
  rewrite bind_get_state, Hw. unfold connect.
  repeat match goal with
         | |- context [events_of (bind ?m ?f st)] =>
             destruct (bind_events m f st) as [? ->]
         end.
  unfold log_event, events_of. cbn [snd app]. eauto.
Qed.

End LoopFacts.

Lemma is_io_error_spec (e : exn) :
  is_io_error e = true <->
  e = socket_timeout \/ e = ConnectionResetError \/ e = BrokenPipeError.
Proof.
  destruct e; simpl; split; auto; try discriminate;
    intros [H|[H|H]]; discriminate.
Qed.

Lemma poll_handler_io (ws ss : socket) (e : exn) (st : state) :
  lookup (conn st) wf = Some ws ->
  lookup (conn st) sdr = Some ss ->
  is_io_error e = true ->
  exists st',
    poll_handler e st
    = (outcome_result (time_sleep_error (seconds st RECONNECT_WAIT)), st',
       [EvClose ws; EvClose ss; EvSleep RECONNECT_WAIT])
    /\ conn st' = {| at_wf := None; at_sdr := None |}
    /\ tr st' = tr st.
Proof.
  intros Hw Hs He. unfold poll_handler. rewrite He.
  destruct (drop_connections_run ws ss st Hw Hs)
    as (st' & Hd & Hc & Ht & _ & Hsec).
  exists st'. unfold bind. rewrite Hd, sleep_run, Hsec. now repeat split.
Qed.

Lemma poll_handler_other (e : exn) (st : state) :
  is_io_error e = false ->
  poll_handler e st
  = (outcome_result (time_sleep_error (seconds st poll_sec)), st,
     [EvSleep poll_sec]).
Proof. intros He. unfold poll_handler. rewrite He. apply sleep_run. Qed.

Section LoopClaims.
Context {U : UnicodeData}.
Variable CHANGE_THRESHOLD_HZ : Z.

(** A turn of the loop with both connections up starts with the query to
    wfview on the connection it has. *)
Lemma iteration_polls (ws ss : socket) (st : state) :
  lookup (conn st) wf = Some ws ->
  lookup (conn st) sdr = Some ss ->
  exists rest,
    events_of (iteration CHANGE_THRESHOLD_HZ st) = EvSend ws get_line :: rest.
Proof.
  intros Hw Hs. rewrite (iteration_run CHANGE_THRESHOLD_HZ ws ss st Hw Hs).
  destruct (poll_first_event CHANGE_THRESHOLD_HZ ws ss st) as [rest Hev].
  destruct (poll CHANGE_THRESHOLD_HZ ws ss st) as [[[[]|e] st1] ev1];
    unfold events_of in *; cbn [snd] in *; subst ev1; [eauto|].
  destruct (poll_handler e st1) as [[r st2] ev2]. cbn [snd app]. eauto.
Qed.

(** C8, as amended: when the tick fails in a turn of the loop that has
    both connections, the turn ends as the sleep of its handler ends.
    After a timeout, a reset or a broken pipe, on whichever connection,
    both sockets are closed and both variables cleared, then the loop
    sleeps the reconnect wait; when [time.sleep] accepts that wait the
    turn ends normally and the next turn starts by connecting again.
    After any other exception the loop sleeps one poll interval and
    nothing else: the state is the one the tick left, with both
    connections; when [time.sleep] accepts the poll interval the turn ends
    normally and the next turn starts with the query on the same
    socket. *)
Theorem polling_failure_handling (ws ss : socket) (st st1 : state)
    (e : exn) (ev1 : list event) :
  lookup (conn st) wf = Some ws ->
  lookup (conn st) sdr = Some ss ->
  poll CHANGE_THRESHOLD_HZ ws ss st = (Raise e, st1, ev1) ->
  let out := iteration CHANGE_THRESHOLD_HZ st in
  let next := iteration CHANGE_THRESHOLD_HZ (state_of out) in
  result_of out
  = outcome_result
      (time_sleep_error
         (seconds st (if is_io_error e then RECONNECT_WAIT else poll_sec)))
  /\ tr (state_of out) = tr st1
  /\ (e = socket_timeout \/ e = ConnectionResetError \/ e = BrokenPipeError ->
        events_of out = ev1 ++ [EvClose ws; EvClose ss; EvSleep RECONNECT_WAIT]
        /\ conn (state_of out) = {| at_wf := None; at_sdr := None |}
        /\ (time_sleep_error (seconds st RECONNECT_WAIT) = None ->
            result_of out = Ok tt
            /\ exists rest, events_of next = EvConnect wf :: rest))
  /\ (~ (e = socket_timeout \/ e = ConnectionResetError \/ e = BrokenPipeError) ->
        events_of out = ev1 ++ [EvSleep poll_sec]
        /\ state_of out = st1
        /\ conn (state_of out) = conn st
        /\ (time_sleep_error (seconds st poll_sec) = None ->
            result_of out = Ok tt
            /\ exists rest, events_of next = EvSend ws get_line :: rest)).
Proof.
  intros Hw Hs Hpoll out next.
  assert (Hconn : conn st1 = conn st).
  { pose proof (poll_conn CHANGE_THRESHOLD_HZ ws ss st) as H.
    now rewrite Hpoll in H. }
  assert (Hsec : seconds st1 = seconds st).
  { pose proof (poll_seconds CHANGE_THRESHOLD_HZ ws ss st) as H.
    now rewrite Hpoll in H. }
  assert (Hw1 : lookup (conn st1) wf = Some ws) by now rewrite Hconn.
  assert (Hs1 : lookup (conn st1) sdr = Some ss) by now rewrite Hconn.
  assert (Hout : out = let '(r, st2, ev2) := poll_handler e st1 in
                       (r, st2, ev1 ++ ev2)).
  { subst out. now rewrite (iteration_run _ ws ss st Hw Hs), Hpoll. }
  destruct (is_io_error e) eqn:He.
  - destruct (poll_handler_io ws ss e st1 Hw1 Hs1 He) as (st' & Hh & Hc & Ht).
    rewrite Hh, Hsec in Hout. subst next. rewrite Hout.
    unfold result_of, state_of, events_of. cbn [fst snd].
    split; [reflexivity|]. split; [exact Ht|]. split.
    + intros _. split; [reflexivity|]. split; [exact Hc|].
      intros ->. split; [reflexivity|].
      apply iteration_reconnects. now rewrite Hc.
    + intros Hn. elim Hn. now apply is_io_error_spec.
  - rewrite (poll_handler_other e st1 He), Hsec in Hout. subst next.
    rewrite Hout.
    unfold result_of, state_of, events_of. cbn [fst snd].
    split; [reflexivity|]. split; [reflexivity|]. split.
    + intros Hio. apply is_io_error_spec in Hio. congruence.
    + intros _. repeat split; trivial.
      * now rewrite H.
      * now apply iteration_polls with (ss := ss).
Qed.

End LoopClaims.

(** ** Claims about the codec *)

Section CodecClaims.
Context {U : UnicodeData}.

(** The answer of [rigctl_set_freq] is the acknowledgement test on the
    reply it read. *)
Lemma rigctl_set_freq_acknowledged (sock : socket) (freq : Z)
    (st st1 st2 : state) (ev1 ev2 : list event) (data : list byte) :
  sendall sock (set_line freq) st = (Ok tt, st1, ev1) ->
  recv sock 1024 st1 = (Ok data, st2, ev2) ->
  exists reply,
    utf8_decode errors_ignore data = Ok reply
    /\ rigctl_set_freq sock freq st
       = (Ok (set_acknowledged reply), st2, ev1 ++ ev2).
Proof.
  intros Hs Hr. destruct (utf8_decode_ignore_total data) as [reply Hd].
  exists reply. split; [exact Hd|].
  now rewrite rigctl_set_freq_run, Hs, Hr, Hd.
Qed.

(** C6, as amended: [parse_freq_from_text] splits the reply on white
    space (a colon is a separator too), strips each token down to digits,
    ['.'] and ['-'], and returns the number of the first token that has
    one, provided no token before it is a numeral too large for a float
    (on such a token the function raises [OverflowError]): the integer
    the token spells when [int] takes it, which it does up to 4300
    digits, or else, for a decimal, the nearest binary64 float rounded to
    the nearest integer, ties to even.  It returns no value exactly when
    no token has a number and none is too large.  So ["14250000\n"] gives 14250000 and
    ["freq: 7074000.0 kHz-ish"] gives 7074000. *)
Theorem parse_freq_from_text_first_number (text : str) :
  (forall z, parse_freq_from_text text = Ok (Some z) <->
     exists before tok after,
       numeric_tokens text = before ++ tok :: after
       /\ Forall (fun t => token_number t = None /\ too_large t = false) before
       /\ token_number tok = Some z)
  /\ (parse_freq_from_text text = Ok None <->
        Forall (fun t => token_number t = None /\ too_large t = false)
               (numeric_tokens text))
  /\ parse_freq_from_text (of_string "14250000" ++ LF) = Ok (Some 14250000)
  /\ parse_freq_from_text (of_string "freq: 7074000.0 kHz-ish")
     = Ok (Some 7074000).
Proof.
  split; [|split; [|split]].
  - intros z. apply parse_tokens_number.
  - apply parse_tokens_none.
  - vm_compute. reflexivity.
  - vm_compute. reflexivity.
Qed.

(** C7: the reply to a set command is taken as an acknowledgement exactly
    when it contains ["RPRT 0"] or, stripped of the white space around it,
    is not empty and made of digits only; so ["RPRT 0\n"] and
    ["14250000\n"] are acknowledgements and ["RPRT -1\n"] is not. *)
Theorem set_acknowledged_spec (reply : str) :
  (set_acknowledged reply = true <->
     (exists before after, reply = before ++ of_string "RPRT 0" ++ after)
     \/ (strip reply <> [] /\ Forall (fun c => isdigit c = true) (strip reply)))
  /\ set_acknowledged (of_string "RPRT 0" ++ LF) = true
  /\ set_acknowledged (of_string "14250000" ++ LF) = true
  /\ set_acknowledged (of_string "RPRT -1" ++ LF) = false.
Proof.
  split; [|repeat split].
  unfold set_acknowledged.
  rewrite orb_true_iff, contains_spec, str_isdigit_spec. reflexivity.
Qed.

(** C10: [parse_freq_from_text] can return a negative integer: the error
    reply ["RPRT -1\n"] parses to [-1], not to "no value", and
    [rigctl_get_freq] hands that on as the frequency read. *)
Theorem parse_freq_from_text_negative :
  parse_freq_from_text (of_string "RPRT -1" ++ LF) = Ok (Some (-1))
  /\ (exists text z, parse_freq_from_text text = Ok (Some z) /\ z < 0)
  /\ forall (sock : socket) (st st1 st2 : state) (ev1 ev2 : list event),
       sendall sock get_line st = (Ok tt, st1, ev1) ->
       recv sock 1024 st1
       = (Ok (encode_ascii_ignore (of_string "RPRT -1" ++ LF)), st2, ev2) ->
       rigctl_get_freq sock st = (Ok (Some (-1)), st2, ev1 ++ ev2).
Proof.
  assert (E : parse_freq_from_text (of_string "RPRT -1" ++ LF) = Ok (Some (-1)))
    by reflexivity.
  split; [exact E|]. split.
  - exists (of_string "RPRT -1" ++ LF), (-1). split; [exact E | lia].
  - intros sock st st1 st2 ev1 ev2 Hs Hr.
    rewrite rigctl_get_freq_run, Hs, Hr. reflexivity.
Qed.

End CodecClaims.

(** C9, as amended: [recv_text] reads once, at most [max_bytes] bytes, and
    decodes what it read as UTF-8 without ever failing: the text is the
    strict decoding of the bytes read with the undecodable ones taken out,
    nothing being put in their place. *)
Theorem recv_text_drops_undecodable (sock : socket) (max_bytes : nat)
    (st : state) (data : list byte) (later : list (result (list byte))) :
  recvs (lookup (remote st) (peer sock)) = Ok data :: later ->
  let out := recv_text sock max_bytes st in
  let got := firstn max_bytes data in
  events_of out = [EvRecv sock max_bytes]
  /\ (List.length got <= max_bytes)%nat
  /\ result_of out = utf8_decode errors_ignore got
  /\ exists kept text,
       subsequence kept got
       /\ result_of out = Ok text
       /\ utf8_decode errors_strict kept = Ok text.
Proof.
  intros Hrecv out got. subst out.
  rewrite recv_text_run, recv_run. cbv zeta. rewrite Hrecv.
  unfold events_of, result_of. cbn [fst snd]. fold got.
  split; [reflexivity|]. split; [apply firstn_le_length|].
  split; [reflexivity|].
  destruct (utf8_decode_ignore_drops got) as (kept & text & Hsub & Hi & Hs).
  now exists kept, text.
Qed.

(** ** Beyond the claims *)

(** Comparison of floats: [x < y] excludes [y <= x], and two floats equal
    to zero are not in that order. *)
Lemma SFltb_not_leb (x y : spec_float) : SFltb x y = true -> SFleb y x = false.
Proof.
  unfold SFltb, SFleb, SFcompare.
  destruct x as [s|s| |s m e], y as [s'|s'| |s' m' e'];
    try destruct s; try destruct s'; try discriminate; try reflexivity;
    (assert (Hm : Pos.compare_cont Eq m' m = CompOpp (Pos.compare_cont Eq m m'))
       by (symmetry; apply (Pos.compare_cont_antisym m m' Eq)));
    rewrite (Z.compare_antisym e e'), Hm;
    destruct (e ?= e'); simpl; try discriminate; try reflexivity;
    destruct (Pos.compare_cont Eq m m'); simpl; try discriminate; reflexivity.
Qed.

Lemma SFltb_not_both_zero (x y : spec_float) :
  SFltb x y = true -> SFeqb x float_zero && SFeqb y float_zero = false.
Proof.
  unfold SFltb, SFeqb, SFcompare, float_zero.
  destruct x as [s|s| |s m e], y as [s'|s'| |s' m' e'];
    try destruct s; try destruct s'; try discriminate; reflexivity.
Qed.


Section Beyond.
Context {U : UnicodeData}.
Variable CHANGE_THRESHOLD_HZ : Z.

Lemma parse_tokens_skip (token : str) (rest : list str) :
  token_number (keep_numeric token) = None ->
  too_large (keep_numeric token) = false ->
  parse_tokens (token :: rest) = parse_tokens rest.
Proof. intros Hn Hl. now rewrite parse_tokens_step, Hn, Hl. Qed.

(** X2: when the first stripped token that is not skipped is a decimal too
    large for a float, [parse_freq_from_text] raises [OverflowError]: it
    neither returns a number nor goes on to the tokens that follow. *)
Theorem parse_freq_from_text_raises (text : str) (before after : list str)
    (tok : str) :
  numeric_tokens text = before ++ tok :: after ->
  Forall (fun t => token_number t = None /\ too_large t = false) before ->
  too_large tok = true ->
  parse_freq_from_text text = Raise OverflowError.
Proof.
  unfold numeric_tokens, parse_freq_from_text.
  generalize (split (replace_colon (strip text))) as tokens.
  induction before as [|t0 before IH]; intros tokens Htok Hbefore Hlarge.
  - destruct tokens as [|token rest]; [discriminate|].
    simpl in Htok. injection Htok as Ht _. subst tok.
    now apply parse_tokens_overflow.
  - destruct tokens as [|token rest]; [discriminate|].
    simpl in Htok. injection Htok as Ht Hrest. subst t0.
    inversion Hbefore as [|? ? [Hn Hl] Hb]; subst.
    rewrite (parse_tokens_skip _ _ Hn Hl). now apply IH.
Qed.

(** X1: in the first tick of a new tracker, when both queries are
    answered, both first samples are recorded as changes in this very
    tick, wfview's at one reading of the clock and rigctl's at the next.
    When the clock has moved between the two and the readings are at least
    the threshold apart, rigctl is the side that changed last: its
    frequency goes to wfview, and the tie-break in favour of wfview is not
    reached. *)
Theorem first_tick_source (ws ss : socket) (st st1 st2 : state)
    (ev1 ev2 : list event) (a b : Z) :
  rigctl_get_freq ws st = (Ok (Some a), st1, ev1) ->
  rigctl_get_freq ss st1 = (Ok (Some b), st2, ev2) ->
  lookup (last (tr st)) wf = None ->
  lookup (last (tr st)) sdr = None ->
  Z.abs (a - b) >= CHANGE_THRESHOLD_HZ ->
  SFltb (clock st (clock_reads st)) (clock st (S (clock_reads st))) = true ->
  let out := poll CHANGE_THRESHOLD_HZ ws ss st in
  lookup (last_change_time (tr (state_of out))) wf = clock st (clock_reads st)
  /\ lookup (last_change_time (tr (state_of out))) sdr
     = clock st (S (clock_reads st))
  /\ sent (events_of out)
     = [(ws, get_line); (ss, get_line); (ws, set_line b)].
Proof.
  intros H1 H2 Hw Hs Hth Hclk out.
  destruct (queries_events _ _ _ _ _ _ _ _ _ H1 H2)
    as (_ & _ & Htr & _ & Hc & Hr).
  destruct (poll_diverged CHANGE_THRESHOLD_HZ _ _ _ _ _ _ _ _ _ H1 H2
              ltac:(lia)) as [Hsent (Htr' & _)].
  fold out in Hsent, Htr'. rewrite Htr'.
  assert (Hw2 : lookup (last (tr st2)) wf = None) by now rewrite Htr.
  assert (Hs2 : lookup (last (tr st2)) sdr = None) by now rewrite Htr.
  assert (Ht : last_change_time (tr (state_of (track (Some a) (Some b) st2)))
               = {| at_wf := clock st (clock_reads st);
                    at_sdr := clock st (S (clock_reads st)) |}).
  { unfold track, bind. rewrite update_run, (changed_first _ _ _ Hw2).
    rewrite update_run, changed_first by exact Hs2.
    cbn. now rewrite Hc, Hr. }
  rewrite Ht. split; [reflexivity|]. split; [reflexivity|].
  rewrite Hsent. unfold last_changed_side. rewrite Ht. cbn [lookup at_wf at_sdr].
  now rewrite (SFltb_not_both_zero _ _ Hclk), (SFltb_not_leb _ _ Hclk).
Qed.

End Beyond.

(** ** Decimal numerals *)

Section NumeralFacts.
Context {U : UnicodeData}.

Lemma ascii_digit_facts (c : char) :
  (48 <= c <= 57)%N ->
  decimal_value c = Some (Z.of_N c - 48) /\ isdigit c = true
  /\ isspace c = false /\ c <> colon /\ c <> dash /\ c <> dot.
Proof.
  intros [Hlo Hhi].
  assert (A : is_ascii c = true) by (apply N.ltb_lt; lia).
  assert (D : decimal_value c = Some (Z.of_N c - 48)).
  { unfold decimal_value. rewrite A.
    now rewrite (proj2 (N.leb_le 48 c) Hlo), (proj2 (N.leb_le c 57) Hhi). }
  split; [exact D|]. split; [unfold isdigit; now rewrite D|].
  split.
  - unfold isspace. rewrite A.
    apply orb_false_iff. split; apply andb_false_iff.
    + right. apply N.leb_gt. lia.
    + right. apply N.leb_gt. lia.
  - unfold colon, dash, dot. repeat split; lia.
Qed.

Lemma dash_facts : isdigit dash = false /\ isspace dash = false.
Proof. split; reflexivity. Qed.

Lemma digits_value_uint_acc (d : Decimal.uint) (acc : positive) :
  digits_value (Zpos acc) (of_string (NilEmpty.string_of_uint d))
  = Some (Zpos (Pos.of_uint_acc d acc)).
Proof.
  revert acc.
  induction d as [|d IH|d IH|d IH|d IH|d IH|d IH|d IH|d IH|d IH|d IH];
    intros acc; [reflexivity|..];
    cbn [NilEmpty.string_of_uint of_string list_ascii_of_string map digits_value];
    match goal with
    | |- context [decimal_value ?c] =>
        change (decimal_value c) with (Some (Z.of_N c - 48))
    end; cbn [N_of_ascii N_of_digits Pos.of_uint_acc]; rewrite <- IH;
    f_equal; cbn [Z.of_N]; lia.
Qed.

Lemma digits_value_uint (d : Decimal.uint) :
  digits_value 0 (of_string (NilEmpty.string_of_uint d))
  = Some (Z.of_N (Pos.of_uint d)).
Proof.
  induction d as [|d IH|d IH|d IH|d IH|d IH|d IH|d IH|d IH|d IH|d IH];
    [reflexivity|exact IH|..];
    cbn [NilEmpty.string_of_uint of_string list_ascii_of_string map digits_value];
    match goal with
    | |- context [decimal_value ?c] =>
        change (decimal_value c) with (Some (Z.of_N c - 48))
    end; cbn [N_of_ascii N_of_digits];
    cbn [Pos.of_uint Z.of_N]; rewrite <- digits_value_uint_acc; f_equal.
Qed.

Lemma str_of_Z_pos (p : positive) :
  str_of_Z (Zpos p) = of_string (NilEmpty.string_of_uint (Pos.to_uint p))
  /\ str_of_Z (Zneg p)
     = dash :: of_string (NilEmpty.string_of_uint (Pos.to_uint p)).
Proof.
  unfold str_of_Z, NilZero.string_of_int, NilZero.string_of_uint.
  cbn [Z.to_int].
  pose proof (DecimalPos.Unsigned.to_uint_nonnil p) as Hn.
  destruct (Pos.to_uint p); [now elim Hn|..]; split; reflexivity.
Qed.

Lemma digits_value_positive (p : positive) :
  digits_value 0 (of_string (NilEmpty.string_of_uint (Pos.to_uint p)))
  = Some (Zpos p).
Proof.
  rewrite digits_value_uint, DecimalPos.Unsigned.of_to. reflexivity.
Qed.

Lemma uint_chars_digits (d : Decimal.uint) :
  d <> Decimal.Nil ->
  exists c rest, of_string (NilEmpty.string_of_uint d) = c :: rest
                 /\ (48 <= c <= 57)%N.
Proof.
  intros Hn.
  pose proof (string_of_uint_digits d) as F.
  destruct (of_string (NilEmpty.string_of_uint d)) as [|c rest] eqn:E.
  - destruct d; try discriminate E. now elim Hn.
  - exists c, rest. split; [reflexivity|]. now inversion F.
Qed.

(** The decimal numeral of an integer reads back as that integer. *)
Lemma integer_literal_str_of_Z (n : Z) : integer_literal (str_of_Z n) = Some n.
Proof.
  destruct n as [|p|p].
  - reflexivity.
  - destruct (str_of_Z_pos p) as [-> _].
    destruct (uint_chars_digits (Pos.to_uint p)
                (DecimalPos.Unsigned.to_uint_nonnil p)) as (c & rest & E & Hc).
    pose proof (digits_value_positive p) as Hv. rewrite E in Hv.
    rewrite E. unfold integer_literal, split_sign.
    destruct (ascii_digit_facts c Hc) as (_ & _ & _ & _ & Hd & _).
    destruct (N.eqb_spec c dash); [contradiction|]. now rewrite Hv.
  - destruct (str_of_Z_pos p) as [_ ->].
    destruct (uint_chars_digits (Pos.to_uint p)
                (DecimalPos.Unsigned.to_uint_nonnil p)) as (c & rest & E & Hc).
    pose proof (digits_value_positive p) as Hv. rewrite E in Hv.
    rewrite E. unfold integer_literal, split_sign.
    rewrite N.eqb_refl. now rewrite Hv.
Qed.

End NumeralFacts.

(** ** Tokens of a reply *)

Section TokenFacts.
Context {U : UnicodeData}.

Lemma lstrip_head (c : char) (s : str) :
  isspace c = false -> lstrip (c :: s) = c :: s.
Proof. intros H. simpl. now rewrite H. Qed.

Lemma lstrip_app_spaces (w s : str) :
  Forall (fun c => isspace c = true) w -> lstrip (w ++ s) = lstrip s.
Proof.
  induction 1 as [|c w Hc _ IH]; [reflexivity|]. simpl. now rewrite Hc.
Qed.

Lemma Forall_rev_iff {A : Type} (P : A -> Prop) (l : list A) :
  Forall P l -> Forall P (rev l).
Proof.
  intros F. apply Forall_forall. intros x Hx. apply in_rev in Hx.
  now apply (proj1 (Forall_forall P l) F).
Qed.

(** White space around a text without white space is what [strip] takes
    off. *)
Lemma strip_padded (w1 w2 s : str) :
  Forall (fun c => isspace c = true) w1 ->
  Forall (fun c => isspace c = true) w2 ->
  Forall (fun c => isspace c = false) s ->
  strip (w1 ++ s ++ w2) = s.
Proof.
  intros F1 F2 Fs. unfold strip, rstrip.
  rewrite (lstrip_app_spaces w1 _ F1).
  destruct s as [|c s].
  - simpl app.
    assert (E : lstrip w2 = []).
    { rewrite <- (app_nil_r w2). now rewrite lstrip_app_spaces. }
    now rewrite E.
  - inversion Fs as [|? ? Hc Hs]; subst.
    change ((c :: s) ++ w2) with (c :: (s ++ w2)).
    rewrite (lstrip_head c _ Hc).
    change (c :: (s ++ w2)) with ((c :: s) ++ w2).
    rewrite rev_app_distr.
    rewrite (lstrip_app_spaces _ _ (Forall_rev_iff _ _ F2)).
    pose proof (Forall_rev_iff _ _ Fs) as Fr.
    destruct (rev (c :: s)) as [|c' r] eqn:E.
    + apply (f_equal (@rev char)) in E. rewrite rev_involutive in E.
      discriminate E.
    + inversion Fr as [|? ? Hc' _]; subst.
      rewrite (lstrip_head c' _ Hc'). rewrite <- E. apply rev_involutive.
Qed.

(** A non-empty text without white space is one token. *)
Lemma split_one_token (s : str) :
  s <> [] -> Forall (fun c => isspace c = false) s -> split s = [s].
Proof.
  induction s as [|c s IH]; intros Hne F; [now elim Hne|].
  inversion F as [|? ? Hc Fs]; subst.
  rewrite split_cons, Hc.
  destruct s as [|c' s']; [reflexivity|].
  inversion Fs as [|? ? Hc' _]; subst. rewrite Hc'.
  rewrite IH; [reflexivity | discriminate | exact Fs].
Qed.

Lemma replace_colon_id (s : str) :
  Forall (fun c => c <> colon) s -> replace_colon s = s.
Proof.
  induction 1 as [|c s Hc _ IH]; [reflexivity|].
  simpl. rewrite IH. now destruct (N.eqb_spec c colon).
Qed.

Lemma keep_numeric_id (s : str) :
  Forall (fun c => isdigit c = true \/ c = dot \/ c = dash) s ->
  keep_numeric s = s.
Proof.
  induction 1 as [|c s Hc _ IH]; [reflexivity|].
  unfold keep_numeric in *. simpl. rewrite IH.
  destruct Hc as [-> | [-> | ->]]; [reflexivity| |];
    now rewrite orb_true_r.
Qed.

Lemma keep_numeric_none (s : str) :
  Forall (fun c => isdigit c = false /\ c <> dot /\ c <> dash) s ->
  keep_numeric s = [].
Proof.
  induction 1 as [|c s (Hd & H1 & H2) _ IH]; [reflexivity|].
  unfold keep_numeric in *. simpl. rewrite IH, Hd.
  destruct (N.eqb_spec c dot), (N.eqb_spec c dash); try contradiction.
  reflexivity.
Qed.

(** The characters of the decimal numeral of an integer. *)
Lemma str_of_Z_facts (n : Z) :
  str_of_Z n <> []
  /\ Forall (fun c => isspace c = false) (str_of_Z n)
  /\ Forall (fun c => c <> colon) (str_of_Z n)
  /\ Forall (fun c => isdigit c = true \/ c = dot \/ c = dash) (str_of_Z n)
  /\ (0 <= n -> Forall (fun c => isdigit c = true) (str_of_Z n))
  /\ (n < 0 -> exists rest, str_of_Z n = dash :: rest).
Proof.
  pose proof (str_of_Z_chars n) as F.
  split.
  { intros E. pose proof (integer_literal_str_of_Z n) as H.
    rewrite E in H. discriminate H. }
  split.
  { eapply Forall_impl; [|exact F]. intros c [->|Hc]; [reflexivity|].
    now apply ascii_digit_facts. }
  split.
  { eapply Forall_impl; [|exact F]. intros c [->|Hc]; [discriminate|].
    now apply ascii_digit_facts. }
  split.
  { eapply Forall_impl; [|exact F]. intros c [->|Hc]; [auto|].
    left. now apply ascii_digit_facts. }
  split.
  - intros Hn. destruct n as [|p|p]; [repeat constructor| |lia].
    destruct (str_of_Z_pos p) as [-> _].
    eapply Forall_impl; [|apply string_of_uint_digits].
    intros c Hc. now apply ascii_digit_facts.
  - intros Hn. destruct n as [|p|p]; try lia.
    destruct (str_of_Z_pos p) as [_ ->]. eauto.
Qed.

End TokenFacts.

Section SplitFacts.
Context {U : UnicodeData}.

Lemma lstrip_fixed_head (c : char) (s : str) :
  lstrip (c :: s) = c :: s -> isspace c = false.
Proof.
  intros Hl. destruct (isspace c) eqn:Hc; [|reflexivity].
  cbn [lstrip] in Hl. rewrite Hc in Hl.
  destruct (lstrip_suffix s) as (pre & E & _).
  apply (f_equal (@List.length char)) in Hl.
  apply (f_equal (@List.length char)) in E.
  rewrite length_app in E. cbn [List.length] in Hl. lia.
Qed.

Lemma strip_trimmed (w1 w2 s : str) :
  Forall (fun c => isspace c = true) w1 ->
  Forall (fun c => isspace c = true) w2 ->
  trimmed s ->
  strip (w1 ++ s ++ w2) = s.
Proof.
  intros F1 F2 [Hl Hr]. unfold strip, rstrip.
  rewrite (lstrip_app_spaces w1 _ F1).
  destruct s as [|c s].
  - simpl app.
    assert (E : lstrip w2 = []).
    { rewrite <- (app_nil_r w2). now rewrite lstrip_app_spaces. }
    now rewrite E.
  - pose proof (lstrip_fixed_head _ _ Hl) as Hc.
    change ((c :: s) ++ w2) with (c :: (s ++ w2)).
    rewrite (lstrip_head c _ Hc).
    change (c :: (s ++ w2)) with ((c :: s) ++ w2).
    rewrite rev_app_distr.
    rewrite (lstrip_app_spaces _ _ (Forall_rev_iff _ _ F2)).
    rewrite Hr. apply rev_involutive.
Qed.

Lemma trimmed_ends (a b : char) (m : str) :
  isspace a = false -> isspace b = false -> trimmed (a :: m ++ [b]).
Proof.
  intros Ha Hb. split.
  - now apply lstrip_head.
  - change (a :: m ++ [b]) with ((a :: m) ++ [b]).
    rewrite rev_app_distr. cbn [rev app]. now apply lstrip_head.
Qed.

Lemma trimmed_one (a : char) : isspace a = false -> trimmed [a].
Proof. intros Ha. split; cbn [rev app]; now apply lstrip_head. Qed.

Lemma trimmed_app (s t : str) :
  s <> [] -> t <> [] -> trimmed s -> trimmed t ->
  forall m, trimmed (s ++ m ++ t).
Proof.
  intros Hs Ht [Hl _] [_ Hr] m. split.
  - destruct s as [|c s]; [now elim Hs|].
    pose proof (lstrip_fixed_head _ _ Hl) as Hc.
    cbn [app]. now apply lstrip_head.
  - rewrite !rev_app_distr.
    destruct (rev t) as [|c r] eqn:E.
    { apply (f_equal (@rev char)) in E. rewrite rev_involutive in E.
      now elim Ht. }
    pose proof (lstrip_fixed_head _ _ Hr) as Hc.
    cbn [app]. now apply lstrip_head.
Qed.

Lemma trimmed_plain (s : str) :
  Forall (fun c => isspace c = false) s -> trimmed s.
Proof.
  intros F. split.
  - destruct F; [reflexivity | now apply lstrip_head].
  - apply Forall_rev_iff in F. destruct F; [reflexivity | now apply lstrip_head].
Qed.

(** White space in front of a text adds no token. *)
Lemma split_lead (w s : str) :
  Forall (fun c => isspace c = true) w -> split (w ++ s) = split s.
Proof.
  induction 1 as [|c w Hc _ IH]; [reflexivity|].
  cbn [app]. now rewrite split_cons, Hc.
Qed.

Lemma split_head (c : char) (s : str) :
  isspace c = false -> split (c :: s) <> [].
Proof.
  intros Hc. rewrite split_cons, Hc.
  destruct s as [|c' s]; [discriminate|].
  destruct (isspace c'); [discriminate|].
  now destruct (split (c' :: s)).
Qed.

(** White space between two texts keeps their tokens apart. *)
Lemma split_app_space (a w b : str) :
  Forall (fun c => isspace c = true) w -> w <> [] ->
  split (a ++ w ++ b) = split a ++ split b.
Proof.
  intros Fw Hw. induction a as [|c a IH].
  - cbn [app]. now apply split_lead.
  - cbn [app]. rewrite !split_cons.
    destruct (isspace c) eqn:Hc; [exact IH|].
    destruct a as [|c' a'].
    + cbn [app]. destruct w as [|x w]; [now elim Hw|].
      inversion Fw as [|? ? Hx Fw']; subst. cbn [app]. rewrite Hx.
      change (x :: w ++ b) with ((x :: w) ++ b).
      now rewrite (split_lead _ _ Fw).
    + cbn [app] in *. destruct (isspace c') eqn:Hc'.
      * now rewrite IH.
      * rewrite IH. pose proof (split_head c' a' Hc') as Hne.
        now destruct (split (c' :: a')).
Qed.

(** White space after a text adds no token. *)
Lemma split_trail (s w : str) :
  Forall (fun c => isspace c = true) w -> split (s ++ w) = split s.
Proof.
  intros Fw. destruct w as [|x w]; [now rewrite app_nil_r|].
  rewrite <- (app_nil_r (x :: w)).
  rewrite split_app_space by (trivial; discriminate).
  apply app_nil_r.
Qed.

Lemma replace_colon_spaces (w : str) :
  Forall (fun c => isspace c = true) w -> replace_colon w = w.
Proof.
  intros F. apply replace_colon_id. eapply Forall_impl; [|exact F].
  intros c Hc ->. discriminate Hc.
Qed.

Lemma replace_colon_app (a b : str) :
  replace_colon (a ++ b) = replace_colon a ++ replace_colon b.
Proof. apply map_app. Qed.

(** [strip] before [split] changes nothing: the tokens of a text are the
    tokens of the stripped text. *)
Lemma split_strip (text : str) :
  split (replace_colon (strip text)) = split (replace_colon text).
Proof.
  destruct (strip_spec text) as (pre & suf & E & Fp & Fs).
  rewrite E at 2.
  rewrite !replace_colon_app, (replace_colon_spaces _ Fp),
    (replace_colon_spaces _ Fs).
  now rewrite split_lead, split_trail.
Qed.

Lemma split_numberless (s : str) :
  Forall (fun c => isdigit c = false /\ c <> dot /\ c <> dash) s ->
  Forall (fun t => keep_numeric t = []) (split s).
Proof.
  intros Fs. apply Forall_forall. intros t Ht. apply keep_numeric_none.
  apply Forall_forall. intros c Hc.
  apply (proj1 (Forall_forall _ _) Fs).
  assert (Hin : In c (List.concat (split s))) by (apply in_concat; eauto).
  rewrite split_concat in Hin. now apply filter_In in Hin.
Qed.

Lemma replace_colon_numberless (s : str) :
  Forall (fun c => isdigit c = false /\ c <> dot /\ c <> dash) s ->
  Forall (fun c => isdigit c = false /\ c <> dot /\ c <> dash)
         (replace_colon s).
Proof.
  intros F. apply Forall_forall. intros c Hc.
  apply in_map_iff in Hc as (c0 & E & Hc0).
  apply (proj1 (Forall_forall _ _) F) in Hc0.
  destruct (N.eqb_spec c0 colon); subst; [|exact Hc0].
  repeat split; discriminate.
Qed.

Lemma parse_tokens_numberless (tokens rest : list str) :
  Forall (fun t => keep_numeric t = []) tokens ->
  parse_tokens (tokens ++ rest) = parse_tokens rest.
Proof.
  induction 1 as [|t ts Ht _ IH]; [reflexivity|].
  cbn [app parse_tokens]. now rewrite Ht.
Qed.

End SplitFacts.

(** ** Round trips of the codec *)

Lemma encode_ascii_char (c : char) :
  (c <? 128)%N = true ->
  exists b, Byte.of_N c = Some b /\ Byte.to_N b = c.
Proof.
  intros Hc. apply N.ltb_lt in Hc.
  destruct (Byte.of_N c) as [b|] eqn:E.
  - exists b. split; [reflexivity|]. now apply Byte.to_of_N.
  - apply Byte.of_N_None_iff in E. lia.
Qed.

(** What [send_line] encodes, [recv_text] decodes: the characters of the
    text in the ASCII range, in order. *)
Lemma decode_encode_ascii (line : str) :
  utf8_decode errors_ignore (encode_ascii_ignore line)
  = Ok (filter (fun c => (c <? 128)%N) line).
Proof.
  induction line as [|c line IH]; [reflexivity|].
  unfold encode_ascii_ignore in *. cbn [flat_map filter].
  destruct (c <? 128)%N eqn:Hc; [|exact IH].
  destruct (encode_ascii_char c Hc) as (b & -> & Hb).
  cbn [app utf8_decode]. rewrite Hb, Hc, IH. reflexivity.
Qed.

(** Every byte [send_line] sends is in the ASCII range. *)
Lemma encode_ascii_bytes (line : str) :
  Forall (fun b => (Byte.to_N b < 128)%N) (encode_ascii_ignore line).
Proof.
  induction line as [|c line IH]; [constructor|].
  unfold encode_ascii_ignore in *. cbn [flat_map].
  destruct (c <? 128)%N eqn:Hc; [|exact IH].
  destruct (encode_ascii_char c Hc) as (b & -> & Hb).
  constructor; [|exact IH]. rewrite Hb. now apply N.ltb_lt.
Qed.

Lemma encode_ascii_length (line : str) :
  (List.length (encode_ascii_ignore line) <= List.length line)%nat.
Proof.
  induction line as [|c line IH]; [apply le_n|].
  unfold encode_ascii_ignore in *. cbn [flat_map].
  rewrite length_app. cbn [List.length].
  destruct (c <? 128)%N; [destruct (Byte.of_N c)|]; cbn [List.length]; lia.
Qed.

(** Decoding never gives more characters than there are bytes. *)
Lemma utf8_decode_ignore_length (data : list byte) :
  exists text, utf8_decode errors_ignore data = Ok text
               /\ (List.length text <= List.length data)%nat.
Proof.
  remember (List.length data) as n eqn:Hn.
  revert data Hn. induction n as [n IH] using lt_wf_ind. intros data Hn.
  assert (R : forall r, (List.length r < n)%nat ->
            exists t, utf8_decode errors_ignore r = Ok t
                      /\ (List.length t <= List.length r)%nat)
    by (intros r Hr; now apply (IH _ Hr)).
  clear IH.
  destruct data as [|b0 r0]; [exists []; split; [reflexivity | simpl; lia]|].
  simpl in Hn. cbn [utf8_decode on_error].
  repeat match goal with
         | |- context [if ?b then _ else _] => destruct b
         | |- context [match ?l with [] => _ | _ :: _ => _ end] =>
             is_var l; destruct l; simpl in Hn
         end;
  lazymatch goal with
  | |- exists t, Ok [] = Ok t /\ _ =>
      exists []; split; [reflexivity | simpl; lia]
  | |- exists t, emit ?c (utf8_decode errors_ignore ?r) = Ok t /\ _ =>
      let t := fresh "t" in let E := fresh "E" in let L := fresh "L" in
      destruct (R r ltac:(subst n; simpl; lia)) as (t & E & L);
      exists (c :: t); rewrite E; split; [reflexivity | simpl in *; lia]
  | |- exists t, utf8_decode errors_ignore ?r = Ok t /\ _ =>
      let t := fresh "t" in let E := fresh "E" in let L := fresh "L" in
      destruct (R r ltac:(subst n; simpl; lia)) as (t & E & L);
      exists t; split; [exact E | simpl in *; lia]
  end.
Qed.

Section RoundTrips.
Context {U : UnicodeData}.

Lemma contains_chars (p s : str) (c : char) :
  contains p s = true -> In c p -> In c s.
Proof.
  intros H Hc. apply contains_spec in H as (pre & suf & ->).
  apply in_or_app. right. apply in_or_app. now left.
Qed.

Lemma digits_of_length (tok : str) :
  (List.length (digits_of tok) <= List.length tok)%nat.
Proof.
  unfold digits_of, split_sign. destruct tok as [|c body]; [apply le_n|].
  destruct (c =? dash)%N; cbn [snd List.length]; lia.
Qed.

(** The numeral of [n] as a token: [int] reads it, when it has no more
    digits than the interpreter converts. *)
Lemma parse_tokens_numeral (n : Z) (rest : list str) :
  Z.of_nat (List.length (digits_of (str_of_Z n))) <= int_max_str_digits ->
  parse_tokens (str_of_Z n :: rest) = Ok (Some n).
Proof.
  intros Hlen.
  destruct (str_of_Z_facts n) as (Hne & _ & _ & Fk & _).
  cbn [parse_tokens]. rewrite (keep_numeric_id _ Fk).
  destruct (str_of_Z n) as [|c s] eqn:E; [now elim Hne|].
  rewrite <- E in *. unfold py_int, accepted_integer.
  destruct (Z.ltb_spec int_max_str_digits
              (Z.of_nat (List.length (digits_of (str_of_Z n))))); [lia|].
  now rewrite integer_literal_str_of_Z.
Qed.

(** The tokens of a label, white space, the numeral of [n] and white
    space: the tokens of the label, then the numeral. *)
Lemma labelled_tokens (label w1 w2 : str) (n : Z) :
  Forall (fun c => isspace c = true) w1 ->
  Forall (fun c => isspace c = true) w2 ->
  label = [] \/ w1 <> [] ->
  split (replace_colon (label ++ w1 ++ str_of_Z n ++ w2))
  = split (replace_colon label) ++ [str_of_Z n].
Proof.
  intros F1 F2 Hsep.
  destruct (str_of_Z_facts n) as (Hne & Fs & Fc & _).
  rewrite !replace_colon_app, (replace_colon_spaces _ F1),
    (replace_colon_spaces _ F2), (replace_colon_id _ Fc).
  assert (Enum : split (str_of_Z n ++ w2) = [str_of_Z n])
    by (now rewrite (split_trail _ _ F2), (split_one_token _ Hne Fs)).
  destruct w1 as [|x w1].
  - destruct Hsep as [-> | H]; [exact Enum | now elim H].
  - rewrite split_app_space by (trivial; discriminate). now rewrite Enum.
Qed.

(** X10: the decimal numeral of an integer of no more digits than [int]
    converts (4300) parses back to that integer, with any white space
    around it and after any label that holds no digit, ['.'] or ['-'] and
    is set off by white space. *)
Theorem parse_reads_back_integer (label w1 w2 : str) (n : Z) :
  Z.of_nat (List.length (digits_of (str_of_Z n))) <= int_max_str_digits ->
  Forall (fun c => isdigit c = false /\ c <> dot /\ c <> dash) label ->
  Forall (fun c => isspace c = true) w1 ->
  Forall (fun c => isspace c = true) w2 ->
  label = [] \/ w1 <> [] ->
  parse_freq_from_text (label ++ w1 ++ str_of_Z n ++ w2) = Ok (Some n).
Proof.
  intros Hlen Fl F1 F2 Hsep. unfold parse_freq_from_text.
  rewrite split_strip, (labelled_tokens _ _ _ _ F1 F2 Hsep).
  rewrite parse_tokens_numberless.
  - now apply parse_tokens_numeral.
  - apply split_numberless. now apply replace_colon_numberless.
Qed.

(** X11: a reply that echoes a frequency as a decimal numeral, with any
    white space around it, is taken as an acknowledgement exactly when the
    frequency is not negative. *)
Theorem echo_acknowledged (n : Z) (w1 w2 : str) :
  Forall (fun c => isspace c = true) w1 ->
  Forall (fun c => isspace c = true) w2 ->
  (set_acknowledged (w1 ++ str_of_Z n ++ w2) = true <-> 0 <= n).
Proof.
  intros F1 F2.
  destruct (str_of_Z_facts n) as (Hne & Fs & _ & _ & Hpos & Hneg).
  unfold set_acknowledged. rewrite (strip_padded w1 w2 _ F1 F2 Fs).
  assert (Hno : contains (of_string "RPRT 0") (w1 ++ str_of_Z n ++ w2) = false).
  { destruct (contains _ _) eqn:Hc; [|reflexivity].
    assert (HR : In 82%N (w1 ++ str_of_Z n ++ w2))
      by (apply (contains_chars _ _ _ Hc); now left).
    pose proof (str_of_Z_chars n) as Fd.
    apply in_app_or in HR as [HR|HR]; [|apply in_app_or in HR as [HR|HR]].
    - apply (proj1 (Forall_forall _ _) F1) in HR. discriminate HR.
    - apply (proj1 (Forall_forall _ _) Fd) in HR.
      destruct HR as [HR|[_ HR]]; [discriminate HR | elim (HR eq_refl)].
    - apply (proj1 (Forall_forall _ _) F2) in HR. discriminate HR. }
  rewrite Hno, orb_false_l, str_isdigit_spec. split.
  - intros [_ Fd]. destruct (Z.lt_ge_cases n 0) as [Hn|Hn]; [|exact Hn].
    destruct (Hneg Hn) as [rest E]. rewrite E in Fd.
    inversion Fd as [|? ? Hd _]. discriminate Hd.
  - intros Hn. split; [exact Hne | now apply Hpos].
Qed.

(** X12: a reply without any digit, ['.'] or ['-'], the empty reply
    included, parses to no value; it does not raise. *)
Theorem parse_without_number (text : str) :
  Forall (fun c => isdigit c = false /\ c <> dot /\ c <> dash) text ->
  parse_freq_from_text text = Ok None.
Proof.
  intros F. unfold parse_freq_from_text. rewrite split_strip.
  rewrite <- (app_nil_r (split _)). rewrite parse_tokens_numberless.
  - reflexivity.
  - apply split_numberless. now apply replace_colon_numberless.
Qed.

End RoundTrips.

(** ** Drift *)

Lemma last_cons_default {A : Type} (l : list A) (x d : A) :
  List.last (x :: l) d = List.last l x.
Proof.
  revert x d. induction l as [|y l IH]; intros x d; [reflexivity|].
  change (List.last (x :: y :: l) d) with (List.last (y :: l) d).
  now rewrite !IH.
Qed.

(** X9: a drift is never recorded as a change.  When every sample of a
    side is less than the threshold away from the sample before it, the
    side's last-change instant stays what it was and the clock is not even
    read, however far the last sample is from the first; the value stored
    is the last sample. *)
Theorem drift_is_not_a_change (k : side) (values : list Z) (v0 : Z) (st : state) :
  lookup (last (tr st)) k = Some v0 ->
  drifting (th (tr st)) v0 values ->
  let out := updates k values st in
  result_of out = Ok tt
  /\ lookup (last_change_time (tr (state_of out))) k
     = lookup (last_change_time (tr st)) k
  /\ clock_reads (state_of out) = clock_reads st
  /\ lookup (last (tr (state_of out))) k = Some (List.last values v0).
Proof.
  revert v0 st. induction values as [|v values IH]; intros v0 st Hlast Hd.
  - now repeat split.
  - destruct Hd as [Hv Hd]. cbv zeta. cbn [updates]. unfold bind.
    rewrite update_run.
    assert (Hc : changed (tr st) k v = false).
    { unfold changed. rewrite Hlast. apply Z.leb_gt. exact Hv. }
    rewrite Hc.
    set (st1 := with_tr st _).
    assert (Hlast1 : lookup (last (tr st1)) k = Some v)
      by (subst st1; cbn [tr with_tr last]; apply lookup_store_same).
    specialize (IH v st1 Hlast1 Hd). cbv zeta in IH.
    destruct IH as (R & Ht & Hr & Hl).
    destruct (updates k values st1) as [[r st2] ev2].
    unfold result_of, state_of in *; cbn [fst snd] in *.
    split; [exact R|]. split; [rewrite Ht; reflexivity|].
    split; [rewrite Hr; reflexivity|].
    rewrite Hl. now rewrite last_cons_default.
Qed.

(** ** Ties *)

Lemma SFeqb_leb (x y : spec_float) : SFeqb x y = true -> SFleb y x = true.
Proof.
  unfold SFeqb, SFleb, SFcompare.
  destruct x as [s|s| |s m e], y as [s'|s'| |s' m' e'];
    try destruct s; try destruct s'; try discriminate; try reflexivity;
    (assert (Hm : Pos.compare_cont Eq m' m = CompOpp (Pos.compare_cont Eq m m'))
       by (symmetry; apply (Pos.compare_cont_antisym m m' Eq)));
    rewrite (Z.compare_antisym e e'), Hm;
    destruct (e ?= e'); simpl; try discriminate; try reflexivity;
    destruct (Pos.compare_cont Eq m m'); simpl; try discriminate; reflexivity.
Qed.

(** ** Composition of steps *)

Lemma closed_app (ev1 ev2 : list event) :
  closed (ev1 ++ ev2) = closed ev1 ++ closed ev2.
Proof.
  induction ev1 as [|e ev1 IH]; [reflexivity|].
  destruct e; simpl; now rewrite IH.
Qed.

Lemma quiet_balanced (st st' : state) (ev : list event) :
  quiet st st' ev -> balanced st st' ev.
Proof.
  intros (Hc & Hn & He). unfold balanced, open_fds.
  rewrite Hc, Hn, He, Nat.sub_diag. simpl. rewrite app_nil_r.
  split; [lia | apply Permutation_refl].
Qed.

Lemma balanced_trans (st0 st1 st2 : state) (ev1 ev2 : list event) :
  balanced st0 st1 ev1 -> balanced st1 st2 ev2 ->
  balanced st0 st2 (ev1 ++ ev2).
Proof.
  intros [L1 P1] [L2 P2]. split; [lia|].
  rewrite closed_app, map_app, <- app_assoc.
  replace (next_fd st2 - next_fd st0)%nat
    with ((next_fd st1 - next_fd st0) + (next_fd st2 - next_fd st1))%nat by lia.
  rewrite seq_app.
  replace (next_fd st0 + (next_fd st1 - next_fd st0))%nat with (next_fd st1) by lia.
  eapply Permutation_trans; [apply Permutation_app_head; exact P2|].
  rewrite !app_assoc. apply Permutation_app_tail. exact P1.
Qed.

Lemma quiet_trans (st0 st1 st2 : state) (ev1 ev2 : list event) :
  quiet st0 st1 ev1 -> quiet st1 st2 ev2 -> quiet st0 st2 (ev1 ++ ev2).
Proof.
  intros (C1 & N1 & E1) (C2 & N2 & E2). repeat split; try congruence.
  now rewrite closed_app, E1, E2.
Qed.

Lemma bind_never_raises {A B : Type} (m : M A) (f : A -> M B) (st : state) :
  (exists a, result_of (m st) = Ok a) ->
  (forall a st1, exists b, result_of (f a st1) = Ok b) ->
  exists b, result_of (bind m f st) = Ok b.
Proof.
  intros [a Hm] Hf. unfold bind, result_of in *.
  destruct (m st) as [[r st1] ev1]. simpl in Hm. subst r.
  destruct (Hf a st1) as [b Hb]. destruct (f a st1) as [[r2 st2] ev2].
  simpl in *. now exists b.
Qed.

(** ** Steps that open and close nothing *)

Lemma quiet_refl (st : state) : quiet st st [].
Proof. repeat split. Qed.

Lemma sendall_quiet (s : socket) (data : list byte) (st : state) :
  quiet st (state_of (sendall s data st)) (events_of (sendall s data st)).
Proof.
  rewrite sendall_run.
  destruct (sends (lookup (remote st) (peer s))); repeat split.
Qed.

Lemma recv_quiet (s : socket) (n : nat) (st : state) :
  quiet st (state_of (recv s n st)) (events_of (recv s n st)).
Proof.
  rewrite recv_run. cbv zeta.
  destruct (recvs (lookup (remote st) (peer s))) as [|[data|e] rest];
    repeat split.
Qed.

Lemma update_quiet (k : side) (v : Z) (st : state) :
  quiet st (state_of (update k v st)) (events_of (update k v st)).
Proof.
  rewrite update_run. destruct (changed (tr st) k v); repeat split.
Qed.

Lemma track_quiet (wf_freq sdr_freq : option Z) (st : state) :
  quiet st (state_of (track wf_freq sdr_freq st))
        (events_of (track wf_freq sdr_freq st)).
Proof.
  unfold track. apply (bind_step quiet); [apply quiet_trans| |].
  - destruct wf_freq; [apply update_quiet | apply quiet_refl].
  - intros _ st1. destruct sdr_freq; [apply update_quiet | apply quiet_refl].
Qed.

Section QuietFacts.
Context {U : UnicodeData}.
Variable CHANGE_THRESHOLD_HZ : Z.

Lemma rigctl_get_freq_quiet (s : socket) (st : state) :
  quiet st (state_of (rigctl_get_freq s st)) (events_of (rigctl_get_freq s st)).
Proof.
  rewrite rigctl_get_freq_run.
  pose proof (sendall_quiet s get_line st) as H1.
  destruct (sendall s get_line st) as [[[[]|e] st1] ev1]; [|exact H1].
  pose proof (recv_quiet s 1024 st1) as H2.
  destruct (recv s 1024 st1) as [[[data|e] st2] ev2];
    exact (quiet_trans _ _ _ _ _ H1 H2).
Qed.

Lemma rigctl_set_freq_quiet (s : socket) (freq : Z) (st : state) :
  quiet st (state_of (rigctl_set_freq s freq st))
        (events_of (rigctl_set_freq s freq st)).
Proof.
  rewrite rigctl_set_freq_run.
  pose proof (sendall_quiet s (set_line freq) st) as H1.
  destruct (sendall s (set_line freq) st) as [[[[]|e] st1] ev1]; [|exact H1].
  pose proof (recv_quiet s 1024 st1) as H2.
  destruct (recv s 1024 st1) as [[[data|e] st2] ev2];
    exact (quiet_trans _ _ _ _ _ H1 H2).
Qed.

Lemma correct_quiet (ws ss : socket) (wf_freq sdr_freq : option Z) (st : state) :
  quiet st
    (state_of (correct CHANGE_THRESHOLD_HZ ws ss wf_freq sdr_freq st))
    (events_of (correct CHANGE_THRESHOLD_HZ ws ss wf_freq sdr_freq st)).
Proof.
  unfold correct.
  destruct wf_freq as [a|], sdr_freq as [b|]; try apply quiet_refl.
  destruct (CHANGE_THRESHOLD_HZ <=? Z.abs (a - b)); [|apply quiet_refl].
  rewrite bind_get_state.
  destruct (last_changed_side (tr st)) as [[|]|];
    (apply (bind_step quiet);
     [apply quiet_trans | apply rigctl_set_freq_quiet
     | intros; apply quiet_refl]).
Qed.

Lemma poll_quiet (ws ss : socket) (st : state) :
  quiet st (state_of (poll CHANGE_THRESHOLD_HZ ws ss st))
        (events_of (poll CHANGE_THRESHOLD_HZ ws ss st)).
Proof.
  unfold poll.
  apply (bind_step quiet); [apply quiet_trans | apply rigctl_get_freq_quiet|].
  intros fa s1.
  apply (bind_step quiet); [apply quiet_trans | apply rigctl_get_freq_quiet|].
  intros fb s2.
  apply (bind_step quiet); [apply quiet_trans | apply track_quiet|].
  intros _ s3.
  apply (bind_step quiet); [apply quiet_trans | apply correct_quiet|].
  intros _ s4. rewrite sleep_run. repeat split.
Qed.

End QuietFacts.

(** ** Connecting and disconnecting *)

Lemma connect_run (k : side) (st : state) :
  connect k st =
  let ep := lookup (remote st) k in
  match connects ep with
  | [] =>
      (Ok {| peer := k; fd := next_fd st |},
       with_next_fd st (S (next_fd st)), [EvConnect k])
  | None :: rest =>
      (Ok {| peer := k; fd := next_fd st |},
       with_next_fd
         (with_remote st (store (remote st) k
            {| connects := rest; sends := sends ep; recvs := recvs ep |}))
         (S (next_fd st)),
       [EvConnect k])
  | Some e :: rest =>
      (Raise e,
       with_remote st (store (remote st) k
         {| connects := rest; sends := sends ep; recvs := recvs ep |}),
       [EvConnect k])
  end.
Proof.
  unfold connect, bind, log_event, get_state, put_state, of_outcome, raise, ret.
  cbv zeta.
  destruct (connects (lookup (remote st) k)) as [|[e|] rest]; reflexivity.
Qed.

Lemma connect_side_run (k : side) (st : state) :
  connect_side k st =
  match lookup (conn st) k with
  | Some _ => (Ok tt, st, [])
  | None =>
      match connects (lookup (remote st) k) with
      | Some e :: rest =>
          (Raise e,
           with_remote st (store (remote st) k
             {| connects := rest;
                sends := sends (lookup (remote st) k);
                recvs := recvs (lookup (remote st) k) |}),
           [EvConnect k])
      | script =>
          (Ok tt,
           with_conn
             (with_next_fd
                (match script with
                 | [] => st
                 | _ :: rest =>
                     with_remote st (store (remote st) k
                       {| connects := rest;
                          sends := sends (lookup (remote st) k);
                          recvs := recvs (lookup (remote st) k) |})
                 end)
                (S (next_fd st)))
             (store (conn st) k (Some {| peer := k; fd := next_fd st |})),
           [EvConnect k])
      end
  end.
Proof.
  unfold connect_side. rewrite bind_get_state.
  destruct (lookup (conn st) k); [reflexivity|].
  unfold bind at 1. rewrite connect_run. cbv zeta.
  destruct (connects (lookup (remote st) k)) as [|[e|] rest]; reflexivity.
Qed.

Lemma connect_side_seconds (k : side) (st : state) :
  seconds (state_of (connect_side k st)) = seconds st.
Proof.
  rewrite connect_side_run.
  destruct (lookup (conn st) k); [reflexivity|].
  now destruct (connects (lookup (remote st) k)) as [|[e|] rest].
Qed.

Lemma ensure_connections_sides (st : state) :
  ensure_connections st = (connect_side wf;; connect_side sdr)%io st.
Proof.
  unfold ensure_connections, connect_side, bind, get_state, put_state, ret.
  destruct (lookup (conn st) wf).
  - destruct (lookup (conn st) sdr); [reflexivity|].
    destruct (connect sdr st) as [[[s'|e'] st2] ev2]; reflexivity.
  - destruct (connect wf st) as [[[s|e] st1] ev1]; [|reflexivity].
    cbn [app].
    destruct (lookup (conn (with_conn st1 (store (conn st1) wf (Some s)))) sdr);
      [reflexivity|].
    destruct (connect sdr (with_conn st1 (store (conn st1) wf (Some s))))
      as [[[s'|e'] st2] ev2]; cbn [app]; rewrite ?app_nil_r, ?app_assoc;
      reflexivity.
Qed.

Lemma connect_side_spec (k : side) (st : state) :
  let out := connect_side k st in
  balanced st (state_of out) (events_of out)
  /\ (result_of out = Ok tt ->
        exists s, lookup (conn (state_of out)) k = Some s)
  /\ lookup (conn (state_of out)) (other k) = lookup (conn st) (other k)
  /\ closed (events_of out) = [].
Proof.
  cbv zeta. rewrite connect_side_run.
  destruct (lookup (conn st) k) as [s0|] eqn:Hk.
  - split; [apply quiet_balanced, quiet_refl|].
    split; [intros _; now exists s0|]. now split.
  - assert (Hopen : forall st',
      next_fd st' = S (next_fd st) ->
      conn st' = store (conn st) k (Some {| peer := k; fd := next_fd st |}) ->
      balanced st st' [EvConnect k]).
    { intros st' Hn Hc. unfold balanced, open_fds. rewrite Hn, Hc.
      split; [lia|].
      replace (S (next_fd st) - next_fd st)%nat with 1%nat by lia.
      cbn [closed map app seq].
      destruct k; cbn [lookup store at_wf at_sdr fd] in *; rewrite Hk.
      - destruct (at_sdr (conn st)); cbn [app];
          [apply perm_swap | apply Permutation_refl].
      - destruct (at_wf (conn st)); cbn [app]; apply Permutation_refl. }
    destruct (connects (lookup (remote st) k)) as [|[e|] rest];
      unfold state_of, events_of, result_of; cbn [fst snd].
    + split; [now apply Hopen|]. cbn [conn with_conn].
      rewrite lookup_store_same, lookup_store_other. repeat split. eauto.
    + split; [apply quiet_balanced; repeat split|].
      split; [discriminate|]. now split.
    + split; [now apply Hopen|]. cbn [conn with_conn].
      rewrite lookup_store_same, lookup_store_other. repeat split. eauto.
Qed.

(** The connecting step keeps the account of sockets; when it succeeds
    both variables hold a socket. *)
Lemma ensure_connections_spec (st : state) :
  let out := ensure_connections st in
  balanced st (state_of out) (events_of out)
  /\ closed (events_of out) = []
  /\ (result_of out = Ok tt ->
        exists w s, conn (state_of out) = {| at_wf := Some w; at_sdr := Some s |}).
Proof.
  cbv zeta. rewrite ensure_connections_sides.
  destruct (connect_side_spec wf st) as (B1 & S1 & _ & C1).
  unfold bind.
  destruct (connect_side wf st) as [[[[]|e] st1] ev1];
    unfold state_of, events_of, result_of in *; cbn [fst snd] in *.
  - destruct (connect_side_spec sdr st1) as (B2 & S2 & O2 & C2).
    destruct (connect_side sdr st1) as [[[[]|e] st2] ev2];
      unfold state_of, events_of, result_of in *; cbn [fst snd other] in *.
    + split; [eapply balanced_trans; eassumption|].
      split; [now rewrite closed_app, C1, C2|]. intros _.
      destruct (S1 eq_refl) as [w Hw]. destruct (S2 eq_refl) as [s Hs].
      exists w, s. rewrite <- O2 in Hw.
      clear - Hw Hs. destruct (conn st2) as [cw cs]. simpl in *. congruence.
    + split; [eapply balanced_trans; eassumption|].
      split; [now rewrite closed_app, C1, C2 | discriminate].
  - split; [exact B1|]. split; [exact C1 | discriminate].
Qed.

Lemma ensure_connections_seconds (st : state) :
  seconds (state_of (ensure_connections st)) = seconds st.
Proof.
  rewrite ensure_connections_sides.
  seconds_step; apply connect_side_seconds.
Qed.

Lemma close_quietly_spec (so : option socket) (st : state) :
  let out := close_quietly so st in
  result_of out = Ok tt
  /\ events_of out = match so with Some s => [EvClose s] | None => [] end
  /\ conn (state_of out) = conn st /\ next_fd (state_of out) = next_fd st
  /\ tr (state_of out) = tr st /\ seconds (state_of out) = seconds st.
Proof.
  cbv zeta. destruct so as [s|].
  - rewrite close_quietly_run. destruct (closes st); repeat split.
  - repeat split.
Qed.

Lemma close_quietly_form (so : option socket) (st : state) :
  exists st',
    close_quietly so st
    = (Ok tt, st', match so with Some s => [EvClose s] | None => [] end)
    /\ conn st' = conn st /\ next_fd st' = next_fd st /\ tr st' = tr st
    /\ seconds st' = seconds st.
Proof.
  destruct (close_quietly_spec so st) as (R & E & C & N & T & S).
  destruct (close_quietly so st) as [[r st1] ev1].
  unfold result_of, events_of, state_of in *; cbn [fst snd] in *. subst.
  now exists st1.
Qed.

(** Dropping the connections closes every socket held, wfview's first,
    and clears both variables, whatever [close] does. *)
Lemma drop_connections_form (st : state) :
  exists st',
    drop_connections st
    = (Ok tt, st',
       match lookup (conn st) wf with Some s => [EvClose s] | None => [] end
       ++ match lookup (conn st) sdr with Some s => [EvClose s] | None => [] end)
    /\ conn st' = {| at_wf := None; at_sdr := None |}
    /\ next_fd st' = next_fd st
    /\ tr st' = tr st
    /\ seconds st' = seconds st.
Proof.
  unfold drop_connections. rewrite bind_get_state.
  destruct (close_quietly_form (lookup (conn st) wf) st)
    as (st1 & E1 & _ & N1 & T1 & S1).
  destruct (close_quietly_form (lookup (conn st) sdr) st1)
    as (st2 & E2 & _ & N2 & T2 & S2).
  unfold bind at 1. rewrite E1. unfold bind at 1. rewrite E2.
  unfold bind, get_state, put_state. cbn [app]. rewrite ?app_nil_r.
  eexists. split; [reflexivity|]. cbn [conn next_fd tr seconds with_conn].
  repeat split; congruence.
Qed.

Lemma drop_connections_spec (st : state) :
  let out := drop_connections st in
  result_of out = Ok tt
  /\ events_of out
     = match lookup (conn st) wf with Some s => [EvClose s] | None => [] end
       ++ match lookup (conn st) sdr with Some s => [EvClose s] | None => [] end
  /\ conn (state_of out) = {| at_wf := None; at_sdr := None |}
  /\ next_fd (state_of out) = next_fd st
  /\ tr (state_of out) = tr st
  /\ seconds (state_of out) = seconds st.
Proof.
  cbv zeta. destruct (drop_connections_form st) as (st' & -> & C & N & T & S).
  now repeat split.
Qed.

Lemma drop_connections_balanced (st : state) :
  balanced st (state_of (drop_connections st)) (events_of (drop_connections st)).
Proof.
  destruct (drop_connections_spec st) as (_ & E & C & N & _).
  unfold balanced, open_fds. rewrite E, C, N, Nat.sub_diag.
  split; [lia|].
  destruct (lookup (conn st) wf), (lookup (conn st) sdr); cbn;
    apply Permutation_refl.
Qed.

Lemma sleep_quiet (d : duration) (st : state) :
  quiet st (state_of (sleep d st)) (events_of (sleep d st)).
Proof. rewrite sleep_run. repeat split. Qed.

Lemma attempt_step (R : state -> state -> list event -> Prop)
    {A : Type} (m : M A) (st : state) :
  R st (state_of (m st)) (events_of (m st)) ->
  R st (state_of (attempt m st)) (events_of (attempt m st)).
Proof.
  unfold attempt, state_of, events_of. now destruct (m st) as [[r st1] ev1].
Qed.

(** Closing what is held and sleeping the reconnect wait: it ends as that
    sleep ends. *)
Lemma backoff_spec (st : state) :
  let out := (drop_connections;; sleep RECONNECT_WAIT)%io st in
  result_of out
  = outcome_result (time_sleep_error (seconds st RECONNECT_WAIT))
  /\ balanced st (state_of out) (events_of out)
  /\ conn (state_of out) = {| at_wf := None; at_sdr := None |}
  /\ events_of out = events_of (drop_connections st) ++ [EvSleep RECONNECT_WAIT]
  /\ seconds (state_of out) = seconds st.
Proof.
  cbv zeta.
  pose proof (drop_connections_balanced st) as B.
  destruct (drop_connections_form st) as (st' & E & C & _ & _ & S).
  unfold bind. rewrite E in *. rewrite sleep_run, S.
  unfold result_of, state_of, events_of in *; cbn [fst snd] in *.
  split; [reflexivity|]. split; [|now repeat split].
  destruct B as [L P]. split; [exact L|].
  now rewrite closed_app, app_nil_r.
Qed.

(** ** A turn of the loop, in general *)

Lemma poll_handler_spec (e : exn) (st : state) :
  let out := poll_handler e st in
  result_of out
  = outcome_result
      (time_sleep_error
         (seconds st (if is_io_error e then RECONNECT_WAIT else poll_sec)))
  /\ balanced st (state_of out) (events_of out)
  /\ (conn (state_of out) = {| at_wf := None; at_sdr := None |}
      \/ conn (state_of out) = conn st)
  /\ seconds (state_of out) = seconds st.
Proof.
  cbv zeta. unfold poll_handler. destruct (is_io_error e).
  - destruct (backoff_spec st) as (R & B & C & _ & S).
    split; [exact R|]. split; [exact B|]. split; [now left | exact S].
  - rewrite sleep_run. split; [reflexivity|].
    split; [apply quiet_balanced; repeat split|]. split; [now right|reflexivity].
Qed.

(** A result that is normal or an exception of [time.sleep] for one of the
    two durations. *)
Lemma outcome_of_sleep (secs : duration -> spec_float) (d : duration) :
  outcome_result (time_sleep_error (secs d)) = Ok tt
  \/ exists d' e, time_sleep_error (secs d') = Some e
                  /\ outcome_result (time_sleep_error (secs d)) = Raise e.
Proof.
  destruct (time_sleep_error (secs d)) as [e|] eqn:E; [|now left].
  right. now exists d, e.
Qed.

Section TurnFacts.
Context {U : UnicodeData}.
Variable CHANGE_THRESHOLD_HZ : Z.

Lemma iteration_form (st : state) :
  iteration CHANGE_THRESHOLD_HZ st =
  match ensure_connections st with
  | (Raise _, st1, ev1) =>
      let '(r, st2, ev2) := (drop_connections;; sleep RECONNECT_WAIT)%io st1 in
      (r, st2, ev1 ++ ev2)
  | (Ok _, st1, ev1) =>
      match lookup (conn st1) wf, lookup (conn st1) sdr with
      | Some w, Some s =>
          match poll CHANGE_THRESHOLD_HZ w s st1 with
          | (Ok _, st2, ev2) => (Ok tt, st2, ev1 ++ ev2)
          | (Raise e, st2, ev2) =>
              let '(r, st3, ev3) := poll_handler e st2 in
              (r, st3, ev1 ++ ev2 ++ ev3)
          end
      | _, _ => (Ok tt, st1, ev1)
      end
  end.
Proof.
  unfold iteration. unfold bind at 1, attempt.
  destruct (ensure_connections st) as [[[[]|e] st1] ev1]; [|reflexivity].
  rewrite bind_get_state.
  destruct (lookup (conn st1) wf) as [w|], (lookup (conn st1) sdr) as [s|];
    try (unfold ret; now rewrite app_nil_r).
  unfold bind, ret.
  destruct (poll CHANGE_THRESHOLD_HZ w s st1) as [[[[]|e] st2] ev2].
  - now rewrite app_nil_r.
  - now destruct (poll_handler e st2) as [[r st3] ev3].
Qed.

(** What a turn of the loop does from any state: it keeps the account of
    sockets and the durations, it ends with both connections or with
    none, and the only exceptions that leave it are those of
    [time.sleep]. *)
Lemma iteration_spec (st : state) :
  let out := iteration CHANGE_THRESHOLD_HZ st in
  (result_of out = Ok tt
   \/ exists d e, time_sleep_error (seconds st d) = Some e
                  /\ result_of out = Raise e)
  /\ balanced st (state_of out) (events_of out)
  /\ both_or_neither (conn (state_of out))
  /\ seconds (state_of out) = seconds st.
Proof.
  cbv zeta. rewrite iteration_form.
  destruct (ensure_connections_spec st) as (B1 & _ & S1).
  pose proof (ensure_connections_seconds st) as K1.
  destruct (ensure_connections st) as [[[[]|e] st1] ev1];
    unfold result_of, state_of, events_of in *; cbn [fst snd] in *.
  - destruct (S1 eq_refl) as (w & s & Hc). rewrite Hc. cbn [lookup at_wf at_sdr].
    pose proof (poll_quiet CHANGE_THRESHOLD_HZ w s st1) as Q.
    pose proof (poll_seconds CHANGE_THRESHOLD_HZ w s st1) as K2.
    destruct (poll CHANGE_THRESHOLD_HZ w s st1) as [[[[]|e] st2] ev2];
      unfold state_of, events_of in Q, K2; cbn [fst snd] in Q, K2.
    + cbn [fst snd]. split; [now left|]. split; [|split].
      * eapply balanced_trans; [exact B1 | apply quiet_balanced; exact Q].
      * right. exists w, s. destruct Q as (-> & _). exact Hc.
      * congruence.
    + destruct (poll_handler_spec e st2) as (R & B & C & K3).
      destruct (poll_handler e st2) as [[r st3] ev3].
      unfold result_of, state_of, events_of in *; cbn [fst snd] in *.
      split; [|split; [|split]].
      * rewrite R, K2, K1. apply outcome_of_sleep.
      * eapply balanced_trans; [exact B1|].
        eapply balanced_trans; [apply quiet_balanced; exact Q | exact B].
      * destruct C as [C|C]; [now left|].
        right. exists w, s. rewrite C. destruct Q as (-> & _). exact Hc.
      * congruence.
  - destruct (backoff_spec st1) as (R & B & C & _ & K2).
    destruct ((drop_connections;; sleep RECONNECT_WAIT)%io st1) as [[r st2] ev2].
    unfold result_of, state_of, events_of in *; cbn [fst snd] in *.
    split; [|split; [|split]].
    + rewrite R, K1. apply outcome_of_sleep.
    + eapply balanced_trans; eassumption.
    + now left.
    + congruence.
Qed.

(** The account of sockets over a run, however it ends. *)
Lemma main_loop_balanced (turns : nat) (st : state) :
  let out := main_loop CHANGE_THRESHOLD_HZ turns st in
  (next_fd st <= next_fd (state_of out))%nat
  /\ Permutation
       (map fd (closed (events_of out))
        ++ match result_of out with
           | Ok _ => []
           | Raise _ => open_fds (state_of out)
           end)
       (open_fds st ++ seq (next_fd st) (next_fd (state_of out) - next_fd st)).
Proof.
  revert st. induction turns as [|n IH]; intros st; cbv zeta.
  - cbn [main_loop]. rewrite bind_get_state.
    destruct (close_quietly_form (lookup (conn st) wf) st)
      as (st1 & E1 & C1 & N1 & _).
    destruct (close_quietly_form (lookup (conn st) sdr) st1)
      as (st2 & E2 & C2 & N2 & _).
    unfold bind. rewrite E1, E2.
    unfold result_of, state_of, events_of; cbn [fst snd].
    rewrite N2, N1, Nat.sub_diag. split; [lia|].
    unfold open_fds. cbn [seq]. rewrite !app_nil_r.
    destruct (lookup (conn st) wf), (lookup (conn st) sdr); cbn;
      apply Permutation_refl.
  - cbn [main_loop].
    destruct (iteration_spec st) as (_ & [L1 P1] & _).
    unfold bind.
    destruct (iteration CHANGE_THRESHOLD_HZ st) as [[[[]|e] st1] ev1];
      unfold result_of, state_of, events_of in *; cbn [fst snd] in *;
      [|split; [exact L1 | exact P1]].
    specialize (IH st1). cbv zeta in IH. destruct IH as (L2 & P2).
    destruct (main_loop CHANGE_THRESHOLD_HZ n st1) as [[r2 st2] ev2].
    unfold result_of, state_of, events_of in *; cbn [fst snd] in *.
    split; [lia|].
    rewrite closed_app, map_app, <- app_assoc.
    replace (next_fd st2 - next_fd st)%nat
      with ((next_fd st1 - next_fd st) + (next_fd st2 - next_fd st1))%nat by lia.
    rewrite seq_app.
    replace (next_fd st + (next_fd st1 - next_fd st))%nat with (next_fd st1) by lia.
    eapply Permutation_trans; [apply Permutation_app_head; exact P2|].
    rewrite !app_assoc. apply Permutation_app_tail. exact P1.
Qed.

(** With durations that [time.sleep] accepts the run ends normally. *)
Lemma main_loop_returns (turns : nat) (st : state) :
  (forall d, time_sleep_error (seconds st d) = None) ->
  result_of (main_loop CHANGE_THRESHOLD_HZ turns st) = Ok tt.
Proof.
  revert st. induction turns as [|n IH]; intros st Hsec.
  - cbn [main_loop]. rewrite bind_get_state.
    destruct (close_quietly_form (lookup (conn st) wf) st) as (st1 & E1 & _).
    destruct (close_quietly_form (lookup (conn st) sdr) st1) as (st2 & E2 & _).
    unfold bind. now rewrite E1, E2.
  - cbn [main_loop].
    destruct (iteration_spec st) as (R1 & _ & _ & K1).
    unfold bind.
    destruct (iteration CHANGE_THRESHOLD_HZ st) as [[r1 st1] ev1].
    unfold result_of, state_of in *; cbn [fst snd] in *.
    destruct R1 as [-> | (d & e & He & _)]; [|rewrite Hsec in He; discriminate].
    assert (Hsec1 : forall d, time_sleep_error (seconds st1 d) = None)
      by (intros d; now rewrite K1).
    specialize (IH st1 Hsec1).
    destruct (main_loop CHANGE_THRESHOLD_HZ n st1) as [[r2 st2] ev2].
    exact IH.
Qed.

End TurnFacts.

Lemma connect_side_frame (k : side) (st : state) :
  sent (events_of (connect_side k st)) = []
  /\ tr (state_of (connect_side k st)) = tr st.
Proof.
  rewrite connect_side_run.
  destruct (lookup (conn st) k); [now split|].
  destruct (connects (lookup (remote st) k)) as [|[e|] rest]; now split.
Qed.

Lemma ensure_connections_frame (st : state) :
  sent (events_of (ensure_connections st)) = []
  /\ tr (state_of (ensure_connections st)) = tr st.
Proof.
  rewrite ensure_connections_sides.
  destruct (connect_side_frame wf st) as [S1 T1]. unfold bind.
  destruct (connect_side wf st) as [[[[]|e] st1] ev1];
    unfold events_of, state_of in *; cbn [fst snd] in *; [|now split].
  destruct (connect_side_frame sdr st1) as [S2 T2].
  destruct (connect_side sdr st1) as [[r2 st2] ev2];
    unfold events_of, state_of in *; cbn [fst snd] in *.
  rewrite sent_app, S1, S2. split; [reflexivity | congruence].
Qed.

Section TickShape.
Context {U : UnicodeData}.
Variable CHANGE_THRESHOLD_HZ : Z.

(** What the correction block sends: nothing, or one set command that
    carries one reading to the other side. *)
Lemma correct_sent (ws ss : socket) (wf_freq sdr_freq : option Z) (st : state) :
  let l := sent (events_of (correct CHANGE_THRESHOLD_HZ ws ss wf_freq sdr_freq st)) in
  (l = []
   /\ correct CHANGE_THRESHOLD_HZ ws ss wf_freq sdr_freq st = (Ok tt, st, []))
  \/ exists a b, wf_freq = Some a /\ sdr_freq = Some b
       /\ Z.abs (a - b) >= CHANGE_THRESHOLD_HZ
       /\ (l = [(ss, set_line a)] \/ l = [(ws, set_line b)]).
Proof.
  cbv zeta.
  assert (Hcases :
    (forall x y, wf_freq = Some x -> sdr_freq = Some y ->
                 Z.abs (x - y) < CHANGE_THRESHOLD_HZ)
    \/ exists x y, wf_freq = Some x /\ sdr_freq = Some y
                   /\ CHANGE_THRESHOLD_HZ <= Z.abs (x - y)).
  { destruct wf_freq as [x|], sdr_freq as [y|];
      try (left; intros; discriminate).
    destruct (Z.lt_ge_cases (Z.abs (x - y)) CHANGE_THRESHOLD_HZ).
    - left. now intros ? ? [= <-] [= <-].
    - right. now exists x, y. }
  destruct Hcases as [Hidle|(a & b & -> & -> & Hth)].
  - left. rewrite (correct_idle _ _ _ _ _ _ Hidle). now split.
  - right. exists a, b. repeat split; [lia|].
    rewrite (correct_diverged _ _ _ _ _ _ Hth).
    destruct (last_changed_side (tr st)) as [[|]|];
      [left | right | left];
      match goal with
      | |- context [bind (rigctl_set_freq ?s ?x) _ st] =>
          exact (proj2 (set_then_ret_spec s x st))
      end.
Qed.

(** X3: in every tick, whatever the endpoints do, the lines sent are the
    query to wfview, then the query to rigctl, then at most one set
    command.  The set command is sent only after both queries returned
    numbers at least the threshold apart, and it carries one of these two
    numbers to the side that reported the other. *)
Theorem tick_sends_in_order (ws ss : socket) (st : state) :
  let l := sent (events_of (poll CHANGE_THRESHOLD_HZ ws ss st)) in
  l = [(ws, get_line)]
  \/ l = [(ws, get_line); (ss, get_line)]
  \/ exists a b st1 ev1 st2 ev2,
       rigctl_get_freq ws st = (Ok (Some a), st1, ev1)
       /\ rigctl_get_freq ss st1 = (Ok (Some b), st2, ev2)
       /\ Z.abs (a - b) >= CHANGE_THRESHOLD_HZ
       /\ (l = [(ws, get_line); (ss, get_line); (ss, set_line a)]
           \/ l = [(ws, get_line); (ss, get_line); (ws, set_line b)]).
Proof.
  cbv zeta.
  destruct (rigctl_get_freq_spec ws st) as (_ & S1 & _).
  destruct (rigctl_get_freq ws st) as [[[fa|e1] st1] ev1] eqn:H1;
    unfold events_of in S1; cbn [snd] in S1.
  2:{ left. unfold poll, bind. now rewrite H1. }
  destruct (rigctl_get_freq_spec ss st1) as (_ & S2 & _).
  destruct (rigctl_get_freq ss st1) as [[[fb|e2] st2] ev2] eqn:H2;
    unfold events_of in S2; cbn [snd] in S2.
  2:{ right. left. unfold poll. unfold bind at 1. rewrite H1.
      unfold bind at 1. rewrite H2. unfold events_of. cbn [snd].
      now rewrite sent_app, S1, S2. }
  rewrite (poll_run CHANGE_THRESHOLD_HZ _ _ _ _ _ _ _ _ _ H1 H2).
  destruct (correct_sent ws ss fa fb (state_of (track fa fb st2)))
    as [[Hl Hc]|(a & b & -> & -> & Hth & Hl)].
  - right. left. rewrite Hc. unfold events_of. cbn [snd].
    now rewrite !sent_app, S1, S2.
  - right. right. exists a, b, st1, ev1, st2, ev2.
    repeat split; trivial.
    destruct (correct CHANGE_THRESHOLD_HZ ws ss (Some a) (Some b) _)
      as [[[[]|e] st4] ev4];
      unfold events_of in *; cbn [snd] in *;
      rewrite !sent_app, S1, S2; cbn [app sent]; rewrite ?app_nil_r;
      destruct Hl as [-> | ->]; auto.
Qed.

(** X7: the answer to a set command does not matter to the tick: whenever
    the set command is sent and a reply is read, acknowledged or not, the
    tick goes on to the sleep of one poll interval and ends as that sleep
    ends, normally unless [time.sleep] refuses the interval. *)
Theorem unacknowledged_set_is_not_fatal (ws ss : socket) (st st1 st2 st4 : state)
    (ev1 ev2 ev4 : list event) (a b : Z) (ok : bool) :
  rigctl_get_freq ws st = (Ok (Some a), st1, ev1) ->
  rigctl_get_freq ss st1 = (Ok (Some b), st2, ev2) ->
  Z.abs (a - b) >= CHANGE_THRESHOLD_HZ ->
  let st3 := state_of (track (Some a) (Some b) st2) in
  match last_changed_side (tr st3) with
  | Some sdr => rigctl_set_freq ws b st3
  | _ => rigctl_set_freq ss a st3
  end = (Ok ok, st4, ev4) ->
  poll CHANGE_THRESHOLD_HZ ws ss st
  = (outcome_result (time_sleep_error (seconds st poll_sec)), st4,
     ev1 ++ ev2 ++ ev4 ++ [EvSleep poll_sec]).
Proof.
  intros H1 H2 Hth st3 Hset.
  rewrite (poll_run CHANGE_THRESHOLD_HZ _ _ _ _ _ _ _ _ _ H1 H2). fold st3.
  rewrite (correct_diverged CHANGE_THRESHOLD_HZ ws ss a b st3 ltac:(lia)).
  destruct (last_changed_side (tr st3)) as [[|]|];
    unfold bind, ret; rewrite Hset; now rewrite app_nil_r.
Qed.

(** X8: the threshold is not checked to be positive.  With a threshold of
    zero or less every tick in which both queries return a number sends a
    set command, also when the two numbers are equal. *)
Theorem nonpositive_threshold_always_corrects (ws ss : socket)
    (st st1 st2 : state) (ev1 ev2 : list event) (a b : Z) :
  CHANGE_THRESHOLD_HZ <= 0 ->
  rigctl_get_freq ws st = (Ok (Some a), st1, ev1) ->
  rigctl_get_freq ss st1 = (Ok (Some b), st2, ev2) ->
  let l := sent (events_of (poll CHANGE_THRESHOLD_HZ ws ss st)) in
  l = [(ws, get_line); (ss, get_line); (ss, set_line a)]
  \/ l = [(ws, get_line); (ss, get_line); (ws, set_line b)].
Proof.
  intros Hth H1 H2 l. subst l.
  destruct (poll_diverged CHANGE_THRESHOLD_HZ _ _ _ _ _ _ _ _ _ H1 H2
              ltac:(lia)) as [Hs _].
  rewrite Hs.
  destruct (last_changed_side _) as [[|]|]; auto.
Qed.

(** X4: when connecting fails in a turn of the loop, the turn sends
    nothing: it closes whatever socket it holds by then, clears both
    variables and sleeps the reconnect wait, the tracker being left as it
    was; it ends as that sleep ends, normally unless [time.sleep] refuses
    the reconnect wait. *)
Theorem connect_failure_backs_off (st st1 : state) (e : exn) (ev1 : list event) :
  ensure_connections st = (Raise e, st1, ev1) ->
  let out := iteration CHANGE_THRESHOLD_HZ st in
  result_of out
  = outcome_result (time_sleep_error (seconds st RECONNECT_WAIT))
  /\ events_of out
     = ev1
       ++ match lookup (conn st1) wf with Some s => [EvClose s] | None => [] end
       ++ match lookup (conn st1) sdr with Some s => [EvClose s] | None => [] end
       ++ [EvSleep RECONNECT_WAIT]
  /\ sent (events_of out) = []
  /\ conn (state_of out) = {| at_wf := None; at_sdr := None |}
  /\ tr (state_of out) = tr st.
Proof.
  intros He out. subst out. rewrite iteration_form, He.
  destruct (ensure_connections_frame st) as [Hs Ht]. rewrite He in Hs, Ht.
  pose proof (ensure_connections_seconds st) as Hk. rewrite He in Hk.
  unfold events_of, state_of in Hs, Ht, Hk. cbn [fst snd] in Hs, Ht, Hk.
  destruct (drop_connections_form st1) as (st2 & Hd & Hc & _ & Ht2 & Hk2).
  unfold bind. rewrite Hd, sleep_run, Hk2, Hk.
  unfold result_of, events_of, state_of. cbn [fst snd].
  split; [reflexivity|]. split; [now rewrite <- !app_assoc|].
  split; [|split; [exact Hc | congruence]].
  rewrite !sent_app, Hs.
  destruct (lookup (conn st1) wf), (lookup (conn st1) sdr); reflexivity.
Qed.

(** X5: a turn of the loop, from any state and whatever the endpoints do,
    ends with both connections or with none: the loop is never left half
    connected.  The only exceptions that leave a turn are those that
    [time.sleep] raises for the poll interval or the reconnect wait; with
    durations that [time.sleep] accepts none does. *)
Theorem turn_ends_connected_or_not (st : state) :
  let out := iteration CHANGE_THRESHOLD_HZ st in
  both_or_neither (conn (state_of out))
  /\ (result_of out = Ok tt
      \/ exists d e, time_sleep_error (seconds st d) = Some e
                     /\ result_of out = Raise e)
  /\ ((forall d, time_sleep_error (seconds st d) = None) ->
      result_of out = Ok tt).
Proof.
  cbv zeta.
  destruct (iteration_spec CHANGE_THRESHOLD_HZ st) as (R & _ & C & _).
  split; [exact C|]. split; [exact R|].
  intros Hsec. destruct R as [R | (d & e & He & _)]; [exact R|].
  rewrite Hsec in He. discriminate He.
Qed.

(** X6: over a whole run of [main], from the start to the clean-up after
    the loop, the sockets closed are exactly the sockets opened, each one
    once: [connect] numbers the sockets it opens from 3 on, and the
    numbers of the sockets closed are these numbers, in some order.  That
    is so when the run reaches its end, which it does whenever
    [time.sleep] accepts the poll interval and the reconnect wait; when an
    exception of [time.sleep] ends the run early, the sockets that were
    opened and not closed are the ones the variables still hold. *)
Theorem main_closes_what_it_opens (turns : nat) (threshold_hz : Z)
    (net : per_side endpoint) (close_outcomes : list (option exn))
    (clk : nat -> spec_float) (secs : duration -> spec_float) :
  let out := main_loop CHANGE_THRESHOLD_HZ turns
               (initial_state threshold_hz net close_outcomes clk secs) in
  Permutation
    (map fd (closed (events_of out))
     ++ match result_of out with
        | Ok _ => []
        | Raise _ => open_fds (state_of out)
        end)
    (seq 3 (next_fd (state_of out) - 3))
  /\ ((forall d, time_sleep_error (secs d) = None) ->
      result_of out = Ok tt
      /\ Permutation (map fd (closed (events_of out)))
                     (seq 3 (next_fd (state_of out) - 3))).
Proof.
  cbv zeta.
  destruct (main_loop_balanced CHANGE_THRESHOLD_HZ turns
              (initial_state threshold_hz net close_outcomes clk secs))
    as (_ & P).
  split; [exact P|]. intros Hsec.
  pose proof (main_loop_returns CHANGE_THRESHOLD_HZ turns
                (initial_state threshold_hz net close_outcomes clk secs) Hsec)
    as R.
  split; [exact R|]. rewrite R, app_nil_r in P. exact P.
Qed.

End TickShape.

(** ** Sockets are not used once closed *)

Lemma used_app (ev1 ev2 : list event) :
  used (ev1 ++ ev2) = used ev1 ++ used ev2.
Proof.
  induction ev1 as [|e ev1 IH]; [reflexivity|].
  destruct e; simpl; now rewrite IH.
Qed.

Lemma no_use_after_close_app (ev1 ev2 : list event) :
  no_use_after_close ev1 -> no_use_after_close ev2 ->
  (forall x, In x (map fd (closed ev1)) -> ~ In x (map fd (used ev2))) ->
  no_use_after_close (ev1 ++ ev2).
Proof.
  induction ev1 as [|e ev1 IH]; intros H1 H2 Hx; [exact H2|].
  destruct e; cbn [app no_use_after_close closed map] in *;
    try (apply IH; assumption).
  destruct H1 as [Hs H1]. split.
  - rewrite used_app, map_app. intros Hin. apply in_app_or in Hin as [Hin|Hin].
    + now apply Hs.
    + apply (Hx (fd s)); [now left | exact Hin].
  - apply IH; [exact H1 | exact H2 |]. intros x Hin. apply Hx. now right.
Qed.

Lemma no_use_after_close_unclosed (ev : list event) :
  closed ev = [] -> no_use_after_close ev.
Proof.
  induction ev as [|e ev IH]; [constructor|].
  destruct e; cbn [closed no_use_after_close]; try exact IH. discriminate.
Qed.

Lemma no_use_after_close_unused (ev : list event) :
  used ev = [] -> no_use_after_close ev.
Proof.
  induction ev as [|e ev IH]; [constructor|].
  destruct e; cbn [used no_use_after_close]; try exact IH; try discriminate.
  intros H. rewrite H. split; [intros [] | now apply IH].
Qed.

Lemma NoDup_app_disjoint {A : Type} (l l' : list A) (x : A) :
  NoDup (l ++ l') -> In x l -> ~ In x l'.
Proof.
  induction l as [|a l IH]; intros N Hin; [destruct Hin|].
  cbn [app] in N. inversion N as [|? ? Ha N']; subst.
  destruct Hin as [-> | Hin]; [|now apply IH].
  intros Hx. apply Ha. apply in_or_app. now right.
Qed.

(** A step that keeps the account of sockets keeps them tidy; what it
    closed is no longer held, and what is held afterwards was held before
    or is new. *)
Lemma balanced_tidy (st st' : state) (ev : list event) :
  tidy st -> balanced st st' ev ->
  tidy st'
  /\ (forall x, In x (map fd (closed ev)) -> ~ in_reach st' x)
  /\ (forall x, in_reach st' x -> in_reach st x).
Proof.
  intros [N F] [L P].
  assert (NR : NoDup (open_fds st
                      ++ seq (next_fd st) (next_fd st' - next_fd st))).
  { apply NoDup_app; [exact N | apply seq_NoDup|].
    intros x Hx Hs. apply in_seq in Hs.
    apply (proj1 (Forall_forall _ _) F) in Hx. lia. }
  assert (NL : NoDup (map fd (closed ev) ++ open_fds st'))
    by (eapply Permutation_NoDup; [apply Permutation_sym; exact P | exact NR]).
  assert (Hlt : forall x, In x (map fd (closed ev) ++ open_fds st') ->
                          (x < next_fd st')%nat
                          /\ (In x (open_fds st) \/ (next_fd st <= x)%nat)).
  { intros x Hx. apply (Permutation_in _ P) in Hx.
    apply in_app_or in Hx as [Hx|Hx].
    - split; [|now left]. apply (proj1 (Forall_forall _ _) F) in Hx. lia.
    - apply in_seq in Hx. split; [lia | right; lia]. }
  split; [split|split].
  - now apply NoDup_app_remove_l in NL.
  - apply Forall_forall. intros x Hx. apply Hlt. apply in_or_app. now right.
  - intros x Hx [Hin|Hge].
    + exact (NoDup_app_disjoint _ _ _ NL Hx Hin).
    + assert (x < next_fd st')%nat by (apply Hlt, in_or_app; now left). lia.
  - intros x [Hin|Hge].
    + apply Hlt. apply in_or_app. now right.
    + right. lia.
Qed.

Lemma sendall_used (s : socket) (data : list byte) (st : state) :
  used (events_of (sendall s data st)) = [s].
Proof. now rewrite (proj1 (sendall_spec s data st)). Qed.

Lemma recv_used (s : socket) (n : nat) (st : state) :
  used (events_of (recv s n st)) = [s].
Proof. now rewrite (proj1 (recv_spec s n st)). Qed.

Lemma touching_trans (P : socket -> Prop) (s0 s1 s2 : state)
    (e1 e2 : list event) :
  touching P s0 s1 e1 -> touching P s1 s2 e2 -> touching P s0 s2 (e1 ++ e2).
Proof.
  unfold touching. intros H1 H2. rewrite used_app. apply Forall_app. now split.
Qed.

Section UseFacts.
Context {U : UnicodeData}.
Variable CHANGE_THRESHOLD_HZ : Z.

Lemma rigctl_get_freq_used (P : socket -> Prop) (s : socket) (st : state) :
  P s ->
  touching P st (state_of (rigctl_get_freq s st))
           (events_of (rigctl_get_freq s st)).
Proof.
  intros Hs. unfold touching. rewrite rigctl_get_freq_run.
  pose proof (sendall_used s get_line st) as H1.
  destruct (sendall s get_line st) as [[[[]|e] st1] ev1];
    unfold events_of in *; cbn [snd] in *.
  - pose proof (recv_used s 1024 st1) as H2.
    destruct (recv s 1024 st1) as [[[data|e] st2] ev2];
      unfold events_of in *; cbn [snd] in *;
      rewrite used_app, H1, H2; repeat constructor; exact Hs.
  - rewrite H1. repeat constructor. exact Hs.
Qed.

Lemma rigctl_set_freq_used (P : socket -> Prop) (s : socket) (freq : Z)
    (st : state) :
  P s ->
  touching P st (state_of (rigctl_set_freq s freq st))
           (events_of (rigctl_set_freq s freq st)).
Proof.
  intros Hs. unfold touching. rewrite rigctl_set_freq_run.
  pose proof (sendall_used s (set_line freq) st) as H1.
  destruct (sendall s (set_line freq) st) as [[[[]|e] st1] ev1];
    unfold events_of in *; cbn [snd] in *.
  - pose proof (recv_used s 1024 st1) as H2.
    destruct (recv s 1024 st1) as [[[data|e] st2] ev2];
      unfold events_of in *; cbn [snd] in *;
      rewrite used_app, H1, H2; repeat constructor; exact Hs.
  - rewrite H1. repeat constructor. exact Hs.
Qed.

Lemma correct_used (P : socket -> Prop) (ws ss : socket)
    (wf_freq sdr_freq : option Z) (st : state) :
  P ws -> P ss ->
  touching P st
    (state_of (correct CHANGE_THRESHOLD_HZ ws ss wf_freq sdr_freq st))
    (events_of (correct CHANGE_THRESHOLD_HZ ws ss wf_freq sdr_freq st)).
Proof.
  intros Hw Hs. unfold correct.
  destruct wf_freq as [a|], sdr_freq as [b|]; try constructor.
  destruct (CHANGE_THRESHOLD_HZ <=? Z.abs (a - b)); [|constructor].
  rewrite bind_get_state.
  destruct (last_changed_side (tr st)) as [[|]|];
    (apply (bind_step (touching P));
     [apply touching_trans | now apply rigctl_set_freq_used
     | intros; constructor]).
Qed.

(** A tick writes to and reads from the two sockets it is given, no
    other. *)
Lemma poll_used (P : socket -> Prop) (ws ss : socket) (st : state) :
  P ws -> P ss ->
  touching P st (state_of (poll CHANGE_THRESHOLD_HZ ws ss st))
           (events_of (poll CHANGE_THRESHOLD_HZ ws ss st)).
Proof.
  intros Hw Hs. unfold poll.
  apply (bind_step (touching P));
    [apply touching_trans | now apply rigctl_get_freq_used|].
  intros fa s1.
  apply (bind_step (touching P));
    [apply touching_trans | now apply rigctl_get_freq_used|].
  intros fb s2.
  apply (bind_step (touching P)); [apply touching_trans | |].
  { unfold touching. now rewrite (proj1 (proj2 (track_spec fa fb s2))). }
  intros _ s3.
  apply (bind_step (touching P));
    [apply touching_trans | now apply correct_used|].
  intros _ s4. rewrite sleep_run. constructor.
Qed.

Lemma connect_side_unused (k : side) (st : state) :
  used (events_of (connect_side k st)) = [].
Proof.
  rewrite connect_side_run.
  destruct (lookup (conn st) k); [reflexivity|].
  now destruct (connects (lookup (remote st) k)) as [|[e|] rest].
Qed.

Lemma ensure_connections_unused (st : state) :
  used (events_of (ensure_connections st)) = [].
Proof.
  rewrite ensure_connections_sides.
  pose proof (connect_side_unused wf st) as H1. unfold bind.
  destruct (connect_side wf st) as [[[[]|e] st1] ev1];
    unfold events_of in *; cbn [snd] in *; [|exact H1].
  pose proof (connect_side_unused sdr st1) as H2.
  destruct (connect_side sdr st1) as [[r2 st2] ev2];
    unfold events_of in *; cbn [snd] in *.
  now rewrite used_app, H1, H2.
Qed.

Lemma backoff_unused (st : state) :
  used (events_of ((drop_connections;; sleep RECONNECT_WAIT)%io st)) = [].
Proof.
  destruct (backoff_spec st) as (_ & _ & _ & -> & _).
  destruct (drop_connections_spec st) as (_ & -> & _).
  rewrite used_app.
  now destruct (lookup (conn st) wf), (lookup (conn st) sdr).
Qed.

Lemma poll_handler_unused (e : exn) (st : state) :
  used (events_of (poll_handler e st)) = [].
Proof.
  unfold poll_handler. destruct (is_io_error e); [apply backoff_unused|].
  now rewrite sleep_run.
Qed.

Lemma held_in_reach (st : state) (w s : socket) :
  conn st = {| at_wf := Some w; at_sdr := Some s |} ->
  in_reach st (fd w) /\ in_reach st (fd s).
Proof.
  intros H. unfold in_reach, open_fds. rewrite H. cbn. tauto.
Qed.

(** A turn of the loop uses no socket after closing it, and uses only
    sockets held at its start or opened in it. *)
Lemma iteration_orderly (st : state) :
  tidy st ->
  let out := iteration CHANGE_THRESHOLD_HZ st in
  no_use_after_close (events_of out)
  /\ Forall (in_reach st) (map fd (used (events_of out))).
Proof.
  intros T. cbv zeta. rewrite iteration_form.
  destruct (ensure_connections_spec st) as (B1 & C1 & S1).
  pose proof (ensure_connections_unused st) as U1.
  destruct (ensure_connections st) as [[[[]|e] st1] ev1];
    unfold result_of, state_of, events_of in *; cbn [fst snd] in *.
  - destruct (balanced_tidy _ _ _ T B1) as (T1 & _ & R1).
    destruct (S1 eq_refl) as (w & s & Hc). rewrite Hc. cbn [lookup at_wf at_sdr].
    destruct (held_in_reach _ _ _ Hc) as [Rw Rs].
    pose proof (poll_quiet CHANGE_THRESHOLD_HZ w s st1) as (_ & _ & C2).
    pose proof (poll_used (fun x => in_reach st (fd x)) w s st1
                  (R1 _ Rw) (R1 _ Rs)) as U2.
    unfold touching in U2.
    destruct (poll CHANGE_THRESHOLD_HZ w s st1) as [[[[]|e] st2] ev2];
      unfold state_of, events_of in *; cbn [fst snd] in *.
    + split.
      * apply no_use_after_close_unclosed. now rewrite closed_app, C1, C2.
      * rewrite used_app, U1. cbn [app]. now apply Forall_map.
    + pose proof (poll_handler_unused e st2) as U3.
      destruct (poll_handler e st2) as [[r st3] ev3].
      unfold events_of in *; cbn [fst snd] in *. split.
      * rewrite app_assoc. apply no_use_after_close_app.
        -- apply no_use_after_close_unclosed. now rewrite closed_app, C1, C2.
        -- now apply no_use_after_close_unused.
        -- intros x _. now rewrite U3.
      * rewrite !used_app, U1, U3, app_nil_r. cbn [app]. now apply Forall_map.
  - pose proof (backoff_unused st1) as U2.
    destruct ((drop_connections;; sleep RECONNECT_WAIT)%io st1)
      as [[r st2] ev2].
    unfold events_of in *; cbn [fst snd] in *. split.
    + apply no_use_after_close_unused. now rewrite used_app, U1, U2.
    + rewrite used_app, U1, U2. constructor.
Qed.

Lemma main_loop_orderly (turns : nat) (st : state) :
  tidy st ->
  let out := main_loop CHANGE_THRESHOLD_HZ turns st in
  no_use_after_close (events_of out)
  /\ Forall (in_reach st) (map fd (used (events_of out))).
Proof.
  revert st. induction turns as [|n IH]; intros st T; cbv zeta.
  - cbn [main_loop]. rewrite bind_get_state.
    destruct (close_quietly_form (lookup (conn st) wf) st)
      as (st1 & E1 & _).
    destruct (close_quietly_form (lookup (conn st) sdr) st1)
      as (st2 & E2 & _).
    unfold bind. rewrite E1, E2. unfold events_of; cbn [snd].
    assert (Hu : used
      (match lookup (conn st) wf with Some s => [EvClose s] | None => [] end
       ++ match lookup (conn st) sdr with Some s => [EvClose s] | None => [] end)
      = [])
      by (now destruct (lookup (conn st) wf), (lookup (conn st) sdr)).
    split; [now apply no_use_after_close_unused|]. rewrite Hu. constructor.
  - cbn [main_loop].
    destruct (iteration_spec CHANGE_THRESHOLD_HZ st) as (_ & B1 & _).
    destruct (iteration_orderly st T) as [O1 R1].
    destruct (balanced_tidy _ _ _ T B1) as (T1 & Hclosed & Hreach).
    unfold bind.
    destruct (iteration CHANGE_THRESHOLD_HZ st) as [[[[]|e] st1] ev1];
      unfold state_of, events_of in *; cbn [fst snd] in *;
      [|now split].
    destruct (IH st1 T1) as [O2 R2].
    destruct (main_loop CHANGE_THRESHOLD_HZ n st1) as [[r2 st2] ev2].
    unfold events_of in *; cbn [fst snd] in *. split.
    + apply no_use_after_close_app; [exact O1 | exact O2|].
      intros x Hx Hin. apply (Hclosed x Hx).
      exact (proj1 (Forall_forall _ _) R2 _ Hin).
    + rewrite used_app, map_app. apply Forall_app. split; [exact R1|].
      eapply Forall_impl; [|exact R2]. intros x. apply Hreach.
Qed.

(** X22: over a whole run of [main], whatever the endpoints do and
    however the run ends, no socket is written to or read from after it
    has been closed: every query and every set command goes to a socket
    that is still open. *)
Theorem main_never_uses_closed_socket (turns : nat) (threshold_hz : Z)
    (net : per_side endpoint) (close_outcomes : list (option exn))
    (clk : nat -> spec_float) (secs : duration -> spec_float) :
  no_use_after_close
    (events_of (main_loop CHANGE_THRESHOLD_HZ turns
                  (initial_state threshold_hz net close_outcomes clk secs))).
Proof.
  apply main_loop_orderly. split; constructor.
Qed.

End UseFacts.

(** ** The polling period *)

Lemma SFltb_leb (x y : spec_float) : SFltb x y = true -> SFleb x y = true.
Proof.
  unfold SFltb, SFleb. now destruct (SFcompare x y) as [[| |]|].
Qed.

Lemma float_of_int_negative (n : Z) (x : spec_float) :
  n < 0 -> float_of_int n = Ok x ->
  x = S754_zero true \/ exists m e, x = S754_finite true m e.
Proof.
  intros Hn. unfold float_of_int, binary64_of_ratio.
  destruct (Z.ltb_spec n 0) as [_|]; [|lia].
  destruct (Z.abs n =? 0); [intros [= <-]; now left|].
  cbv zeta.
  match goal with
  | |- context [let '(m, q) := ?p in _] => destruct p as [m q]
  end.
  destruct m as [|p|p]; try (intros [= <-]; now left).
  destruct (971 <? q); [discriminate|].
  intros [= <-]. right. now exists p, q.
Qed.

Lemma SFdiv_negative (x y : spec_float) :
  (x = S754_zero true \/ exists m e, x = S754_finite true m e) ->
  (exists m e, y = S754_finite false m e) ->
  forall a, (exists m e, a = S754_finite false m e) ->
  SFltb a (SFdiv 53 1024 x y) = false.
Proof.
  intros Hx (my & ey & ->) a (ma & ea & ->).
  destruct Hx as [-> | (mx & ex & ->)]; [reflexivity|].
  unfold SFdiv. cbn [xorb].
  destruct (SFdiv_core_binary 53 1024 (Z.pos mx) ex (Z.pos my) ey)
    as [[mz ez] lz].
  unfold binary_round_aux.
  destruct (shr_fexp 53 1024 mz ez lz) as [mrs e'].
  destruct (shr_fexp 53 1024 _ e' loc_Exact) as [mrs' e''].
  destruct (shr_m mrs') as [|p|p]; try reflexivity.
  now destruct (e'' <=? 1024 - 53).
Qed.

(** X17: the polling period is never below 0.02 s, and it is exactly
    0.02 s for every [POLL_MS] from 0 to 20 and for every negative one
    that a float can hold. *)
Theorem poll_sec_floor (POLL_MS : Z) :
  (forall s, poll_sec_value POLL_MS = Ok s -> SFleb float_0_02 s = true)
  /\ (0 <= POLL_MS <= 20 -> poll_sec_value POLL_MS = Ok float_0_02)
  /\ (POLL_MS < 0 ->
      poll_sec_value POLL_MS = Ok float_0_02
      \/ poll_sec_value POLL_MS = Raise OverflowError).
Proof.
  split; [|split].
  - intros s. unfold poll_sec_value.
    destruct (float_of_int POLL_MS) as [x|e]; [|discriminate].
    cbn [result_bind]. intros [= <-]. unfold py_max.
    destruct (SFltb float_0_02 _) eqn:E; [now apply SFltb_leb|].
    vm_compute. reflexivity.
  - intros H.
    assert (F : Forall (fun z => poll_sec_value z = Ok float_0_02)
                  (map Z.of_nat (seq 0 21)))
      by (cbn [map seq]; repeat (apply Forall_cons; [vm_compute; reflexivity|]);
          apply Forall_nil).
    apply (proj1 (Forall_forall _ _) F).
    apply in_map_iff. exists (Z.to_nat POLL_MS). split; [lia|].
    apply in_seq. lia.
  - intros H. unfold poll_sec_value.
    destruct (float_of_int POLL_MS) as [x|e] eqn:E.
    + left. cbn [result_bind]. unfold py_max.
      rewrite (SFdiv_negative x float_1000); try reflexivity.
      * now apply (float_of_int_negative POLL_MS).
      * vm_compute. eauto.
      * vm_compute. eauto.
    + right. revert E. unfold float_of_int.
      destruct (binary64_of_ratio _ _ _); try discriminate.
      now intros [= <-].
Qed.



(** ** Lines on the wire, both ways *)

(** X18: whatever line it is given, [send_line] writes one message, which
    ends with a newline byte after bytes in the ASCII range, no more of
    them than the line has characters; a line that ends with a newline is
    sent as it is, without a second one. *)
Theorem send_line_frames (s : socket) (line : str) (st : state) :
  exists body,
    events_of (send_line s line st) = [EvSend s (body ++ [x0a])]
    /\ Forall (fun b => (Byte.to_N b < 128)%N) body
    /\ (List.length body <= List.length line)%nat
    /\ (forall pre, line = pre ++ LF -> body = encode_ascii_ignore pre).
Proof.
  unfold send_line.
  assert (Henc : forall pre,
            encode_ascii_ignore (pre ++ LF) = encode_ascii_ignore pre ++ [x0a]).
  { intros pre. unfold encode_ascii_ignore. now rewrite flat_map_app. }
  destruct (starts_with (rev LF) (rev line)) eqn:E.
  - apply starts_with_inv in E as [suf E]. cbn [rev LF app] in E.
    apply (f_equal (@rev char)) in E. rewrite rev_involutive in E.
    cbn [rev] in E. subst line.
    exists (encode_ascii_ignore (rev suf)).
    rewrite Henc. split; [apply sendall_spec|].
    split; [apply encode_ascii_bytes|]. split.
    + rewrite length_app. pose proof (encode_ascii_length (rev suf)). lia.
    + intros pre Hp. apply app_inj_tail in Hp as [-> _]. reflexivity.
  - exists (encode_ascii_ignore line).
    rewrite Henc. split; [apply sendall_spec|].
    split; [apply encode_ascii_bytes|]. split; [apply encode_ascii_length|].
    intros pre ->. rewrite rev_app_distr in E. cbn [rev LF app] in E.
    cbn [starts_with] in E. now rewrite N.eqb_refl in E.
Qed.

(** X19: [recv_text] returns at most [max_bytes] characters: a reply
    longer than that is cut, and the rest is left for the next read. *)
Theorem recv_text_bounded (s : socket) (max_bytes : nat) (st : state)
    (text : str) :
  result_of (recv_text s max_bytes st) = Ok text ->
  (List.length text <= max_bytes)%nat.
Proof.
  rewrite recv_text_run.
  destruct (recv_spec s max_bytes st) as (_ & _ & Hlen).
  destruct (recv s max_bytes st) as [[[data|e] st1] ev];
    unfold result_of in *; cbn [fst] in *; [|discriminate].
  destruct (utf8_decode_ignore_length data) as (t & -> & Ht).
  intros [= <-]. specialize (Hlen data eq_refl). lia.
Qed.

Section WireFacts.
Context {U : UnicodeData}.
Variable CHANGE_THRESHOLD_HZ : Z.

Lemma filter_all {A : Type} (f : A -> bool) (l : list A) :
  Forall (fun x => f x = true) l -> filter f l = l.
Proof.
  induction 1 as [|x l Hx _ IH]; [reflexivity|]. cbn. now rewrite Hx, IH.
Qed.

(** X20: a query reads back what a peer writes.  When the send succeeds
    and the peer's next reply is the ASCII text of a frequency, of at most
    1024 characters: the decimal numeral of [n], with any white space
    around it and after any label that holds no digit, ['.'] or ['-'],
    then [rigctl_get_freq] returns [n]. *)
Theorem query_reads_back (s : socket) (st : state) (label w1 w2 : str)
    (n : Z) (rest : list (result (list byte))) :
  result_of (sendall s get_line st) = Ok tt ->
  recvs (lookup (remote st) (peer s))
  = Ok (encode_ascii_ignore (label ++ w1 ++ str_of_Z n ++ w2)) :: rest ->
  Forall (fun c => (c <? 128)%N = true) (label ++ w1 ++ str_of_Z n ++ w2) ->
  (List.length (label ++ w1 ++ str_of_Z n ++ w2) <= 1024)%nat ->
  Forall (fun c => isdigit c = false /\ c <> dot /\ c <> dash) label ->
  Forall (fun c => isspace c = true) w1 ->
  Forall (fun c => isspace c = true) w2 ->
  label = [] \/ w1 <> [] ->
  result_of (rigctl_get_freq s st) = Ok (Some n).
Proof.
  intros Hsend Hrecv Hascii Hlen Fl F1 F2 Hsep.
  set (reply := label ++ w1 ++ str_of_Z n ++ w2) in *.
  rewrite rigctl_get_freq_run.
  assert (Hst : forall st1 ev1 r, sendall s get_line st = (r, st1, ev1) ->
            recvs (lookup (remote st1) (peer s))
            = recvs (lookup (remote st) (peer s))).
  { intros st1 ev1 r. rewrite sendall_run.
    destruct (sends (lookup (remote st) (peer s))) as [|o os];
      intros [= _ <- _]; [reflexivity|].
    cbn [remote with_remote]. now rewrite lookup_store_same. }
  destruct (sendall s get_line st) as [[[[]|e] st1] ev1] eqn:E1;
    [|discriminate Hsend].
  specialize (Hst _ _ _ eq_refl). rewrite Hrecv in Hst.
  rewrite recv_run. cbv zeta. rewrite Hst.
  unfold result_of. cbn [fst].
  rewrite firstn_all2
    by (pose proof (encode_ascii_length reply); lia).
  rewrite decode_encode_ascii, (filter_all _ _ Hascii). cbn [result_bind].
  assert (Hdigits : Z.of_nat (List.length (digits_of (str_of_Z n)))
                    <= int_max_str_digits).
  { pose proof (digits_of_length (str_of_Z n)) as Hd.
    subst reply. rewrite !length_app in Hlen.
    unfold int_max_str_digits. lia. }
  subst reply. unfold parse_freq_from_text.
  rewrite split_strip, (labelled_tokens _ _ _ _ F1 F2 Hsep).
  rewrite parse_tokens_numberless.
  - now apply parse_tokens_numeral.
  - apply split_numberless. now apply replace_colon_numberless.
Qed.

(** X21: when the two sides' last changes carry the same instant, zero or
    not, a tick that finds them at least the threshold apart takes wfview
    as the source: the only command it sends sets rigctl to wfview's
    frequency. *)
Theorem equal_instants_prefer_wfview (ws ss : socket) (st st1 st2 : state)
    (ev1 ev2 : list event) (a b : Z) :
  rigctl_get_freq ws st = (Ok (Some a), st1, ev1) ->
  rigctl_get_freq ss st1 = (Ok (Some b), st2, ev2) ->
  CHANGE_THRESHOLD_HZ <= Z.abs (a - b) ->
  let t := tr (state_of (track (Some a) (Some b) st2)) in
  SFeqb (lookup (last_change_time t) wf) (lookup (last_change_time t) sdr)
  = true ->
  last_changed_side t <> Some sdr
  /\ sent (events_of (poll CHANGE_THRESHOLD_HZ ws ss st))
     = [(ws, get_line); (ss, get_line); (ss, set_line a)].
Proof.
  intros H1 H2 Hth t Heq.
  assert (Hside : last_changed_side t <> Some sdr).
  { unfold last_changed_side.
    rewrite (SFeqb_leb _ _ Heq).
    now destruct (_ && _). }
  split; [exact Hside|].
  destruct (poll_diverged CHANGE_THRESHOLD_HZ _ _ _ _ _ _ _ _ _ H1 H2 Hth)
    as [Hs _].
  fold t in Hs. rewrite Hs.
  destruct (last_changed_side t) as [[|]|]; try reflexivity.
  now elim Hside.
Qed.

End WireFacts.

(** ** The environment file *)

Lemma environ_has_spec (env : environ) (k : str) :
  environ_has env k = false <-> environ_get env k = None.
Proof.
  unfold environ_has. destruct (environ_get env k); split; congruence.
Qed.

Lemma environ_get_app (added env : environ) (k : str) :
  ~ In k (map fst added) ->
  environ_get (added ++ env) k = environ_get env k.
Proof.
  induction added as [|[k' v'] added IH]; intros Hk; [reflexivity|].
  simpl in *. destruct (list_eq_dec N.eq_dec k' k); [tauto|].
  apply IH. tauto.
Qed.

Lemma environ_get_in (env : environ) (k v : str) :
  environ_get env k = Some v -> In k (map fst env).
Proof.
  induction env as [|[k' v'] env IH]; [discriminate|]. simpl.
  destruct (list_eq_dec N.eq_dec k' k); [now left | right; now apply IH].
Qed.

Lemma extends_refl (env : environ) : extends env env.
Proof. exists []. repeat split; constructor. Qed.

Lemma environ_get_none_app (added env : environ) (k : str) :
  environ_get (added ++ env) k = None ->
  ~ In k (map fst added) /\ environ_get env k = None.
Proof.
  induction added as [|[k' v'] added IH]; simpl; [tauto|].
  destruct (list_eq_dec N.eq_dec k' k); [discriminate|].
  intros H. apply IH in H. tauto.
Qed.

Lemma extends_trans (e1 e2 e3 : environ) :
  extends e1 e2 -> extends e2 e3 -> extends e1 e3.
Proof.
  intros (a1 & -> & N1 & F1) (a2 & -> & N2 & F2).
  exists (a2 ++ a1). split; [now rewrite app_assoc|].
  assert (Hnew : forall kv, In kv a2 ->
            fst kv <> [] /\ ~ In (fst kv) (map fst a1)
            /\ environ_get e1 (fst kv) = None).
  { intros kv Hin.
    pose proof (proj1 (Forall_forall _ _) F2 _ Hin) as [Hne Hnone].
    apply environ_get_none_app in Hnone. tauto. }
  split.
  - rewrite map_app. apply NoDup_app; [exact N2 | exact N1 |].
    intros k H2. apply in_map_iff in H2 as (kv & Hk & H2). subst k.
    now apply Hnew.
  - apply Forall_app. split; [|exact F1].
    apply Forall_forall. intros kv Hin. apply Hnew in Hin. tauto.
Qed.

Section EnvFileFacts.
Context {U : UnicodeData}.
Variable setenv_error : str -> str -> option exn.
Variable files : str -> option (list (result str)).

Lemma read_lines_extends (lines : list (result str)) (env : environ) :
  extends env (fst (read_lines setenv_error env lines)).
Proof.
  revert env. induction lines as [|[raw|e] rest IH]; intros env;
    cbn [read_lines]; try apply extends_refl.
  destruct (negb (non_empty (strip raw)) || starts_with [hash] (strip raw));
    [apply IH|].
  destruct (negb (contains [equals] (strip raw))); [apply IH|].
  destruct (split_once equals (strip raw)) as [k v].
  destruct (non_empty (strip k)) eqn:Hk; cbn [andb]; [|apply IH].
  destruct (environ_has env (strip k)) eqn:Hh; cbn [negb]; [apply IH|].
  destruct (setenv_error _ _); [apply extends_refl|].
  eapply extends_trans; [|apply IH].
  exists [(strip k, strip_char single_quote
                      (strip_char double_quote (strip v)))].
  split; [reflexivity|]. split.
  - constructor; [intros []|constructor].
  - constructor; [|constructor]. cbn [fst]. split.
    + intros E. rewrite E in Hk. discriminate.
    + now apply environ_has_spec.
Qed.

Lemma load_candidates_extends (candidates : list str) (env : environ) :
  extends env (load_candidates setenv_error files env candidates).
Proof.
  revert env. induction candidates as [|path rest IH]; intros env;
    cbn [load_candidates]; [apply extends_refl|].
  destruct (if non_empty path then files path else None) as [lines|];
    [|apply IH].
  pose proof (read_lines_extends lines env) as E.
  destruct (read_lines setenv_error env lines) as [env' [e|]]; cbn [fst] in E;
    [|exact E].
  eapply extends_trans; [exact E | apply IH].
Qed.

Lemma extends_get (env env' : environ) (k v : str) :
  extends env env' ->
  environ_get env k = Some v -> environ_get env' k = Some v.
Proof.
  intros (added & -> & _ & F) H.
  rewrite environ_get_app; [exact H|].
  intros Hin. apply in_map_iff in Hin as (kv & Ek & Hin).
  pose proof (proj1 (Forall_forall _ _) F _ Hin) as [_ Hnone].
  destruct kv as [k' v']. cbn [fst] in *. subst k'.
  rewrite H in Hnone. discriminate Hnone.
Qed.

(** X13: loading the environment file only adds variables: what it leaves
    is the environment it found with new bindings in front, each for a
    name that is not empty, was not set, and is added once; so every
    variable that was set keeps its value, whatever the files hold. *)
Theorem env_file_never_overrides (repo_env local_env : str) (env : environ) :
  extends env (_load_env_file setenv_error files repo_env local_env env)
  /\ forall k v, environ_get env k = Some v ->
       environ_get (_load_env_file setenv_error files repo_env local_env env) k
       = Some v.
Proof.
  assert (E : extends env
            (_load_env_file setenv_error files repo_env local_env env))
    by apply load_candidates_extends.
  split; [exact E|]. intros k v. now apply extends_get.
Qed.

(** X14: the first candidate that is a regular file and is read to its end
    without an exception is the only one loaded: the candidates before it
    are skipped and the ones after it are never opened. *)
Theorem env_file_first_readable_wins
    (before after : list str) (path : str) (lines : list (result str))
    (env env' : environ) :
  Forall (fun p => p = [] \/ files p = None) before ->
  path <> [] ->
  files path = Some lines ->
  read_lines setenv_error env lines = (env', None) ->
  load_candidates setenv_error files env (before ++ path :: after) = env'.
Proof.
  intros Hb Hp Hf Hr.
  induction Hb as [|p before Hp' _ IH]; cbn [app load_candidates].
  - destruct path as [|c path]; [now elim Hp|]. cbn [non_empty].
    now rewrite Hf, Hr.
  - destruct Hp' as [-> | Hn]; cbn [non_empty]; [exact IH|].
    destruct (non_empty p); [rewrite Hn|]; exact IH.
Qed.

(** X15: an exception while a candidate is read does not undo what that
    file has set already, and the search goes on: the variables set by then
    stay, and a later candidate can only add names still free. *)
Theorem env_file_error_keeps_partial
    (path : str) (after : list str) (lines : list (result str))
    (env env' : environ) (e : exn) (k v : str) :
  path <> [] ->
  files path = Some lines ->
  read_lines setenv_error env lines = (env', Some e) ->
  environ_get env' k = Some v ->
  environ_get (load_candidates setenv_error files env (path :: after)) k
  = Some v.
Proof.
  intros Hp Hf Hr Hk. cbn [load_candidates].
  destruct path as [|c path]; [now elim Hp|]. cbn [non_empty].
  rewrite Hf, Hr. eapply extends_get; [apply load_candidates_extends | exact Hk].
Qed.

Lemma lstrip_char_id (c : char) (s : str) :
  Forall (fun x => x <> c) s -> lstrip_char c s = s.
Proof.
  intros F. destruct F as [|x s Hx _]; [reflexivity|]. simpl.
  now destruct (N.eqb_spec x c).
Qed.

Lemma strip_char_id (c : char) (s : str) :
  Forall (fun x => x <> c) s -> strip_char c s = s.
Proof.
  intros F. unfold strip_char. rewrite (lstrip_char_id c s F).
  rewrite lstrip_char_id; [apply rev_involutive|].
  now apply Forall_rev_iff.
Qed.

Lemma strip_char_quoted (c : char) (s : str) :
  Forall (fun x => x <> c) s -> strip_char c (c :: s ++ [c]) = s.
Proof.
  intros F. unfold strip_char. cbn [lstrip_char]. rewrite N.eqb_refl.
  destruct s as [|x s].
  - cbn. now rewrite N.eqb_refl.
  - assert (E : lstrip_char c ((x :: s) ++ [c]) = (x :: s) ++ [c]).
    { inversion F; subst. cbn. now destruct (N.eqb_spec x c). }
    rewrite E, rev_app_distr. cbn [rev app lstrip_char].
    rewrite N.eqb_refl.
    change (rev s ++ [x]) with (rev (x :: s)).
    rewrite lstrip_char_id; [apply rev_involutive|].
    now apply Forall_rev_iff.
Qed.

Lemma split_once_first (sep : char) (a b : str) :
  Forall (fun x => x <> sep) a ->
  split_once sep (a ++ sep :: b) = (a, b).
Proof.
  induction 1 as [|x a Hx _ IH]; cbn [app split_once].
  - now rewrite N.eqb_refl.
  - destruct (N.eqb_spec x sep); [contradiction|]. now rewrite IH.
Qed.

Lemma space_not_equals (w : str) :
  Forall (fun c => isspace c = true) w -> Forall (fun x => x <> equals) w.
Proof.
  intros F. eapply Forall_impl; [|exact F]. intros c Hc ->. discriminate Hc.
Qed.

Lemma written_value (v val : str) :
  Forall (fun c => isspace c = false /\ c <> double_quote
                   /\ c <> single_quote) v ->
  written v val ->
  trimmed val
  /\ strip_char single_quote (strip_char double_quote val) = v.
Proof.
  intros F W.
  assert (Fs : Forall (fun c => isspace c = false) v)
    by (eapply Forall_impl; [|exact F]; now intros c (? & _)).
  assert (Fd : Forall (fun c => c <> double_quote) v)
    by (eapply Forall_impl; [|exact F]; now intros c (_ & ? & _)).
  assert (Fq : Forall (fun c => c <> single_quote) v)
    by (eapply Forall_impl; [|exact F]; now intros c (_ & _ & ?)).
  destruct W.
  - split; [now apply trimmed_plain|].
    now rewrite (strip_char_id _ _ Fd), (strip_char_id _ _ Fq).
  - split; [now apply trimmed_ends|].
    now rewrite (strip_char_quoted _ _ Fd), (strip_char_id _ _ Fq).
  - split; [now apply trimmed_ends|].
    rewrite (strip_char_id double_quote).
    + now apply strip_char_quoted.
    + constructor; [discriminate|]. apply Forall_app. split; [exact Fd|].
      constructor; [discriminate | constructor].
Qed.

(** X16: how one line of the file is read.  A name without white space or
    an equals sign that does not start with a hash, then an equals sign,
    then a value without white space or quotes, written bare or between a
    pair of double or single quotes, with any white space at the ends of
    the line and around the equals sign, sets that name to that value
    when the name is not set yet and the platform takes the pair. *)
Theorem env_line_sets_variable
    (env : environ) (rest : list (result str))
    (w1 k w2 w3 v val w4 : str) :
  Forall (fun c => isspace c = true) w1 ->
  Forall (fun c => isspace c = true) w2 ->
  Forall (fun c => isspace c = true) w3 ->
  Forall (fun c => isspace c = true) w4 ->
  k <> [] ->
  starts_with [hash] k = false ->
  Forall (fun c => isspace c = false /\ c <> equals) k ->
  Forall (fun c => isspace c = false /\ c <> double_quote
                   /\ c <> single_quote) v ->
  written v val ->
  environ_get env k = None ->
  setenv_error k v = None ->
  read_lines setenv_error env
    (Ok (w1 ++ k ++ w2 ++ equals :: w3 ++ val ++ w4) :: rest)
  = read_lines setenv_error ((k, v) :: env) rest.
Proof.
  intros F1 F2 F3 F4 Hk Hh Fk Fv W Hnone Hset.
  assert (Fks : Forall (fun c => isspace c = false) k)
    by (eapply Forall_impl; [|exact Fk]; now intros c (? & _)).
  assert (Fke : Forall (fun c => c <> equals) k)
    by (eapply Forall_impl; [|exact Fk]; now intros c (_ & ?)).
  destruct (written_value v val Fv W) as [Tv Ev].
  (* the line without the white space at its ends *)
  assert (Eline : exists tail,
            strip (w1 ++ k ++ w2 ++ equals :: w3 ++ val ++ w4)
            = k ++ w2 ++ equals :: tail
            /\ strip tail = val).
  { destruct val as [|c0 val0] eqn:Eval.
    - (* nothing after the equals sign but white space *)
      exists []. split; [|reflexivity]. cbn [app].
      replace (w1 ++ k ++ w2 ++ equals :: w3 ++ w4)
        with (w1 ++ (k ++ w2 ++ [equals]) ++ (w3 ++ w4))
        by (rewrite <- ?app_assoc; cbn [app]; rewrite <- ?app_assoc; reflexivity).
      apply strip_trimmed; [exact F1 | now apply Forall_app |].
      apply trimmed_app; [exact Hk | discriminate | now apply trimmed_plain
                         | now apply trimmed_one].
    - exists (w3 ++ c0 :: val0). split.
      + replace (w1 ++ k ++ w2 ++ equals :: w3 ++ (c0 :: val0) ++ w4)
          with (w1 ++ (k ++ (w2 ++ equals :: w3) ++ (c0 :: val0)) ++ w4)
          by (rewrite <- ?app_assoc; cbn [app]; rewrite <- ?app_assoc; reflexivity).
        replace (k ++ w2 ++ equals :: w3 ++ c0 :: val0)
          with (k ++ (w2 ++ equals :: w3) ++ (c0 :: val0))
          by (rewrite <- ?app_assoc; cbn [app]; rewrite <- ?app_assoc; reflexivity).
        apply strip_trimmed; [exact F1 | exact F4 |].
        apply trimmed_app; [exact Hk | discriminate | now apply trimmed_plain
                           | exact Tv].
      + rewrite <- (app_nil_r (c0 :: val0)) at 1.
        apply strip_trimmed; [exact F3 | constructor | exact Tv]. }
  destruct Eline as (tail & Eline & Etail).
  cbn [read_lines]. rewrite Eline.
  destruct k as [|c k']; [now elim Hk|].
  assert (Hhash : starts_with [hash] ((c :: k') ++ w2 ++ equals :: tail)
                  = false).
  { cbn [starts_with app] in *. now rewrite andb_true_r in *. }
  rewrite Hhash. cbn [app non_empty negb orb].
  assert (Hc : contains [equals] (c :: k' ++ w2 ++ equals :: tail) = true).
  { apply contains_spec. exists (c :: k' ++ w2), tail.
    cbn [app]. now rewrite <- !app_assoc. }
  rewrite Hc. cbn [negb].
  replace (c :: k' ++ w2 ++ equals :: tail)
    with (((c :: k') ++ w2) ++ equals :: tail)
    by (rewrite <- ?app_assoc; cbn [app]; rewrite <- ?app_assoc; reflexivity).
  rewrite split_once_first
    by (apply Forall_app; split; [exact Fke | now apply space_not_equals]).
  assert (Ek : strip ((c :: k') ++ w2) = c :: k').
  { change ((c :: k') ++ w2) with ([] ++ (c :: k') ++ w2).
    apply strip_padded; [constructor | exact F2 | exact Fks]. }
  rewrite Ek, Etail, Ev. cbn [non_empty andb].
  apply environ_has_spec in Hnone. rewrite Hnone. cbn [negb].
  now rewrite Hset.
Qed.

End EnvFileFacts.

(** * Runs *)

(** ** The codec on concrete replies *)

Example parse_plain_reply :
  @parse_freq_from_text ascii_only (of_string "14250000" ++ LF)
  = Ok (Some 14250000).
Proof. vm_compute. reflexivity. Qed.

Example parse_labelled_reply :
  @parse_freq_from_text ascii_only (of_string "freq: 7074000.0 kHz-ish")
  = Ok (Some 7074000).
Proof. vm_compute. reflexivity. Qed.

(** The bound on the digits [int] converts: a numeral of 4300 digits is
    read as it stands; one of 4301 digits is refused by [int] and goes to
    [float], where 4301 ones are too large and 4300 zeros before a 5 are
    5.0. *)
Example parse_longest_integer :
  @parse_freq_from_text ascii_only (repeat 49%N 4300)
  = Ok (Some ((10 ^ 4300 - 1) / 9)).
Proof. vm_compute. reflexivity. Qed.

Example parse_too_long_integer :
  @parse_freq_from_text ascii_only (repeat 49%N 4301) = Raise OverflowError
  /\ @parse_freq_from_text ascii_only (repeat 48%N 4300 ++ of_string "5")
     = Ok (Some 5).
Proof. split; vm_compute; reflexivity. Qed.

(** C6, the claim as it stands, fails: the token [1.49999999999999999999]
    is a decimal whose nearest integer is 1, and the function returns 2,
    the float nearest to the decimal being 1.5. *)
Lemma parse_freq_from_text_not_nearest :
  let text := of_string "1.49999999999999999999" in
  @parse_freq_from_text ascii_only text = Ok (Some 2)
  /\ @decimal_literal ascii_only text
     = Some (false, 149999999999999999999, 20%nat)
  /\ 2 * (2 * 10 ^ 20 - 149999999999999999999) > 10 ^ 20
  /\ @spec_parse_frequency ascii_only text = Some 1
  /\ @parse_freq_from_text ascii_only text
     <> Ok (@spec_parse_frequency ascii_only text).
Proof.
  cbv zeta. repeat split; try (vm_compute; reflexivity).
  vm_compute. discriminate.
Qed.

(** A decimal of 310 digits before a well-formed frequency: the reply is
    not parsed. *)
Lemma parse_freq_from_text_raises_witness :
  @parse_freq_from_text ascii_only (huge_decimal ++ of_string " 14250000")
  = Raise OverflowError.
Proof.
  apply (@parse_freq_from_text_raises ascii_only
           (huge_decimal ++ of_string " 14250000")
           [] [of_string "14250000"] huge_decimal).
  - vm_compute. reflexivity.
  - constructor.
  - vm_compute. reflexivity.
Defined.

(** C9, the claim as it stands, fails: the byte [0xFF] before the digit 1
    is dropped from the text, where substitution would put U+FFFD. *)
Lemma recv_text_no_substitution :
  let data := [xff; x31] in
  let st := connected (Tracker_init 50) (fun _ => float_zero) [] [Ok data] in
  result_of (recv_text rigctl_socket 1024 st) = Ok [49%N]
  /\ spec_decode (firstn 1024 data) = Ok [65533%N; 49%N]
  /\ result_of (recv_text rigctl_socket 1024 st) <> spec_decode (firstn 1024 data).
Proof.
  cbv zeta. repeat split; try (vm_compute; reflexivity).
  vm_compute. discriminate.
Qed.

(** The same read, through the theorem. *)
Lemma recv_text_drops_undecodable_witness :
  let data := [xff; x31] in
  let st := connected (Tracker_init 50) (fun _ => float_zero) [] [Ok data] in
  events_of (recv_text rigctl_socket 1024 st) = [EvRecv rigctl_socket 1024]
  /\ result_of (recv_text rigctl_socket 1024 st) = Ok [49%N].
Proof.
  cbv zeta.
  destruct (recv_text_drops_undecodable rigctl_socket 1024
              (connected (Tracker_init 50) (fun _ => float_zero) [] [Ok [xff; x31]])
              [xff; x31] [] eq_refl) as (Hev & _ & Hres & _).
  split; [exact Hev|]. rewrite Hres. vm_compute. reflexivity.
Defined.

(** ** Ticks of the loop *)

(** C1: the first tick of a run, with a new tracker and a clock that
    moves; wfview reports 14250000 Hz and rigctl 14300000 Hz, the
    threshold being 50 Hz.  When the tick begins neither side has a
    recorded change: both last-change instants are zero and
    [last_changed_side] knows no side.  Both first samples are recorded
    before the source is chosen, rigctl's last, so the tracker then names
    rigctl and the one set command takes rigctl's frequency to wfview: the
    tie-break in favour of wfview is not reached, and the command of
    that tie-break, wfview's frequency to rigctl, is not sent. *)
Theorem tie_break_missed_on_first_tick :
  let clk := fun n => match n with O => instant_1 | _ => instant_2 end in
  let st := connected (Tracker_init 50) clk
              [Ok (line "14250000")] [Ok (line "14300000")] in
  let out := @poll ascii_only 50 wfview_socket rigctl_socket st in
  last_change_time (tr st) = {| at_wf := float_zero; at_sdr := float_zero |}
  /\ last_changed_side (tr st) = None
  /\ last_changed_side (tr (state_of out)) = Some sdr
  /\ sent (events_of out)
     = [(wfview_socket, get_line); (rigctl_socket, get_line);
        (wfview_socket, set_line 14300000)]
  /\ sent (events_of out)
     <> [(wfview_socket, get_line); (rigctl_socket, get_line);
         (rigctl_socket, set_line 14250000)].
Proof.
  cbv zeta. repeat split; try (vm_compute; reflexivity).
  vm_compute. discriminate.
Qed.

(** The scenario of the specification: both sides were at 14250000 Hz,
    rigctl now reports 14300000 Hz; rigctl is the side that changed last
    and its frequency goes to wfview. *)
Lemma correction_follows_changed_side_witness :
  let st := connected steady_tracker (fun _ => instant_2)
              [Ok (line "14250000")] [Ok (line "14300000")] in
  sent (events_of (@poll ascii_only 50 wfview_socket rigctl_socket st))
  = [(wfview_socket, get_line); (rigctl_socket, get_line);
     (wfview_socket, set_line 14300000)].
Proof.
  cbv zeta.
  set (st := connected steady_tracker (fun _ => instant_2)
               [Ok (line "14250000")] [Ok (line "14300000")]).
  set (out1 := @rigctl_get_freq ascii_only wfview_socket st).
  set (out2 := @rigctl_get_freq ascii_only rigctl_socket (state_of out1)).
  refine (@correction_follows_changed_side ascii_only 50
    wfview_socket rigctl_socket st (state_of out1) (state_of out2)
    (events_of out1) (events_of out2) 14250000 14300000 sdr _ _ _ _);
    vm_compute; (reflexivity || discriminate).
Defined.

(** Readings 10 Hz apart with a threshold of 50 Hz: two queries and the
    sleep. *)
Lemma in_sync_no_correction_witness :
  let st := connected steady_tracker (fun _ => instant_2)
              [Ok (line "14250000")] [Ok (line "14250010")] in
  events_of (@poll ascii_only 50 wfview_socket rigctl_socket st)
  = [EvSend wfview_socket get_line; EvRecv wfview_socket 1024;
     EvSend rigctl_socket get_line; EvRecv rigctl_socket 1024;
     EvSleep poll_sec].
Proof.
  cbv zeta.
  set (st := connected steady_tracker (fun _ => instant_2)
               [Ok (line "14250000")] [Ok (line "14250010")]).
  set (out1 := @rigctl_get_freq ascii_only wfview_socket st).
  set (out2 := @rigctl_get_freq ascii_only rigctl_socket (state_of out1)).
  refine (proj1 (proj2 (@in_sync_no_correction ascii_only 50
    wfview_socket rigctl_socket st (state_of out1) (state_of out2)
    (events_of out1) (events_of out2) 14250000 14250010 _ _ _)));
    vm_compute; reflexivity.
Defined.

(** The first tick when rigctl's reply has no number in it: wfview's
    sample is recorded, at the first reading of the clock, and nothing is
    written. *)
Lemma first_sample_counts_as_change_witness :
  let st := connected (Tracker_init 50) (fun _ => instant_1)
              [Ok (line "14250000")] [Ok (line "no such command")] in
  let out := @poll ascii_only 50 wfview_socket rigctl_socket st in
  lookup (last (tr (state_of out))) wf = Some 14250000
  /\ lookup (last_change_time (tr (state_of out))) wf = instant_1
  /\ sent (events_of out) = [(wfview_socket, get_line); (rigctl_socket, get_line)].
Proof.
  cbv zeta.
  set (st := connected (Tracker_init 50) (fun _ => instant_1)
               [Ok (line "14250000")] [Ok (line "no such command")]).
  set (out1 := @rigctl_get_freq ascii_only wfview_socket st).
  set (out2 := @rigctl_get_freq ascii_only rigctl_socket (state_of out1)).
  assert (H1 : out1 = (Ok (Some 14250000), state_of out1, events_of out1))
    by (vm_compute; reflexivity).
  assert (H2 : out2 = (Ok None, state_of out2, events_of out2))
    by (vm_compute; reflexivity).
  destruct (@first_sample_counts_as_change ascii_only 50
    wfview_socket rigctl_socket st (state_of out1) (state_of out2)
    (events_of out1) (events_of out2) (Some 14250000) None wf 14250000
    H1 H2 eq_refl eq_refl) as (Hlast & _ & Hsent & _).
  split; [exact Hlast|]. split; [vm_compute; reflexivity|].
  exact (Hsent eq_refl).
Defined.

(** The connection to rigctl is reset while its answer is awaited: both
    sockets are closed and the loop waits before it reconnects. *)
Lemma polling_failure_handling_witness :
  let st := connected steady_tracker (fun _ => instant_2)
              [Ok (line "14250000")] [Raise ConnectionResetError] in
  let out := @iteration ascii_only 50 st in
  events_of out
  = [EvSend wfview_socket get_line; EvRecv wfview_socket 1024;
     EvSend rigctl_socket get_line; EvRecv rigctl_socket 1024;
     EvClose wfview_socket; EvClose rigctl_socket; EvSleep RECONNECT_WAIT]
  /\ result_of out = Ok tt
  /\ exists rest,
       events_of (@iteration ascii_only 50 (state_of out))
       = EvConnect wf :: rest.
Proof.
  cbv zeta.
  set (st := connected steady_tracker (fun _ => instant_2)
               [Ok (line "14250000")] [Raise ConnectionResetError]).
  set (out := @poll ascii_only 50 wfview_socket rigctl_socket st).
  assert (H : out = (Raise ConnectionResetError, state_of out, events_of out))
    by (vm_compute; reflexivity).
  destruct (@polling_failure_handling ascii_only 50 wfview_socket
    rigctl_socket st (state_of out) ConnectionResetError (events_of out)
    eq_refl eq_refl H) as (_ & _ & Hio & _).
  destruct (Hio (or_intror (or_introl eq_refl))) as (Hev & _ & Hok).
  assert (Hwait : time_sleep_error (seconds st RECONNECT_WAIT) = None)
    by (vm_compute; reflexivity).
  destruct (Hok Hwait) as (Hres & Hnext).
  split; [rewrite Hev; vm_compute; reflexivity|].
  split; [exact Hres | exact Hnext].
Defined.

(** C8, the claim as it stands, fails.  With a reconnect wait of -1.0 the
    reset of rigctl's connection makes the loop close both sockets and
    call [time.sleep], which raises [ValueError] in the handler, outside
    any [try]: the run ends there, and no reconnection is attempted
    although two turns were to come.  With a poll interval of 1e10 s the
    sleep of the first tick raises [OverflowError], an unexpected failure:
    the handler sleeps the same interval and the exception leaves the
    loop. *)
Lemma polling_failure_ends_run :
  let reset := connected steady_tracker (fun _ => instant_2)
                 [Ok (line "14250000")] [Raise ConnectionResetError] in
  let quiet_peers := connected steady_tracker (fun _ => instant_2)
                       [Ok (line "14250000")] [Ok (line "14250000")] in
  let out1 := @main_loop ascii_only 50 2 (with_seconds reset negative_wait) in
  let out2 := @main_loop ascii_only 50 2 (with_seconds quiet_peers long_poll) in
  result_of out1 = Raise ValueError
  /\ events_of out1
     = [EvSend wfview_socket get_line; EvRecv wfview_socket 1024;
        EvSend rigctl_socket get_line; EvRecv rigctl_socket 1024;
        EvClose wfview_socket; EvClose rigctl_socket; EvSleep RECONNECT_WAIT]
  /\ result_of out2 = Raise OverflowError
  /\ events_of out2
     = [EvSend wfview_socket get_line; EvRecv wfview_socket 1024;
        EvSend rigctl_socket get_line; EvRecv rigctl_socket 1024;
        EvSleep poll_sec; EvSleep poll_sec].
Proof.
  cbv zeta. repeat split; vm_compute; reflexivity.
Qed.

(** ** The first tick of a run

    A new tracker, a clock that reads 1.0 and then 2.0: rigctl's first
    sample is the later one and its frequency goes to wfview. *)
Lemma first_tick_source_witness :
  let clk := fun n => match n with O => instant_1 | _ => instant_2 end in
  let st := connected (Tracker_init 50) clk
              [Ok (line "14250000")] [Ok (line "14300000")] in
  sent (events_of (@poll ascii_only 50 wfview_socket rigctl_socket st))
  = [(wfview_socket, get_line); (rigctl_socket, get_line);
     (wfview_socket, set_line 14300000)].
Proof.
  cbv zeta.
  set (st := connected (Tracker_init 50)
               (fun n => match n with O => instant_1 | _ => instant_2 end)
               [Ok (line "14250000")] [Ok (line "14300000")]).
  set (out1 := @rigctl_get_freq ascii_only wfview_socket st).
  set (out2 := @rigctl_get_freq ascii_only rigctl_socket (state_of out1)).
  refine (proj2 (proj2 (@first_tick_source ascii_only 50
    wfview_socket rigctl_socket st (state_of out1) (state_of out2)
    (events_of out1) (events_of out2) 14250000 14300000 _ _ _ _ _ _)));
    vm_compute; (reflexivity || discriminate).
Defined.

(** ** Further runs *)

Ltac each_char :=
  match goal with
  | |- Forall ?P ?l => let l' := eval vm_compute in l in change (Forall P l')
  end;
  repeat first
    [ apply Forall_nil
    | apply Forall_cons;
      [repeat split;
       first [vm_compute; reflexivity | vm_compute; intro; discriminate]|] ].

(** A reply with a label, as rigctld writes it in its long form. *)
Lemma parse_reads_back_integer_witness :
  @parse_freq_from_text ascii_only
    (of_string "Frequency:" ++ of_string " " ++ str_of_Z 14074000 ++ LF)
  = Ok (Some 14074000).
Proof.
  apply (@parse_reads_back_integer ascii_only
           (of_string "Frequency:") (of_string " ") LF 14074000).
  - vm_compute. discriminate.
  - each_char.
  - each_char.
  - each_char.
  - right. discriminate.
Defined.

(** wfview echoes the frequency it was set to. *)
Lemma echo_acknowledged_witness :
  @set_acknowledged ascii_only (str_of_Z 14074000 ++ LF) = true.
Proof.
  apply (proj2 (@echo_acknowledged ascii_only 14074000 [] LF
                  ltac:(constructor) ltac:(each_char))).
  lia.
Defined.

Lemma parse_without_number_witness :
  @parse_freq_from_text ascii_only (of_string "timeout" ++ LF) = Ok None.
Proof.
  apply (@parse_without_number ascii_only). each_char.
Defined.

(** A slow drift of 40 Hz a tick, 120 Hz in all, with a threshold of
    50 Hz. *)
Lemma drift_is_not_a_change_witness :
  let st := connected steady_tracker (fun _ => instant_2) [] [] in
  let out := updates wf [14250040; 14250080; 14250120] st in
  lookup (last_change_time (tr (state_of out))) wf = instant_1
  /\ lookup (last (tr (state_of out))) wf = Some 14250120.
Proof.
  cbv zeta.
  destruct (drift_is_not_a_change wf [14250040; 14250080; 14250120] 14250000
              (connected steady_tracker (fun _ => instant_2) [] []))
    as (_ & Ht & _ & Hl).
  - reflexivity.
  - vm_compute. repeat split.
  - split; [exact Ht | exact Hl].
Defined.

(** rigctl refuses the connection: the socket to wfview is closed
    again. *)
Lemma connect_failure_backs_off_witness :
  let st := initial_state 50 {| at_wf := answers []; at_sdr := refusing |}
              [] (fun _ => float_zero) default_seconds in
  let out := @iteration ascii_only 50 st in
  result_of out = Ok tt
  /\ events_of out
     = [EvConnect wf; EvConnect sdr; EvClose {| peer := wf; fd := 3 |};
        EvSleep RECONNECT_WAIT]
  /\ conn (state_of out) = {| at_wf := None; at_sdr := None |}.
Proof.
  cbv zeta.
  set (st := initial_state 50 {| at_wf := answers []; at_sdr := refusing |}
               [] (fun _ => float_zero) default_seconds).
  set (out1 := ensure_connections st).
  destruct (@connect_failure_backs_off ascii_only 50 st (state_of out1)
              OtherException (events_of out1))
    as (Hr & He & _ & Hc & _).
  - vm_compute. reflexivity.
  - split; [rewrite Hr; vm_compute; reflexivity|].
    split; [rewrite He; vm_compute; reflexivity | exact Hc].
Defined.

(** wfview answers the set command with an error code. *)
Lemma unacknowledged_set_is_not_fatal_witness :
  let st := connected steady_tracker (fun _ => instant_2)
              [Ok (line "14250000"); Ok (line "RPRT -11")]
              [Ok (line "14300000")] in
  result_of (@poll ascii_only 50 wfview_socket rigctl_socket st) = Ok tt.
Proof.
  cbv zeta.
  set (st := connected steady_tracker (fun _ => instant_2)
               [Ok (line "14250000"); Ok (line "RPRT -11")]
               [Ok (line "14300000")]).
  set (out1 := @rigctl_get_freq ascii_only wfview_socket st).
  set (out2 := @rigctl_get_freq ascii_only rigctl_socket (state_of out1)).
  set (st3 := state_of (track (Some 14250000) (Some 14300000) (state_of out2))).
  set (out4 := @rigctl_set_freq ascii_only wfview_socket 14300000 st3).
  rewrite (@unacknowledged_set_is_not_fatal ascii_only 50
             wfview_socket rigctl_socket st (state_of out1) (state_of out2)
             (state_of out4) (events_of out1) (events_of out2)
             (events_of out4) 14250000 14300000 false);
    [vm_compute; reflexivity | vm_compute; (reflexivity || discriminate) ..].
Defined.

(** A threshold of zero: the two sides agree and a set command is sent all
    the same. *)
Lemma nonpositive_threshold_always_corrects_witness :
  let st := connected (Tracker_init 0) (fun _ => instant_1)
              [Ok (line "14250000")] [Ok (line "14250000")] in
  let l := sent (events_of (@poll ascii_only 0 wfview_socket rigctl_socket st)) in
  l = [(wfview_socket, get_line); (rigctl_socket, get_line);
       (rigctl_socket, set_line 14250000)]
  \/ l = [(wfview_socket, get_line); (rigctl_socket, get_line);
          (wfview_socket, set_line 14250000)].
Proof.
  cbv zeta.
  set (st := connected (Tracker_init 0) (fun _ => instant_1)
               [Ok (line "14250000")] [Ok (line "14250000")]).
  set (out1 := @rigctl_get_freq ascii_only wfview_socket st).
  set (out2 := @rigctl_get_freq ascii_only rigctl_socket (state_of out1)).
  refine (@nonpositive_threshold_always_corrects ascii_only 0
            wfview_socket rigctl_socket st (state_of out1) (state_of out2)
            (events_of out1) (events_of out2) 14250000 14250000 _ _ _);
    [lia | vm_compute; reflexivity ..].
Defined.

(** Both sides first seen at the same reading of the clock. *)
Lemma equal_instants_prefer_wfview_witness :
  let st := connected (Tracker_init 50) (fun _ => instant_1)
              [Ok (line "14250000")] [Ok (line "14300000")] in
  sent (events_of (@poll ascii_only 50 wfview_socket rigctl_socket st))
  = [(wfview_socket, get_line); (rigctl_socket, get_line);
     (rigctl_socket, set_line 14250000)].
Proof.
  cbv zeta.
  set (st := connected (Tracker_init 50) (fun _ => instant_1)
               [Ok (line "14250000")] [Ok (line "14300000")]).
  set (out1 := @rigctl_get_freq ascii_only wfview_socket st).
  set (out2 := @rigctl_get_freq ascii_only rigctl_socket (state_of out1)).
  refine (proj2 (@equal_instants_prefer_wfview ascii_only 50
    wfview_socket rigctl_socket st (state_of out1) (state_of out2)
    (events_of out1) (events_of out2) 14250000 14300000 _ _ _ _));
    [vm_compute; reflexivity | vm_compute; reflexivity | lia
    | vm_compute; reflexivity].
Defined.

(** A reply of nine bytes read four at a time. *)
Lemma recv_text_bounded_witness :
  let st := connected (Tracker_init 50) (fun _ => float_zero)
              [] [Ok (line "14250000")] in
  result_of (recv_text rigctl_socket 4 st) = Ok (of_string "1425")
  /\ (List.length (of_string "1425") <= 4)%nat.
Proof.
  cbv zeta.
  assert (H : result_of (recv_text rigctl_socket 4
                (connected (Tracker_init 50) (fun _ => float_zero)
                   [] [Ok (line "14250000")]))
              = Ok (of_string "1425")) by (vm_compute; reflexivity).
  split; [exact H|].
  exact (recv_text_bounded rigctl_socket 4 _ _ H).
Defined.

Lemma query_reads_back_witness :
  let st := connected (Tracker_init 50) (fun _ => float_zero)
              [Ok (line "Frequency: 14074000")] [] in
  result_of (@rigctl_get_freq ascii_only wfview_socket st)
  = Ok (Some 14074000).
Proof.
  cbv zeta.
  apply (@query_reads_back ascii_only wfview_socket
           (connected (Tracker_init 50) (fun _ => float_zero)
              [Ok (line "Frequency: 14074000")] [])
           (of_string "Frequency:") (of_string " ") LF 14074000 []).
  - vm_compute. reflexivity.
  - vm_compute. reflexivity.
  - each_char.
  - vm_compute. lia.
  - each_char.
  - each_char.
  - each_char.
  - right. discriminate.
Defined.

(** ** Environment files *)

(** Only the system file exists; its second setting of [POLL_MS] is not
    taken. *)
Lemma env_file_first_readable_wins_witness :
  @_load_env_file ascii_only setenv_always system_only repo_env local_env []
  = [(of_string "POLL_MS", of_string "100")].
Proof.
  apply (@env_file_first_readable_wins ascii_only setenv_always system_only
           [repo_env; local_env] [] system_env
           [Ok (of_string "# polling" ++ LF);
            Ok (of_string "POLL_MS=100" ++ LF);
            Ok (of_string "POLL_MS=500" ++ LF)]
           [] [(of_string "POLL_MS", of_string "100")]).
  - repeat constructor; right; vm_compute; reflexivity.
  - discriminate.
  - vm_compute. reflexivity.
  - vm_compute. reflexivity.
Defined.

(** The file named by the environment breaks off after its first line;
    that line stays in force and the system file adds the rest. *)
Lemma env_file_error_keeps_partial_witness :
  let env := @load_candidates ascii_only setenv_always broken_own []
               [own_env; repo_env; local_env; system_env] in
  environ_get env (of_string "WF_PORT") = Some (of_string "4540")
  /\ environ_get env (of_string "SDR_PORT") = Some (of_string "4532").
Proof.
  cbv zeta. split; [|vm_compute; reflexivity].
  apply (@env_file_error_keeps_partial ascii_only setenv_always broken_own
           own_env [repo_env; local_env; system_env]
           [Ok (of_string "WF_PORT=4540" ++ LF); Raise ValueError]
           [] [(of_string "WF_PORT", of_string "4540")] ValueError).
  - discriminate.
  - vm_compute. reflexivity.
  - vm_compute. reflexivity.
  - vm_compute. reflexivity.
Defined.

(** A quoted value with blanks around the equals sign. *)
Lemma env_line_sets_variable_witness :
  @read_lines ascii_only setenv_always []
    [Ok (of_string "  " ++ of_string "WF_PORT" ++ of_string " "
         ++ equals :: of_string " "
         ++ (double_quote :: of_string "4533" ++ [double_quote]) ++ LF)]
  = ([(of_string "WF_PORT", of_string "4533")], None).
Proof.
  apply (@env_line_sets_variable ascii_only setenv_always [] []
           (of_string "  ") (of_string "WF_PORT") (of_string " ")
           (of_string " ") (of_string "4533")
           (double_quote :: of_string "4533" ++ [double_quote]) LF).
  - each_char.
  - each_char.
  - each_char.
  - each_char.
  - discriminate.
  - vm_compute. reflexivity.
  - each_char.
  - each_char.
  - apply written_double.
  - reflexivity.
  - reflexivity.
Defined.
